(** * Scattering 2-D utilities: a shallow embedding of
      [scattering/scattering2d/utils.py]

    The module wraps four numerical primitives of a wavelet scattering
    network: periodization, complex modulus, the spectral transform and the
    pointwise complex multiply, together with the memoised kernel loader.

    Conventions of the embedding.
    - Scalars are modelled by the real numbers [R]: the arithmetic is exact,
      floating-point rounding is outside the model.
    - A tensor is its Python class, its shape, its logical contents in
      row-major order and a flag telling whether its memory layout is the
      row-major one ([is_contiguous]).
    - Python integers are [Z]; [//] is [Z.div] (both round to minus infinity).
    - The [int] of the CUDA kernels is a 32-bit signed integer, written as a
      [Z] wrapped by [int32]; [/] on it truncates ([Z.quot]).
    - Exceptions are values of [PyError] carried by the [Result] monad.
    - Memory returned by [Tensor.new] is uninitialised: its contents are given
      by an arbitrary function [junk] from positions to scalars.

    The operations of the tensor runtime that the module calls are modelled
    by their documented behaviour on the logical contents, in the releases
    that provide [torch.ifft] (PyTorch 0.4 to 1.7): [view] keeps the memory
    and changes the shape; it needs an equal number of elements and, for a
    tensor that is not contiguous, a shape that the layout allows; [mean]
    and [norm] reduce one axis; [cat] joins along the last axis; [copy_]
    broadcasts its source to the shape of the destination; the built-in
    [type] is [torch.Tensor] for every tensor, whatever its scalar type and
    device. [torch.ifft], [torch.irfft], [cublasCdgmm],
    [string.Template.substitute], the device compiler and the table of the
    functions a compiled module holds are parameters. A kernel launch runs
    every thread of the grid, once the device has accepted the launch
    configuration. *)

From Stdlib Require Import ZArith List Reals Lra Lia String Bool.
From stdpp Require Import base list gmap strings.

Local Open Scope Z_scope.

(** ** Python exceptions and the error monad *)

Inductive PyError : Type :=
  | TypeError (msg : string)
  | RuntimeError (msg : string)
  | ZeroDivisionError
  | IndexError
  | CompileException (msg : string)
  | CUDADriverError (msg : string).

Inductive Result (A : Type) : Type :=
  | Ok (a : A)
  | Raise (e : PyError).

Arguments Ok {A} a.
Arguments Raise {A} e.

Definition rbind {A B : Type} (r : Result A) (f : A -> Result B) : Result B :=
  match r with
  | Ok a => f a
  | Raise e => Raise e
  end.

Notation "'let*' x ':=' r 'in' k" := (rbind r (fun x => k))
  (at level 10, x name, r at level 100, k at level 200).

Definition raises {A : Type} (r : Result A) : Prop :=
  match r with
  | Ok _ => False
  | Raise _ => True
  end.

(** Python's [a // b] on integers. *)
Definition py_floordiv (a b : Z) : Result Z :=
  if b =? 0 then Raise ZeroDivisionError else Ok (a / b).

(** ** Tensors *)

Inductive TensorType : Type :=
  | FloatTensor
  | DoubleTensor
  | CudaFloatTensor
  | CudaDoubleTensor.

Definition TensorType_eqb (a b : TensorType) : bool :=
  match a, b with
  | FloatTensor, FloatTensor
  | DoubleTensor, DoubleTensor
  | CudaFloatTensor, CudaFloatTensor
  | CudaDoubleTensor, CudaDoubleTensor => true
  | _, _ => false
  end.

Inductive Dtype : Type :=
  | float
  | double.

Record Tensor : Type := mkTensor {
  ttype : TensorType;
  size : list Z;
  data : list R;
  contig : bool
}.

Definition prodZ (s : list Z) : Z := fold_right Z.mul 1 s.

Definition nelement (t : Tensor) : Z := prodZ (size t).

Definition ndimension (t : Tensor) : Z := Z.of_nat (length (size t)).

Definition is_cuda (t : Tensor) : bool :=
  match ttype t with
  | CudaFloatTensor | CudaDoubleTensor => true
  | _ => false
  end.

Definition is_contiguous (t : Tensor) : bool := contig t.

(** [t.contiguous()]: same logical contents, row-major layout. *)
Definition contiguous (t : Tensor) : Tensor :=
  mkTensor (ttype t) (size t) (data t) true.

(** [t.size(d)], with Python's negative indices. *)
Definition size_at (t : Tensor) (d : Z) : Result Z :=
  let n := ndimension t in
  let d' := if d <? 0 then d + n else d in
  if (d' <? 0) || (n <=? d') then Raise IndexError
  else Ok (nth (Z.to_nat d') (size t) 0).

(** ** Memory: reads and writes at integer positions *)

Definition range (n : Z) : list Z := map Z.of_nat (seq 0 (Z.to_nat n)).

Definition rd (m : list R) (i : Z) : R :=
  if i <? 0 then 0%R else nth (Z.to_nat i) m 0%R.

Definition wr (m : list R) (i : Z) (v : R) : list R :=
  if i <? 0 then m else <[Z.to_nat i := v]> m.

Definition Rsum (l : list R) : R := fold_right Rplus 0%R l.

(** [t.new(sizes)]: a fresh tensor of the class of [t]; its memory is not
    initialised. *)
Definition tensor_new (junk : Z -> R) (t : Tensor) (sizes : list Z)
  : Result Tensor :=
  if forallb (fun d => 0 <=? d) sizes
  then Ok (mkTensor (ttype t) sizes (map junk (range (prodZ sizes))) true)
  else Raise (RuntimeError "negative dimension").

(** Whether the shape [new] only splits axes of the shape [old]: every axis
    of [old] is replaced by consecutive axes of [new] with the same product.
    [acc] is the product of the axes of [new] read so far for the current
    axis of [old]. *)
Fixpoint split_axes (old : list Z) (acc : Z) (new : list Z) {struct new}
  : bool :=
  match new, old with
  | [], [] => true
  | n :: new', d :: old' =>
      if acc * n =? d then split_axes old' 1 new'
      else split_axes old (acc * n) new'
  | _, _ => false
  end.

(** [t.view(sizes)]: the same memory read under another shape; the number
    of elements must not change. A contiguous tensor accepts every such
    shape. The model keeps no strides: of a tensor that is not contiguous it
    accepts the shapes that only split axes, which every layout allows, and
    refuses the others. *)
Definition view (t : Tensor) (sizes : list Z) : Result Tensor :=
  if negb (is_contiguous t) then
    if forallb (fun d => 0 <=? d) sizes && (prodZ sizes =? nelement t)
    then
      if split_axes (size t) 1 sizes
      then Ok (mkTensor (ttype t) sizes (data t) false)
      else Raise (RuntimeError
                    "view size is not compatible with input tensor's size and stride")
    else Raise (RuntimeError "size mismatch")
  else if forallb (fun d => 0 <=? d) sizes && (prodZ sizes =? nelement t)
  then Ok (mkTensor (ttype t) sizes (data t) true)
  else Raise (RuntimeError "size mismatch").

(** Row-major position of a multi-index. *)
Fixpoint flat_index (sizes idx : list Z) (acc : Z) : Z :=
  match sizes, idx with
  | s :: sizes', i :: idx' => flat_index sizes' idx' (acc * s + i)
  | _, _ => acc
  end.

Definition elem (t : Tensor) (idx : list Z) : R :=
  rd (data t) (flat_index (size t) idx 0).

Definition drop_dim (s : list Z) (d : Z) : list Z :=
  firstn (Z.to_nat d) s ++ skipn (S (Z.to_nat d)) s.

(** [t.mean(d, keepdim=False)]: axis [d] is averaged away. *)
Definition mean (t : Tensor) (d : Z) : Result Tensor :=
  if (d <? 0) || (ndimension t <=? d) then Raise IndexError else
  let outer := prodZ (firstn (Z.to_nat d) (size t)) in
  let n := nth (Z.to_nat d) (size t) 0 in
  let inner := prodZ (skipn (S (Z.to_nat d)) (size t)) in
  Ok (mkTensor (ttype t) (drop_dim (size t) d)
        (map (fun p =>
                let o := p / inner in
                let i := p mod inner in
                (Rsum (map (fun a => rd (data t) ((o * n + a) * inner + i))
                           (range n)) / IZR n)%R)
             (range (outer * inner)))
        true).

Definition iscomplex (input : Tensor) : Result bool :=
  let* s := size_at input (-1) in Ok (s =? 2).

(** ** The CUDA execution model

    A kernel is a function of the block index, the block extent and the
    thread index that transforms the output buffer. The device refuses a
    launch whose grid or block has an extent that is zero or above its
    limits; otherwise the launch runs every thread of every block of the
    grid. The threads of the kernels below write to pairwise distinct cells
    and read only their input buffer, so the order in which the model runs
    them is immaterial. *)

Record dim3 : Type := mkDim3 { d_x : Z; d_y : Z; d_z : Z }.

Definition dim3_range (d : dim3) : list dim3 :=
  flat_map (fun z =>
    flat_map (fun y =>
      map (fun x => mkDim3 x y z) (range (d_x d))) (range (d_y d)))
    (range (d_z d)).

Definition launch_threads (grid block : dim3) : list (dim3 * dim3) :=
  flat_map (fun b => map (fun t => (b, t)) (dim3_range block))
           (dim3_range grid).

Definition run_grid (grid block : dim3)
    (kernel : dim3 -> dim3 -> dim3 -> list R -> list R)
    (output : list R) : list R :=
  fold_left (fun m bt => kernel (fst bt) block (snd bt) m)
            (launch_threads grid block) output.

(** The limits of the device on a launch configuration: a grid of at most
    [2^31 - 1] by 65535 by 65535 blocks, a block of at most 1024 by 1024 by
    64 threads and 1024 threads in all, no extent being zero. *)
Definition launch_config_ok (grid block : dim3) : bool :=
  (0 <? d_x grid) && (d_x grid <=? 2 ^ 31 - 1) &&
  (0 <? d_y grid) && (d_y grid <=? 65535) &&
  (0 <? d_z grid) && (d_z grid <=? 65535) &&
  (0 <? d_x block) && (d_x block <=? 1024) &&
  (0 <? d_y block) && (d_y block <=? 1024) &&
  (0 <? d_z block) && (d_z block <=? 64) &&
  (d_x block * d_y block * d_z block <=? 1024).

(** The call of a compiled kernel with [grid] and [block]. *)
Definition cuda_launch (grid block : dim3)
    (kernel : dim3 -> dim3 -> dim3 -> list R -> list R)
    (output : list R) : Result (list R) :=
  if launch_config_ok grid block
  then Ok (run_grid grid block kernel output)
  else Raise (CUDADriverError "CUDA_ERROR_INVALID_VALUE: invalid argument").

(** 32-bit signed [int] arithmetic. *)
Definition int32 (z : Z) : Z := (z + 2 ^ 31) mod 2 ^ 32 - 2 ^ 31.
Definition iadd (a b : Z) : Z := int32 (a + b).
Definition imul (a b : Z) : Z := int32 (a * b).
Definition idiv (a b : Z) : Z := int32 (Z.quot a b).

(** An array of [Dtype2] laid over a scalar buffer. *)
Definition load2 (m : list R) (i : Z) : R * R :=
  (rd m (2 * i), rd m (2 * i + 1)).

Definition store2 (m : list R) (i : Z) (v : R * R) : list R :=
  wr (wr m (2 * i) (fst v)) (2 * i + 1) (snd v).

(** ** Periodize *)

Definition getDtype (t : Tensor) : option Dtype :=
  match ttype t with
  | CudaFloatTensor => Some float
  | CudaDoubleTensor => Some double
  | _ => None
  end.

Record Periodize : Type := mkPeriodize {
  p_block : dim3;
  p_jit : bool
}.

Definition Periodize_init (jit : bool) : Periodize :=
  mkPeriodize (mkDim3 32 32 1) jit.

Definition GET_BLOCKS (N threads : Z) : Z := (N + threads - 1) / threads.

(** The kernel [periodize] after substitution of [B], [H], [W] and [k].
    The macros [NW] and [NH] expand textually to [W / k] and [H / k], so
    [j * NH * W + i * NW] reads [((j * H) / k) * W + (i * W) / k] and
    [tz * NH * NW + ty * NW + tx] reads
    [(((tz * H) / k) * W) / k + (ty * W) / k + tx]. *)
Definition periodize_kernel (B H W k : Z) (input : list R)
    (blockIdx blockDim threadIdx : dim3) (output : list R) : list R :=
  let tx := int32 (d_x blockIdx * d_x blockDim + d_x threadIdx) in
  let ty := int32 (d_y blockIdx * d_y blockDim + d_y threadIdx) in
  let tz := int32 (d_z blockIdx * d_z blockDim + d_z threadIdx) in
  if (tx >=? idiv W k) || (ty >=? idiv H k) || (tz >=? B) then output else
  let base := iadd (iadd (imul (imul tz H) W) (imul ty W)) tx in
  let res :=
    fold_left (fun res j =>
      fold_left (fun res i =>
        let c := load2 input
                   (base + iadd (imul (idiv (imul j H) k) W)
                                (idiv (imul i W) k)) in
        ((fst res + fst c)%R, (snd res + snd c)%R))
        (range k) res)
      (range k) (0%R, 0%R) in
  let kk := imul k k in
  let res := ((fst res / IZR kk)%R, (snd res / IZR kk)%R) in
  store2 output
    (iadd (iadd (idiv (imul (idiv (imul tz H) k) W) k) (idiv (imul ty W) k))
          tx)
    res.

Definition Periodize_call (self : Periodize) (junk : Z -> R)
    (input : Tensor) (k : Z) : Result Tensor :=
  let* s0 := size_at input 0 in
  let* s1 := size_at input 1 in
  let* s2 := size_at input 2 in
  let* oh := py_floordiv s2 k in
  let* s3 := size_at input 3 in
  let* ow := py_floordiv s3 k in
  let* out := tensor_new junk input [s0; s1; oh; ow; 2] in
  if negb (p_jit self) || negb (is_cuda input) then
    let* qh := py_floordiv s2 oh in
    let* qw := py_floordiv s3 ow in
    let* y := view input [s0; s1; qh; oh; qw; ow; 2] in
    let* m := mean y 4 in
    mean m 2
  else
    let* c := iscomplex input in
    if negb c
    then Raise (TypeError "The input and outputs should be complex")
    else
      let input := contiguous input in
      let* w := size_at input (-2) in
      let* h := size_at input (-3) in
      let* B := py_floordiv (nelement input) (2 * w * h) in
      let W := w in
      let H := h in
      let* ow' := size_at out (-2) in
      let* k := py_floordiv w ow' in
      match getDtype input with
      | None => Raise (CompileException "kernel compilation failed")
      | Some _ =>
          let* oh' := size_at out (-3) in
          let* ob := py_floordiv (nelement out) (2 * ow' * oh') in
          let grid := mkDim3 (GET_BLOCKS oh' (d_x (p_block self)))
                             (GET_BLOCKS ow' (d_y (p_block self)))
                             (GET_BLOCKS ob (d_z (p_block self))) in
          let* written :=
            cuda_launch grid (p_block self)
              (periodize_kernel B H W k (data input)) (data out) in
          Ok (mkTensor (ttype out) (size out) written true)
      end.

(** ** Modulus *)

Record Modulus : Type := mkModulus {
  CUDA_NUM_THREADS : Z;
  m_jit : bool
}.

Definition Modulus_init (jit : bool) : Modulus := mkModulus 1024 jit.

Definition Modulus_GET_BLOCKS (self : Modulus) (N : Z) : Z :=
  (N + CUDA_NUM_THREADS self - 1) / CUDA_NUM_THREADS self.

(** Euclidean norm of the [dim] scalars stored from position [off] on: the
    reduction of [Tensor.norm(p=2)] along an axis and of CUDA's [normf]. *)
Definition norm_at (m : list R) (off dim : Z) : R :=
  sqrt (Rsum (map (fun c => (rd m (off + c) * rd m (off + c))%R) (range dim))).

(** [t.norm(p=2, dim=-1, keepdim=True)]. *)
Definition norm_last (t : Tensor) : Result Tensor :=
  let* L := size_at t (-1) in
  let lead := removelast (size t) in
  Ok (mkTensor (ttype t) (lead ++ [1])
        (map (fun p => norm_at (data t) (p * L) L) (range (prodZ lead)))
        true).

(** [t.zero_()]. *)
Definition zero_ (t : Tensor) : Tensor :=
  mkTensor (ttype t) (size t) (map (fun _ => 0%R) (data t)) (contig t).

Definition list_Z_eqb (a b : list Z) : bool :=
  bool_decide (a = b).

(** [torch.cat([a, b], -1)]. *)
Definition cat_last (a b : Tensor) : Result Tensor :=
  let* La := size_at a (-1) in
  let* Lb := size_at b (-1) in
  let lead := removelast (size a) in
  if negb (list_Z_eqb lead (removelast (size b)))
  then Raise (RuntimeError "Sizes of tensors must match")
  else
    Ok (mkTensor (ttype a) (lead ++ [La + Lb])
          (flat_map (fun p =>
                       map (fun c => rd (data a) (p * La + c)) (range La) ++
                       map (fun c => rd (data b) (p * Lb + c)) (range Lb))
                    (range (prodZ lead)))
          true).

(** The kernel [abs_complex_value] for [Dtype = float]. The text calls
    [normf], the single-precision norm of CUDA, on [x + 2*i] whatever
    [Dtype] is: for [Dtype = double], [x] is a [const double *], which does
    not convert to the [const float *] that [normf] takes, and the text does
    not compile. *)
Definition abs_complex_value (x : list R) (n : Z)
    (blockIdx blockDim threadIdx : dim3) (z : list R) : list R :=
  let i := int32 (d_x blockIdx * d_x blockDim + d_x threadIdx) in
  if i >=? n then z
  else store2 z i (norm_at x (imul 2 i) 2, 0%R).

Definition Modulus_call (self : Modulus) (junk : Z -> R) (input : Tensor)
  : Result Tensor :=
  if negb (m_jit self) || negb (is_cuda input) then
    let* norm := norm_last input in
    let* fresh := tensor_new junk norm (size norm) in
    cat_last norm (zero_ fresh)
  else
    let* out := tensor_new junk input (size input) in
    let input := contiguous input in
    let* c := iscomplex input in
    if negb c
    then Raise (TypeError "The input and outputs should be complex")
    else
      match getDtype input with
      | Some float =>
          let grid := mkDim3 (Modulus_GET_BLOCKS self (nelement out / 2)) 1 1 in
          let block := mkDim3 (CUDA_NUM_THREADS self) 1 1 in
          let* written :=
            cuda_launch grid block
              (abs_complex_value (data input) (int32 (nelement out / 2)))
              (data out) in
          Ok (mkTensor (ttype out) (size out) written true)
      | Some double | None =>
          Raise (CompileException "kernel compilation failed")
      end.

(** ** Fft

    [torch.ifft] and [torch.irfft] belong to the tensor runtime: they are
    parameters of the wrapper. The wrapper returns the list of the runtime
    calls it issued together with its result. *)

Inductive TorchCall : Type :=
  | call_ifft (input : Tensor) (signal_ndim : Z) (normalized : bool)
  | call_irfft (input : Tensor) (signal_ndim : Z) (normalized onesided : bool)
               (signal_sizes : list Z).

(** What [Fft.__call__] returns: a tensor, or the empty list [output] starts
    as. *)
Inductive FftOutput : Type :=
  | EmptyList
  | OutTensor (t : Tensor).

Definition rmap {A B : Type} (f : A -> B) (r : Result A) : Result B :=
  match r with
  | Ok a => Ok (f a)
  | Raise e => Raise e
  end.

Section Fft.

Variable torch_ifft : Tensor -> Z -> bool -> Result Tensor.
Variable torch_irfft : Tensor -> Z -> bool -> bool -> list Z -> Result Tensor.

Definition Fft_call (input : Tensor) (direction : string) (inverse : bool)
  : list TorchCall * Result FftOutput :=
  let inverse := if String.eqb direction "C2R" then true else inverse in
  match iscomplex input with
  | Raise e => ([], Raise e)
  | Ok false =>
      ([], Raise (TypeError
                    "The input should be complex (e.g. last dimension is 2)"))
  | Ok true =>
      if negb (is_contiguous input)
      then ([], Raise (RuntimeError "Tensors must be contiguous!"))
      else if String.eqb direction "C2R"
      then ([call_irfft input 2 false false (size input)],
            rmap OutTensor (torch_irfft input 2 false false (size input)))
      else if String.eqb direction "C2C"
      then
        if inverse
        then ([call_ifft input 2 false],
              rmap OutTensor (torch_ifft input 2 false))
        else ([call_ifft input 2 false],
              rmap OutTensor (torch_ifft input 2 false))
      else ([], Ok EmptyList)
  end.

End Fft.

(** ** cdgmm

    [cublasCdgmm] belongs to the linear-algebra library: it is a parameter,
    mapping its arguments (sizes, operand buffers and leading dimensions) to
    the new contents of the output buffer. *)

(** [s[-n:]] on a tuple. *)
Definition lastn {A : Type} (n : nat) (l : list A) : list A :=
  skipn (length l - n) l.

(** [t[..., c]]: a strided slice. *)
Definition select_last (t : Tensor) (c : Z) : Result Tensor :=
  let* L := size_at t (-1) in
  if (c <? 0) || (L <=? c) then Raise IndexError else
  let lead := removelast (size t) in
  Ok (mkTensor (ttype t) lead
        (map (fun p => rd (data t) (p * L + c)) (range (prodZ lead)))
        (L =? 1)).

(** [t.view(-1, m)]. *)
Definition view_rows (t : Tensor) (m : Z) : Result Tensor :=
  if negb (is_contiguous t) then Raise (RuntimeError "input is not contiguous")
  else if (m <=? 0) || negb (nelement t mod m =? 0)
  then Raise (RuntimeError "size mismatch")
  else Ok (mkTensor (ttype t) [nelement t / m; m] (data t) true).

(** [t.unsqueeze(0)]. *)
Definition unsqueeze0 (t : Tensor) : Tensor :=
  mkTensor (ttype t) (1 :: size t) (data t) (contig t).

(** [t.expand_as(target)] for a row [t] of shape [(1, m)] and a matrix
    [target] of shape [(n, m)], the only shapes [cdgmm] builds. *)
Definition expand_as (t target : Tensor) : Result Tensor :=
  match size t, size target with
  | [1; m], [n; m'] =>
      if m =? m'
      then Ok (mkTensor (ttype t) [n; m]
                 (flat_map (fun _ => data t) (range n)) (n =? 1))
      else Raise (RuntimeError "expanded size must match")
  | _, _ => Raise (RuntimeError "expanded size must match")
  end.

(** Element-wise binary operation on tensors of one shape. The operands
    must be of one class: the runtime refuses operands on different devices,
    and operands of different scalar types where it does not promote them
    (before PyTorch 1.5). *)
Definition pointwise (f : R -> R -> R) (a b : Tensor) : Result Tensor :=
  if negb (TensorType_eqb (ttype a) (ttype b))
  then Raise (RuntimeError "expected operands of one type")
  else if list_Z_eqb (size a) (size b)
  then Ok (mkTensor (ttype a) (size a)
             (map (fun p => f (rd (data a) p) (rd (data b) p))
                  (range (nelement a)))
             true)
  else Raise (RuntimeError "inconsistent tensor size").

(** Broadcasting. A source of shape [src] can be expanded to the shape
    [dst] when it has no more axes and each of its axes, aligned from the
    right, has the extent of the destination or the extent 1. *)
Fixpoint axes_expand (src dst : list Z) : bool :=
  match src, dst with
  | [], [] => true
  | s :: src', d :: dst' => ((s =? d) || (s =? 1)) && axes_expand src' dst'
  | _, _ => false
  end.

Definition broadcastable (src dst : list Z) : bool :=
  (length src <=? length dst)%nat &&
  axes_expand src (skipn (length dst - length src) dst).

(** The multi-index of the row-major position [p] in [shape], with the
    quotient left over for the axes before. *)
Fixpoint unravel (shape : list Z) (p : Z) : list Z * Z :=
  match shape with
  | [] => ([], p)
  | d :: rest =>
      let '(idx, q) := unravel rest p in
      (q mod d :: idx, q / d)
  end.

(** The element that position [p] of the destination receives from the
    source: the index along an axis of extent 1 of the source is 0. *)
Definition broadcast_read (src dst : list Z) (m : list R) (p : Z) : R :=
  let idx := skipn (length dst - length src) (fst (unravel dst p)) in
  let idx' := map (fun si => if fst si =? 1 then 0 else snd si)
                  (combine src idx) in
  rd m (flat_index src idx' 0).

(** [C[..., c].copy_(src)]: [src] is broadcast to the shape of the slice
    [C[..., c]], the shape of [C] without its last axis, and written to the
    cells of [C] whose last index is [c]. *)
Definition copy_into_last (C : Tensor) (c : Z) (src : Tensor) : Result Tensor :=
  let* L := size_at C (-1) in
  if (c <? 0) || (L <=? c) then Raise IndexError else
  let slice := removelast (size C) in
  if negb (broadcastable (size src) slice)
  then Raise (RuntimeError
                "The expanded size of the tensor must match the existing size")
  else
    Ok (mkTensor (ttype C) (size C)
          (map (fun q => if q mod L =? c
                         then broadcast_read (size src) slice (data src) (q / L)
                         else rd (data C) q)
               (range (nelement C)))
          (contig C)).

(** [A.copy_(C)]: [C] is broadcast to the shape of [A]. *)
Definition copy_ (A C : Tensor) : Result Tensor :=
  if broadcastable (size C) (size A)
  then Ok (mkTensor (ttype A) (size A)
             (map (broadcast_read (size C) (size A) (data C))
                  (range (nelement A)))
             (contig A))
  else Raise (RuntimeError
                "The expanded size of the tensor must match the existing size").

(** Python's built-in [type] on a tensor: the one class [torch.Tensor],
    whatever the scalar type and the device, which [Tensor.type()] and
    [isinstance] tell ([ttype]). *)
Inductive PyClass : Type :=
  | torch_Tensor.

Definition py_type (t : Tensor) : PyClass := torch_Tensor.

(** [a is b] on classes. *)
Definition PyClass_is (a b : PyClass) : bool :=
  match a, b with
  | torch_Tensor, torch_Tensor => true
  end.

Section Cdgmm.

Variable cublasCdgmm :
  Z -> Z -> list R -> Z -> list R -> Z -> list R -> Z -> list R.

Definition cdgmm (junk : Z -> R) (A B : Tensor) (jit inplace : bool)
  : Result Tensor :=
  let A := contiguous A in
  let B := contiguous B in
  if negb (list_Z_eqb (lastn 3 (size A)) (size B))
  then Raise (RuntimeError "The filters are not compatible for multiplication!")
  else
  let* ca := iscomplex A in
  let* notcomplex := (if negb ca then Ok true
                      else let* cb := iscomplex B in Ok (negb cb)) in
  if notcomplex
  then Raise (TypeError "The input, filter and output should be complex")
  else
  if negb (ndimension B =? 3)
  then Raise (RuntimeError "The filters must be simply a complex array!")
  else
  if negb (PyClass_is (py_type A) (py_type B))
  then Raise (RuntimeError "A and B should be same type!")
  else
  if negb jit || negb (is_cuda A) then
    let* C := tensor_new junk A (size A) in
    let* aw := size_at A (-2) in
    let* ah := size_at A (-3) in
    let* A0 := select_last A 0 in
    let* A_r := view_rows (contiguous A0) (aw * ah) in
    let* A1 := select_last A 1 in
    let* A_i := view_rows (contiguous A1) (aw * ah) in
    let* bw := size_at B (-2) in
    let* bh := size_at B (-3) in
    let* B0 := select_last B 0 in
    let* B0v := view (contiguous B0) [bw * bh] in
    let* B_r := expand_as (unsqueeze0 B0v) A_i in
    let* B1 := select_last B 1 in
    let* B1v := view (contiguous B1) [bw * bh] in
    let* B_i := expand_as (unsqueeze0 B1v) A_r in
    let* rr := pointwise Rmult A_r B_r in
    let* ii := pointwise Rmult A_i B_i in
    let* re := pointwise Rminus rr ii in
    let* C := copy_into_last C 0 re in
    let* ri := pointwise Rmult A_r B_i in
    let* ir := pointwise Rmult A_i B_r in
    let* im := pointwise Rplus ri ir in
    let* C := copy_into_last C 1 im in
    if negb inplace then Ok C else copy_ A C
  else
    let* C := (if negb inplace then tensor_new junk A (size A) else Ok A) in
    let* m := py_floordiv (nelement B) 2 in
    let* n := py_floordiv (nelement A) (nelement B) in
    let lda := m in
    let ldc := m in
    let incx := 1 in
    Ok (mkTensor (ttype C) (size C)
          (cublasCdgmm m n (data A) lda (data B) incx (data C) ldc)
          (contig C)).

End Cdgmm.

(** ** load_kernel

    [cupy.util.memoize(for_each_device=True)] keeps, for the current device,
    one result per argument tuple of the decorated function; a call that
    raises leaves no entry. [string.Template.substitute], the device
    compiler and the table of the functions that a compiled text defines
    belong to the runtime and are parameters; [cupy.cuda.compile_with_cache]
    keeps the modules it compiled in a cache keyed by the source text. The
    state records both caches and the log of the sources that were
    compiled. *)

Record CudaModule : Type := mkModule {
  mod_device : nat;
  mod_source : string
}.

Record KernelHandle : Type := mkHandle {
  kh_module : CudaModule;
  kh_name : string
}.

Record CupyState : Type := mkState {
  memo : gmap (nat * (string * string * gmap string string)) KernelHandle;
  compiled : gmap (nat * string) CudaModule;
  compile_log : list (nat * string)
}.

Definition initial_state : CupyState := mkState ∅ ∅ [].

Section LoadKernel.

Variable substitute : string -> gmap string string -> Result string.
Variable compiler_accepts : string -> bool.
Variable module_defines : string -> string -> bool.

Definition compile_with_cache (st : CupyState) (dev : nat) (code : string)
  : Result CudaModule * CupyState :=
  match compiled st !! (dev, code) with
  | Some m => (Ok m, st)
  | None =>
      if compiler_accepts code
      then
        let m := mkModule dev code in
        (Ok m, mkState (memo st) (<[(dev, code) := m]> (compiled st))
                       (compile_log st ++ [(dev, code)]))
      else (Raise (CompileException "compilation failed"), st)
  end.

(** [module.get_function(name)]: the function of that name in the
    compiled module; the driver raises when the module has none. *)
Definition get_function (m : CudaModule) (kernel_name : string)
  : Result KernelHandle :=
  if module_defines (mod_source m) kernel_name
  then Ok (mkHandle m kernel_name)
  else Raise (CUDADriverError "CUDA_ERROR_NOT_FOUND: named symbol not found").

Definition load_kernel (st : CupyState) (dev : nat)
    (kernel_name code : string) (kwargs : gmap string string)
  : Result KernelHandle * CupyState :=
  match memo st !! (dev, (kernel_name, code, kwargs)) with
  | Some h => (Ok h, st)
  | None =>
      match substitute code kwargs with
      | Raise e => (Raise e, st)
      | Ok code' =>
          match compile_with_cache st dev code' with
          | (Raise e, st') => (Raise e, st')
          | (Ok kernel_code, st') =>
              match get_function kernel_code kernel_name with
              | Raise e => (Raise e, st')
              | Ok h =>
                  (Ok h, mkState (<[(dev, (kernel_name, code, kwargs)) := h]>
                                    (memo st'))
                                 (compiled st') (compile_log st'))
              end
          end
      end
  end.

End LoadKernel.

(** ** Specification-side definitions *)

(** The folded mean of the specification: the arithmetic mean, over [a] and
    [b] below [k], of [input[bi, ci, i + a * (H / k), j + b * (W / k), comp]]
    for an input of shape [(_, _, H, W, 2)]. *)
Definition folded_mean (input : Tensor) (H W k : Z) (bi ci i j comp : Z) : R :=
  Rdiv
    (Rsum (map (fun a =>
       Rsum (map (fun b =>
         elem input [bi; ci; i + a * (H / k); j + b * (W / k); comp])
         (range k)))
     (range k)))
    (IZR (k * k)).

(** ** Proof-side definitions *)

(** The effect of a thread that performs at most one [Dtype2] store. *)
Definition apply_store (s : option (Z * (R * R))) (m : list R) : list R :=
  match s with
  | None => m
  | Some (p, v) => store2 m p v
  end.

Definition run_stores {T : Type} (store_of : T -> option (Z * (R * R)))
    (ths : list T) (m : list R) : list R :=
  fold_left (fun m th => apply_store (store_of th) m) ths m.

(** The store performed by the thread of coordinates [(tx, ty, tz)] of the
    kernel [periodize], for [H = NH * k] and [W = NW * k], with the integer
    arithmetic carried out without overflow. *)
Definition periodize_cell (B NH NW k : Z) (input : list R) (tx ty tz : Z)
  : option (Z * (R * R)) :=
  if (tx >=? NW) || (ty >=? NH) || (tz >=? B) then None
  else
    let at_ (j i : Z) :=
      tz * (NH * k) * (NW * k) + ty * (NW * k) + tx
      + (j * NH * (NW * k) + i * NW) in
    Some (tz * NH * NW + ty * NW + tx,
          (Rdiv (Rsum (map (fun j =>
                   Rsum (map (fun i => fst (load2 input (at_ j i))) (range k)))
                 (range k))) (IZR (k * k)),
           Rdiv (Rsum (map (fun j =>
                   Rsum (map (fun i => snd (load2 input (at_ j i))) (range k)))
                 (range k))) (IZR (k * k)))).

(** The store performed by the thread [snd bt] of the block [fst bt]. *)
Definition periodize_store (B NH NW k : Z) (input : list R) (block : dim3)
    (bt : dim3 * dim3) : option (Z * (R * R)) :=
  periodize_cell B NH NW k input
    (d_x (fst bt) * d_x block + d_x (snd bt))
    (d_y (fst bt) * d_y block + d_y (snd bt))
    (d_z (fst bt) * d_z block + d_z (snd bt)).

(** A device-resident input of shape [(1, 1, 1, 33, 2)] filled with ones. *)
Definition ones_1x33 : Tensor :=
  mkTensor CudaFloatTensor [1; 1; 1; 33; 2]
           (map (fun _ => 1%R) (range 66)) true.

(** The store performed by a thread of the kernel [abs_complex_value]. *)
Definition modulus_store (x : list R) (n : Z) (block : dim3)
    (bt : dim3 * dim3) : option (Z * (R * R)) :=
  let i := d_x (fst bt) * d_x block + d_x (snd bt) in
  if i >=? n then None else Some (i, (norm_at x (2 * i) 2, 0%R)).

(** A host tensor of shape [(1, 3)]: its trailing axis is not a pair. *)
Definition triple_1x3 : Tensor :=
  mkTensor FloatTensor [1; 3] [3%R; 4%R; 0%R] true.

(** A host tensor of shape [(1, 2)]: the complex number [3 + 4i]. *)
Definition complex_3_4i : Tensor :=
  mkTensor FloatTensor [1; 2] [3%R; 4%R] true.

(** A device-resident double tensor of shape [(1, 2)]: the complex number
    [3 + 4i]. *)
Definition cuda_double_3_4i : Tensor :=
  mkTensor CudaDoubleTensor [1; 2] [3%R; 4%R] true.

(** The scalar type held by a tensor class. *)
Definition scalar_type (ty : TensorType) : Dtype :=
  match ty with
  | FloatTensor | CudaFloatTensor => float
  | DoubleTensor | CudaDoubleTensor => double
  end.

(** A host batch of two 1 x 1 complex maps, [3 + 4i] and [5 + 6i], and the
    host filter [1 + 0i]. *)
Definition batch_2x1x1 : Tensor :=
  mkTensor FloatTensor [2; 1; 1; 2] [3%R; 4%R; 5%R; 6%R] true.

Definition filter_one : Tensor :=
  mkTensor FloatTensor [1; 1; 2] [1%R; 0%R] true.

(** A device-resident float batch of one 1 x 1 complex map. *)
Definition cuda_batch_1x1 : Tensor :=
  mkTensor CudaFloatTensor [1; 1; 2] [1%R; 0%R] true.

(** A device-resident double filter of shape [(1, 1, 2)]: [1 + 0i]. *)
Definition cuda_double_filter : Tensor :=
  mkTensor CudaDoubleTensor [1; 1; 2] [1%R; 0%R] true.

(** A host input of shape [(1, 1, 3, 3, 2)]. *)
Definition host_3x3 : Tensor :=
  mkTensor FloatTensor [1; 1; 3; 3; 2] (map IZR (range 18)) true.

(** The states of the two caches that a sequence of [load_kernel] requests
    can produce from the empty caches of a fresh process. *)
Inductive reachable (substitute : string -> gmap string string -> Result string)
    (compiler_accepts : string -> bool)
    (module_defines : string -> string -> bool) : CupyState -> Prop :=
  | reach_init : reachable substitute compiler_accepts module_defines
                           initial_state
  | reach_step (st st' : CupyState) (dev : nat) (kernel_name code : string)
      (kwargs : gmap string string) (r : Result KernelHandle) :
      reachable substitute compiler_accepts module_defines st ->
      load_kernel substitute compiler_accepts module_defines st dev
                  kernel_name code kwargs = (r, st') ->
      reachable substitute compiler_accepts module_defines st'.

(** What the caches hold in every reachable state. *)
Record cache_inv (substitute : string -> gmap string string -> Result string)
    (st : CupyState) : Prop := mkInv {
  inv_nodup : NoDup (compile_log st);
  inv_log : forall key, key ∈ compile_log st <-> is_Some (compiled st !! key);
  inv_module : forall key m,
    compiled st !! key = Some m -> m = mkModule (fst key) (snd key);
  inv_memo : forall dev name code kw h,
    memo st !! (dev, (name, code, kw)) = Some h ->
    exists src, substitute code kw = Ok src /\
                h = mkHandle (mkModule dev src) name /\
                compiled st !! (dev, src) = Some (mkModule dev src)
}.

(** The trailing extent of a shape, as [size(-1)] reads it. *)
Definition size_last (s : list Z) : Result Z :=
  match s with
  | [] => Raise IndexError
  | _ :: _ => Ok (List.last s 0)
  end.

(** The precondition tests of [cdgmm], in the order of the source, as a
    function of the shapes of the operands alone: the error they raise, if
    any. The test on [type(A)] and [type(B)] never fails: both are
    [torch.Tensor]. *)
Definition cdgmm_precheck (sA sB : list Z) : option PyError :=
  if negb (list_Z_eqb (lastn 3 sA) sB)
  then Some (RuntimeError "The filters are not compatible for multiplication!")
  else
    match size_last sA with
    | Raise e => Some e
    | Ok la =>
        if negb (la =? 2)
        then Some (TypeError "The input, filter and output should be complex")
        else
          match size_last sB with
          | Raise e => Some e
          | Ok lb =>
              if negb (lb =? 2)
              then Some (TypeError
                           "The input, filter and output should be complex")
              else if negb (Z.of_nat (length sB) =? 3)
              then Some (RuntimeError
                           "The filters must be simply a complex array!")
              else None
          end
    end.

(** ** Inputs used to instantiate the further properties *)

(** A device-resident input of shape [(1, 1, 2, 2, 3)]: the trailing axis
    is not a pair. *)
Definition cuda_2x2_triples : Tensor :=
  mkTensor CudaFloatTensor [1; 1; 2; 2; 3] (map IZR (range 12)) true.

(** A device-resident tensor of shape [(1, 3)]. *)
Definition cuda_triple_1x3 : Tensor :=
  mkTensor CudaFloatTensor [1; 3] [3%R; 4%R; 0%R] true.

(** A host tensor of rank 3. *)
Definition host_rank3 : Tensor :=
  mkTensor FloatTensor [1; 2; 2] [1%R; 2%R; 3%R; 4%R] true.

(** A host tensor of shape [(1, 3)] that is neither complex nor
    contiguous. *)
Definition strided_triple : Tensor :=
  mkTensor FloatTensor [1; 3] [3%R; 4%R; 0%R] false.

(** The handle and the caches after a first request for the kernel
    ["periodize"] of the text ["src"] on device 0, in a fresh process. *)
Definition periodize_handle : KernelHandle :=
  mkHandle (mkModule 0 "src") "periodize".

Definition state_after_periodize : CupyState :=
  mkState {[ (0%nat, ("periodize"%string, "src"%string,
                      (∅ : gmap string string))) := periodize_handle ]}
          {[ (0%nat, "src"%string) := mkModule 0 "src" ]}
          [(0%nat, "src"%string)].

(** The caches after a request on device 0 that compiled the text ["src"]
    and found no function of the requested name in the module. *)
Definition state_after_compile : CupyState :=
  mkState ∅ {[ (0%nat, "src"%string) := mkModule 0 "src" ]}
          [(0%nat, "src"%string)].

(** A device-resident complex input of shape [(1, 1, 2, 2, 2)]. *)
Definition cuda_2x2 : Tensor :=
  mkTensor CudaFloatTensor [1; 1; 2; 2; 2] (map IZR (range 8)) true.

(** The contract of [cublasCdgmm] in left mode, for the leading dimensions
    [lda = ldc = m] and the increment [incx = 1] that [cdgmm] passes, on an
    output buffer of [m * n] complex entries: entry [q] of the column-major
    [m x n] matrix is multiplied by entry [q mod m] of the vector. *)
Definition cublasCdgmm_left_contract
    (f : Z -> Z -> list R -> Z -> list R -> Z -> list R -> Z -> list R)
  : Prop :=
  forall (m n : Z) (a x c : list R),
    0 < m -> 0 <= n ->
    Z.of_nat (length c) = 2 * (m * n) ->
    forall q, 0 <= q < n * m ->
      rd (f m n a m x 1 c m) (2 * q) =
        (rd a (2 * q) * rd x (2 * (q mod m))
         - rd a (2 * q + 1) * rd x (2 * (q mod m) + 1))%R /\
      rd (f m n a m x 1 c m) (2 * q + 1) =
        (rd a (2 * q) * rd x (2 * (q mod m) + 1)
         + rd a (2 * q + 1) * rd x (2 * (q mod m)))%R.

(** A reference model of [cublasCdgmm] in left mode: entry [(i, j)] of the
    column-major output, for [i < m] and [j < n], receives the product of
    entry [(i, j)] of the matrix by entry [i] of the vector; the other
    scalars of the output buffer are kept. *)
Definition cublasCdgmm_left (m n : Z) (a : list R) (lda : Z) (x : list R)
    (incx : Z) (c : list R) (ldc : Z) : list R :=
  map (fun p =>
         let q := p / 2 in
         let i := q mod ldc in
         let j := q / ldc in
         if (i <? m) && (j <? n) then
           let ar := rd a (2 * (i + j * lda)) in
           let ai := rd a (2 * (i + j * lda) + 1) in
           let xr := rd x (2 * (i * incx)) in
           let xi := rd x (2 * (i * incx) + 1) in
           if p mod 2 =? 0 then (ar * xr - ai * xi)%R
           else (ar * xi + ai * xr)%R
         else rd c p)
      (range (Z.of_nat (length c))).

(** A host input of shape [(1, 1, 4, 4, 2)]. *)
Definition host_4x4 : Tensor :=
  mkTensor FloatTensor [1; 1; 4; 4; 2] (map IZR (range 32)) true.

(** A device-resident complex input of shape [(1, 1, 2, 2, 2)] that is not
    contiguous. *)
Definition cuda_2x2_strided : Tensor :=
  mkTensor CudaFloatTensor [1; 1; 2; 2; 2] (map IZR (range 8)) false.


(** * Properties *)

(** ** Arithmetic and memory lemmas *)

Lemma in_range (n x : Z) : In x (range n) <-> 0 <= x < n.
Proof.
  unfold range. rewrite in_map_iff. split.
  - intros [m [<- Hm]]. apply in_seq in Hm. lia.
  - intros Hx. exists (Z.to_nat x). split; [lia|]. apply in_seq. lia.
Qed.

Lemma length_range (n : Z) : length (range n) = Z.to_nat n.
Proof. unfold range. now rewrite length_map, length_seq. Qed.

Lemma range_succ (n : Z) : 0 <= n -> range (n + 1) = range n ++ [n].
Proof.
  intros Hn. unfold range.
  replace (Z.to_nat (n + 1)) with (S (Z.to_nat n)) by lia.
  rewrite seq_S, map_app. simpl. f_equal. f_equal. lia.
Qed.

Lemma rd_map_range (f : Z -> R) (n i : Z) :
  0 <= i < n -> rd (map f (range n)) i = f i.
Proof.
  intros Hi. unfold rd. destruct (Z.ltb_spec i 0); [lia|].
  unfold range. rewrite map_map.
  rewrite (nth_indep _ _ (f (Z.of_nat 0))).
  2:{ rewrite length_map, length_seq. lia. }
  rewrite (map_nth (fun x => f (Z.of_nat x)) (seq 0 (Z.to_nat n)) 0%nat).
  rewrite seq_nth by lia. f_equal. lia.
Qed.

Lemma length_wr (m : list R) (i : Z) (v : R) : length (wr m i v) = length m.
Proof. unfold wr. destruct (i <? 0); [reflexivity|]. apply length_insert. Qed.

Lemma rd_wr_same (m : list R) (i : Z) (v : R) :
  0 <= i < Z.of_nat (length m) -> rd (wr m i v) i = v.
Proof.
  intros Hi. unfold rd, wr. destruct (Z.ltb_spec i 0); [lia|].
  apply nth_lookup_Some. apply list_lookup_insert_eq. lia.
Qed.

Lemma rd_wr_other (m : list R) (i j : Z) (v : R) :
  i <> j -> rd (wr m i v) j = rd m j.
Proof.
  intros Hij. unfold rd, wr.
  destruct (Z.ltb_spec j 0); [reflexivity|].
  destruct (Z.ltb_spec i 0); [reflexivity|].
  rewrite !nth_lookup. f_equal.
  apply list_lookup_insert_ne. lia.
Qed.

Lemma length_store2 (m : list R) (i : Z) (v : R * R) :
  length (store2 m i v) = length m.
Proof. unfold store2. now rewrite !length_wr. Qed.

Lemma load2_store2_same (m : list R) (i : Z) (v : R * R) :
  0 <= i -> 2 * i + 1 < Z.of_nat (length m) ->
  load2 (store2 m i v) i = v.
Proof.
  intros H0 H1. unfold load2, store2. destruct v as [a b]. simpl. f_equal.
  - rewrite rd_wr_other by lia. apply rd_wr_same. lia.
  - apply rd_wr_same. rewrite length_wr. lia.
Qed.

Lemma load2_store2_other (m : list R) (i j : Z) (v : R * R) :
  i <> j -> load2 (store2 m i v) j = load2 m j.
Proof.
  intros Hij. unfold load2, store2.
  rewrite !rd_wr_other by lia. reflexivity.
Qed.

Lemma int32_small (z : Z) : - 2 ^ 31 <= z < 2 ^ 31 -> int32 z = z.
Proof.
  intros Hz. unfold int32. rewrite Z.mod_small; lia.
Qed.

Lemma div_mod_radix (q d r : Z) :
  0 <= r < d -> (q * d + r) / d = q /\ (q * d + r) mod d = r.
Proof.
  intros Hr. split.
  - symmetry. apply (Z.div_unique _ _ _ r); [lia | ring].
  - symmetry. apply (Z.mod_unique _ _ q); [lia | ring].
Qed.

Lemma Rsum_map_div {A : Type} (f : A -> R) (c : R) (l : list A) :
  Rsum (map (fun a => (f a / c)%R) l) = (Rsum (map f l) / c)%R.
Proof.
  unfold Rsum, Rdiv. induction l as [|x l IH]; simpl; [lra|]. rewrite IH. lra.
Qed.

Lemma Rsum_map_ext {A : Type} (f g : A -> R) (l : list A) :
  (forall a, In a l -> f a = g a) -> Rsum (map f l) = Rsum (map g l).
Proof. intros Hfg. f_equal. now apply map_ext_in. Qed.

Lemma size_at_5 (t : Tensor) (a b c d e : Z) :
  size t = [a; b; c; d; e] ->
  size_at t 0 = Ok a /\ size_at t 1 = Ok b /\ size_at t 2 = Ok c /\
  size_at t 3 = Ok d /\ size_at t (-1) = Ok e /\ size_at t (-2) = Ok d /\
  size_at t (-3) = Ok c.
Proof.
  intros Hs. unfold size_at, ndimension. rewrite Hs.
  repeat split; reflexivity.
Qed.

Ltac rewrite_size_5 Hs :=
  let H0 := fresh in
  let H1 := fresh in
  let H2 := fresh in
  let H3 := fresh in
  let H4 := fresh in
  let H5 := fresh in
  let H6 := fresh in
  destruct (size_at_5 _ _ _ _ _ _ Hs) as (H0 & H1 & H2 & H3 & H4 & H5 & H6);
  rewrite ?H0, ?H1, ?H2, ?H3, ?H4, ?H5, ?H6;
  clear H0 H1 H2 H3 H4 H5 H6.

Ltac nonneg_leb :=
  repeat match goal with
         | |- context [0 <=? ?x] => destruct (Z.leb_spec 0 x); [|lia]
         end.

Lemma radix_bound (q Q r D : Z) :
  0 <= q < Q -> 0 <= r < D -> 0 <= q * D + r < Q * D.
Proof. intros Hq Hr. nia. Qed.

(** ** Periodize, portable path *)

Lemma Periodize_portable_ok (self : Periodize) (junk : Z -> R)
    (input : Tensor) (B C NH NW k : Z) :
  size input = [B; C; NH * k; NW * k; 2] ->
  is_contiguous input = true ->
  0 <= B -> 0 <= C -> 0 < NH -> 0 < NW -> 0 < k ->
  negb (p_jit self) || negb (is_cuda input) = true ->
  Periodize_call self junk input k =
    (let* m := mean (mkTensor (ttype input) [B; C; k; NH; k; NW; 2]
                              (data input) true) 4 in
     mean m 2).
Proof.
  intros Hsize Hc HB HC HNH HNW Hk Hpath.
  unfold Periodize_call. rewrite_size_5 Hsize. cbn [rbind].
  unfold py_floordiv.
  destruct (Z.eqb_spec k 0) as [?|_]; [lia|]. cbn [rbind]. 
  rewrite !Z.div_mul by lia.
  unfold tensor_new. cbn [forallb]. nonneg_leb.
  cbn [andb rbind]. rewrite Hpath.
  destruct (Z.eqb_spec NH 0) as [?|_]; [lia|].
  destruct (Z.eqb_spec NW 0) as [?|_]; [lia|]. cbn [rbind].
  rewrite (Z.mul_comm NH k), (Z.mul_comm NW k), !Z.div_mul by lia.
  unfold view. rewrite Hc. cbn [negb forallb]. nonneg_leb.
  cbn [andb]. unfold nelement. rewrite Hsize.
  replace (prodZ [B; C; k; NH; k; NW; 2] =? prodZ [B; C; NH * k; NW * k; 2])
    with true.
  2:{ symmetry. apply Z.eqb_eq. unfold prodZ. cbn [fold_right]. ring. }
  reflexivity.
Qed.

Lemma mean_split (t : Tensor) (pre post : list Z) (n : Z) :
  size t = pre ++ n :: post ->
  mean t (Z.of_nat (length pre)) =
    Ok (mkTensor (ttype t) (pre ++ post)
          (map (fun p =>
                  (Rsum (map (fun a =>
                          rd (data t)
                             (((p / prodZ post) * n + a) * prodZ post
                              + p mod prodZ post))
                        (range n)) / IZR n)%R)
               (range (prodZ pre * prodZ post)))
          true).
Proof.
  intros Hs. unfold mean, ndimension, drop_dim. rewrite Hs.
  rewrite length_app. cbn [length].
  destruct (Z.ltb_spec (Z.of_nat (length pre)) 0); [lia|].
  destruct (Z.leb_spec (Z.of_nat (length pre + S (length post)))
                       (Z.of_nat (length pre))); [lia|].
  cbn [orb]. rewrite Nat2Z.id.
  rewrite firstn_app, Nat.sub_diag, firstn_all. cbn [firstn].
  rewrite app_nil_r.
  rewrite app_nth2, Nat.sub_diag by lia. cbn [nth].
  replace (S (length pre)) with (length pre + 1)%nat by lia.
  rewrite skipn_app. replace (length pre + 1 - length pre)%nat with 1%nat by lia.
  rewrite skipn_all2 by lia. cbn [skipn app].
  reflexivity.
Qed.

Lemma Periodize_portable_folded_mean (self : Periodize) (junk : Z -> R)
    (input : Tensor) (B C H W k : Z) :
  size input = [B; C; H; W; 2] ->
  is_contiguous input = true ->
  0 <= B -> 0 <= C -> 0 < H -> 0 < W -> 0 < k ->
  (k | H) -> (k | W) ->
  negb (p_jit self) || negb (is_cuda input) = true ->
  exists out,
    Periodize_call self junk input k = Ok out /\
    size out = [B; C; H / k; W / k; 2] /\
    forall bi ci i j comp,
      0 <= bi < B -> 0 <= ci < C -> 0 <= i < H / k -> 0 <= j < W / k ->
      0 <= comp < 2 ->
      elem out [bi; ci; i; j; comp] = folded_mean input H W k bi ci i j comp.
Proof.
  intros Hsize Hc HB HC HH HW Hk [NH ->] [NW ->] Hpath.
  assert (HNH : 0 < NH) by nia. assert (HNW : 0 < NW) by nia.
  rewrite (Periodize_portable_ok self junk input B C NH NW k) by assumption.
  rewrite !Z.div_mul by lia.
  pose proof (mean_split (mkTensor (ttype input) [B; C; k; NH; k; NW; 2]
                                   (data input) true)
                         [B; C; k; NH] [NW; 2] k eq_refl) as Hm1.
  change (Z.of_nat (length [B; C; k; NH])) with 4 in Hm1.
  rewrite Hm1. clear Hm1. cbn [rbind].
  match goal with
  | |- context [mean ?t 2] =>
      pose proof (mean_split t [B; C] [NH; NW; 2] k eq_refl) as Hm2
  end.
  change (Z.of_nat (length [B; C])) with 2 in Hm2.
  rewrite Hm2. clear Hm2.
  eexists. split; [reflexivity|]. split; [reflexivity|].
  intros bi ci i j comp Hbi Hci Hi Hj Hcomp.
  unfold folded_mean, elem. rewrite Hsize.
  cbn [size data ttype app flat_index].
  unfold prodZ. cbn [fold_right]. rewrite !Z.div_mul by lia.
  rewrite !Z.mul_1_r.
  assert (Hq : 0 <= bi * C + ci < B * C) by (apply radix_bound; lia).
  assert (Hr1 : 0 <= i * NW + j < NH * NW) by (apply radix_bound; lia).
  assert (Hr : 0 <= (i * NW + j) * 2 + comp < NH * (NW * 2)).
  { replace (NH * (NW * 2)) with (NH * NW * 2) by ring.
    apply radix_bound; lia. }
  replace (((((0 * B + bi) * C + ci) * NH + i) * NW + j) * 2 + comp)
    with ((bi * C + ci) * (NH * (NW * 2)) + ((i * NW + j) * 2 + comp)) by ring.
  rewrite rd_map_range by (apply radix_bound; assumption).
  destruct (div_mod_radix (bi * C + ci) (NH * (NW * 2))
              ((i * NW + j) * 2 + comp) Hr) as [-> ->].
  rewrite (Rsum_map_ext _
    (fun a => (Rsum (map (fun b =>
       rd (data input)
          (((((0 * B + bi) * C + ci) * (NH * k) + (i + a * NH)) * (NW * k)
            + (j + b * NW)) * 2 + comp)) (range k)) / IZR k)%R)).
  - rewrite Rsum_map_div, mult_IZR. field.
    apply not_0_IZR. lia.
  - intros a Ha. apply in_range in Ha.
    assert (Hr2 : 0 <= j * 2 + comp < NW * 2) by (apply radix_bound; lia).
    assert (Ho : 0 <= ((bi * C + ci) * k + a) * NH + i < B * (C * (k * NH))).
    { replace (B * (C * (k * NH))) with (B * C * k * NH) by ring.
      apply radix_bound; [|lia]. apply radix_bound; lia. }
    replace (((bi * C + ci) * k + a) * (NH * (NW * 2))
             + ((i * NW + j) * 2 + comp))
      with ((((bi * C + ci) * k + a) * NH + i) * (NW * 2) + (j * 2 + comp))
      by ring.
    rewrite rd_map_range by (apply radix_bound; assumption).
    destruct (div_mod_radix (((bi * C + ci) * k + a) * NH + i) (NW * 2)
                (j * 2 + comp) Hr2) as [-> ->].
    f_equal. apply Rsum_map_ext. intros b _. f_equal. ring.
Qed.

(** ** Kernel launches: a fold of single stores *)

Lemma length_apply_store (s : option (Z * (R * R))) (m : list R) :
  length (apply_store s m) = length m.
Proof. destruct s as [[p v]|]; [apply length_store2 | reflexivity]. Qed.

Lemma length_run_stores {T : Type} (store_of : T -> option (Z * (R * R)))
    (ths : list T) (m : list R) :
  length (run_stores store_of ths m) = length m.
Proof.
  unfold run_stores. revert m.
  induction ths as [|th ths IH]; intros m; simpl; [reflexivity|].
  rewrite IH. apply length_apply_store.
Qed.

Lemma run_stores_app {T : Type} (store_of : T -> option (Z * (R * R)))
    (l1 l2 : list T) (m : list R) :
  run_stores store_of (l1 ++ l2) m =
    run_stores store_of l2 (run_stores store_of l1 m).
Proof. unfold run_stores. apply fold_left_app. Qed.

Lemma run_stores_untouched {T : Type} (store_of : T -> option (Z * (R * R)))
    (ths : list T) (m : list R) (p : Z) :
  (forall th q v, In th ths -> store_of th = Some (q, v) -> q <> p) ->
  load2 (run_stores store_of ths m) p = load2 m p.
Proof.
  unfold run_stores. revert m.
  induction ths as [|th ths IH]; intros m Hne; simpl; [reflexivity|].
  rewrite IH.
  - destruct (store_of th) as [[q v]|] eqn:Hs; simpl; [|reflexivity].
    apply load2_store2_other. apply (Hne th q v); [now left | assumption].
  - intros th' q v Hin. apply Hne. now right.
Qed.

Lemma run_stores_written {T : Type} (store_of : T -> option (Z * (R * R)))
    (ths : list T) (m : list R) (p : Z) (v : R * R) :
  0 <= p -> 2 * p + 1 < Z.of_nat (length m) ->
  (exists th, In th ths /\ store_of th = Some (p, v)) ->
  (forall th v', In th ths -> store_of th = Some (p, v') -> v' = v) ->
  load2 (run_stores store_of ths m) p = v.
Proof.
  intros Hp Hlen. induction ths as [|x ths IH] using rev_ind.
  - intros [th [[] _]].
  - intros [th [Hin Hth]] Huniq.
    rewrite run_stores_app. unfold run_stores at 1. simpl.
    destruct (store_of x) as [[q v']|] eqn:Hx; simpl.
    + destruct (Z.eq_dec q p) as [->|Hqp].
      * rewrite (Huniq x v'); [|apply in_or_app; right; now left | assumption].
        apply load2_store2_same; [assumption|].
        now rewrite length_run_stores.
      * rewrite load2_store2_other by assumption.
        apply IH.
        -- apply in_app_or in Hin. destruct Hin as [Hin|[<-|[]]].
           ++ exists th. now split.
           ++ congruence.
        -- intros th' v'' Hin'. apply Huniq. apply in_or_app. now left.
    + apply IH.
      * apply in_app_or in Hin. destruct Hin as [Hin|[<-|[]]].
        -- exists th. now split.
        -- congruence.
      * intros th' v'' Hin'. apply Huniq. apply in_or_app. now left.
Qed.

Lemma run_grid_run_stores (grid block : dim3)
    (kernel : dim3 -> dim3 -> dim3 -> list R -> list R)
    (store_of : dim3 * dim3 -> option (Z * (R * R))) (output : list R) :
  (forall bt m, In bt (launch_threads grid block) ->
     kernel (fst bt) block (snd bt) m = apply_store (store_of bt) m) ->
  run_grid grid block kernel output =
    run_stores store_of (launch_threads grid block) output.
Proof.
  unfold run_grid, run_stores.
  generalize (launch_threads grid block) as ths. intros ths. revert output.
  induction ths as [|th ths IH]; intros output Hk; simpl; [reflexivity|].
  rewrite Hk by now left. apply IH. intros bt m Hin. apply Hk. now right.
Qed.

Lemma in_dim3_range (d D : dim3) :
  In d (dim3_range D) <->
  0 <= d_x d < d_x D /\ 0 <= d_y d < d_y D /\ 0 <= d_z d < d_z D.
Proof.
  unfold dim3_range. rewrite in_flat_map. split.
  - intros [z [Hz Hin]]. apply in_flat_map in Hin. destruct Hin as [y [Hy Hin]].
    apply in_map_iff in Hin. destruct Hin as [x [<- Hx]].
    apply in_range in Hx, Hy, Hz. simpl. lia.
  - intros (Hx & Hy & Hz). exists (d_z d). split; [now apply in_range|].
    apply in_flat_map. exists (d_y d). split; [now apply in_range|].
    apply in_map_iff. exists (d_x d). split; [now destruct d | now apply in_range].
Qed.

Lemma in_launch_threads (grid block b t : dim3) :
  In (b, t) (launch_threads grid block) <->
  In b (dim3_range grid) /\ In t (dim3_range block).
Proof.
  unfold launch_threads. rewrite in_flat_map. split.
  - intros [b' [Hb Hin]]. apply in_map_iff in Hin.
    destruct Hin as [t' [Heq Ht]]. inversion Heq. subst. now split.
  - intros [Hb Ht]. exists b. split; [assumption|].
    apply in_map_iff. exists t. now split.
Qed.

(** ** The kernel [periodize] *)

Lemma fold_left_pair_sum {A : Type} (f g : A -> R) (l : list A) (r0 : R * R) :
  fold_left (fun res i => ((fst res + f i)%R, (snd res + g i)%R)) l r0 =
    ((fst r0 + Rsum (map f l))%R, (snd r0 + Rsum (map g l))%R).
Proof.
  revert r0. induction l as [|x l IH]; intros [a b]; simpl.
  - f_equal; lra.
  - rewrite IH. simpl. f_equal; lra.
Qed.

Lemma fold_left_ext_in {A S : Type} (f g : S -> A -> S) (l : list A) (s : S) :
  (forall s a, In a l -> f s a = g s a) -> fold_left f l s = fold_left g l s.
Proof.
  revert s. induction l as [|x l IH]; intros s Hfg; simpl; [reflexivity|].
  rewrite Hfg by now left. apply IH. intros s' a Ha. apply Hfg. now right.
Qed.

Lemma imul_small (a b : Z) : - 2 ^ 31 <= a * b < 2 ^ 31 -> imul a b = a * b.
Proof. apply int32_small. Qed.

Lemma iadd_small (a b : Z) : - 2 ^ 31 <= a + b < 2 ^ 31 -> iadd a b = a + b.
Proof. apply int32_small. Qed.

Lemma idiv_exact (a k : Z) :
  0 < k -> - 2 ^ 31 <= a < 2 ^ 31 -> idiv (a * k) k = a.
Proof.
  intros Hk Ha. unfold idiv. rewrite Z.quot_mul by lia. now apply int32_small.
Qed.

Lemma le_mul2 (a b A B : Z) :
  0 <= a <= A -> 0 <= b <= B -> 0 <= a * b <= A * B.
Proof.
  intros Ha Hb.
  split; [apply Z.mul_nonneg_nonneg; lia | apply Z.mul_le_mono_nonneg; lia].
Qed.

Lemma le_mul3 (a b c A B C : Z) :
  0 <= a <= A -> 0 <= b <= B -> 0 <= c <= C -> 0 <= a * b * c <= A * B * C.
Proof.
  intros Ha Hb Hc.
  pose proof (le_mul2 a b A B Ha Hb).
  now apply le_mul2.
Qed.

Lemma radix3_bound (a A b B c C : Z) :
  0 <= a < A -> 0 <= b < B -> 0 <= c < C ->
  0 <= a * B * C + b * C + c < A * B * C.
Proof.
  intros Ha Hb Hc.
  pose proof (le_mul3 a B C (A - 1) B C ltac:(lia) ltac:(lia) ltac:(lia)).
  pose proof (le_mul2 b C (B - 1) C ltac:(lia) ltac:(lia)).
  replace (A * B * C) with ((A - 1) * B * C + (B - 1) * C + C) by ring.
  lia.
Qed.

Section PeriodizeIndices.

Variables B NH NW k H W : Z.
Hypothesis Hk : 0 < k.
Hypothesis HNH : 0 < NH.
Hypothesis HNW : 0 < NW.
Hypothesis HH : H = NH * k.
Hypothesis HW : W = NW * k.
Hypothesis Hfit : B * H * W < 2 ^ 31.

Lemma periodize_dims : NH <= H /\ NW <= W /\ k <= H /\ k <= W.
Proof using Hk HNH HNW HH HW.
  pose proof (le_mul2 NH 1 NH k ltac:(lia) ltac:(lia)).
  pose proof (le_mul2 NW 1 NW k ltac:(lia) ltac:(lia)).
  pose proof (le_mul2 1 k NH k ltac:(lia) ltac:(lia)).
  pose proof (le_mul2 1 k NW k ltac:(lia) ltac:(lia)).
  lia.
Qed.

Lemma periodize_guard_dims :
  0 < B -> idiv W k = NW /\ idiv H k = NH.
Proof using All.
  intros HB. destruct periodize_dims as (H1 & H2 & H3 & H4).
  pose proof (le_mul3 1 1 W B H W ltac:(lia) ltac:(lia) ltac:(lia)).
  pose proof (le_mul3 1 H 1 B H W ltac:(lia) ltac:(lia) ltac:(lia)).
  rewrite HH, HW. rewrite !idiv_exact by lia. now split.
Qed.

Lemma periodize_base (tx ty tz : Z) :
  0 <= tz < B -> 0 <= ty < NH -> 0 <= tx < NW ->
  iadd (iadd (imul (imul tz H) W) (imul ty W)) tx
    = tz * H * W + ty * W + tx.
Proof using All.
  intros Htz Hty Htx. destruct periodize_dims as (H1 & H2 & H3 & H4).
  pose proof (le_mul3 tz H 1 B H W ltac:(lia) ltac:(lia) ltac:(lia)).
  pose proof (radix3_bound tz B 0 H 0 W ltac:(lia) ltac:(lia) ltac:(lia)).
  pose proof (radix3_bound 0 B ty H 0 W ltac:(lia) ltac:(lia) ltac:(lia)).
  pose proof (radix3_bound tz B ty H 0 W ltac:(lia) ltac:(lia) ltac:(lia)).
  pose proof (radix3_bound tz B ty H tx W ltac:(lia) ltac:(lia) ltac:(lia)).
  rewrite (imul_small tz H) by lia.
  rewrite (imul_small (tz * H) W) by lia.
  rewrite (imul_small ty W) by lia.
  rewrite (iadd_small (tz * H * W) (ty * W)) by lia.
  rewrite (iadd_small (tz * H * W + ty * W) tx) by lia.
  reflexivity.
Qed.

Lemma periodize_out_index (tx ty tz : Z) :
  0 <= tz < B -> 0 <= ty < NH -> 0 <= tx < NW ->
  iadd (iadd (idiv (imul (idiv (imul tz H) k) W) k) (idiv (imul ty W) k)) tx
    = tz * NH * NW + ty * NW + tx.
Proof using All.
  intros Htz Hty Htx. destruct periodize_dims as (H1 & H2 & H3 & H4).
  pose proof (le_mul3 tz H 1 B H W ltac:(lia) ltac:(lia) ltac:(lia)).
  pose proof (le_mul3 tz NH 1 B H W ltac:(lia) ltac:(lia) ltac:(lia)).
  pose proof (le_mul3 tz NH W B H W ltac:(lia) ltac:(lia) ltac:(lia)).
  pose proof (le_mul3 tz NH NW B H W ltac:(lia) ltac:(lia) ltac:(lia)).
  pose proof (le_mul3 1 ty W B H W ltac:(lia) ltac:(lia) ltac:(lia)).
  pose proof (le_mul3 1 ty NW B H W ltac:(lia) ltac:(lia) ltac:(lia)).
  pose proof (radix3_bound tz B ty NH 0 NW ltac:(lia) ltac:(lia) ltac:(lia)).
  pose proof (radix3_bound tz B ty NH tx NW ltac:(lia) ltac:(lia) ltac:(lia)).
  pose proof (le_mul3 B NH NW B H W ltac:(lia) ltac:(lia) ltac:(lia)).
  rewrite (imul_small tz H) by lia.
  replace (tz * H) with (tz * NH * k) by (rewrite HH; ring).
  rewrite (idiv_exact (tz * NH) k) by lia.
  rewrite (imul_small (tz * NH) W) by lia.
  replace (tz * NH * W) with (tz * NH * NW * k) by (rewrite HW; ring).
  rewrite (idiv_exact (tz * NH * NW) k) by lia.
  rewrite (imul_small ty W) by lia.
  replace (ty * W) with (ty * NW * k) by (rewrite HW; ring).
  rewrite (idiv_exact (ty * NW) k) by lia.
  rewrite (iadd_small (tz * NH * NW) (ty * NW)) by lia.
  rewrite (iadd_small (tz * NH * NW + ty * NW) tx) by lia.
  reflexivity.
Qed.

Lemma periodize_offset (j i : Z) :
  0 < B -> 0 <= j < k -> 0 <= i < k ->
  iadd (imul (idiv (imul j H) k) W) (idiv (imul i W) k)
    = j * NH * W + i * NW.
Proof using All.
  intros HB Hj Hi. destruct periodize_dims as (H1 & H2 & H3 & H4).
  pose proof (le_mul3 1 H j B H W ltac:(lia) ltac:(lia) ltac:(lia)).
  pose proof (le_mul2 j NH (k - 1) NH ltac:(lia) ltac:(lia)).
  pose proof (le_mul2 i NW (k - 1) NW ltac:(lia) ltac:(lia)).
  assert (Hjn : j * NH <= H - NH) by (rewrite HH; lia).
  assert (Hin : i * NW <= W - NW) by (rewrite HW; lia).
  pose proof (le_mul2 (j * NH) W (H - NH) W ltac:(lia) ltac:(lia)).
  pose proof (le_mul2 1 W NH W ltac:(lia) ltac:(lia)).
  pose proof (le_mul3 1 H W B H W ltac:(lia) ltac:(lia) ltac:(lia)).
  pose proof (le_mul3 1 i W B H W ltac:(lia) ltac:(lia) ltac:(lia)).
  pose proof (le_mul2 H 1 H W ltac:(lia) ltac:(lia)).
  pose proof (le_mul2 1 W H W ltac:(lia) ltac:(lia)).
  rewrite (imul_small j H) by lia.
  replace (j * H) with (j * NH * k) by (rewrite HH; ring).
  rewrite (idiv_exact (j * NH) k) by lia.
  rewrite (imul_small (j * NH) W) by lia.
  rewrite (imul_small i W) by lia.
  replace (i * W) with (i * NW * k) by (rewrite HW; ring).
  rewrite (idiv_exact (i * NW) k) by lia.
  rewrite (iadd_small (j * NH * W) (i * NW)) by lia.
  reflexivity.
Qed.

Lemma periodize_kk : 0 < B -> imul k k = k * k.
Proof using All.
  intros HB. destruct periodize_dims as (H1 & H2 & H3 & H4).
  pose proof (le_mul3 1 k k B H W ltac:(lia) ltac:(lia) ltac:(lia)).
  apply imul_small. lia.
Qed.

End PeriodizeIndices.

Lemma periodize_kernel_thread (B NH NW k : Z) (input : list R)
    (blockIdx blockDim threadIdx : dim3) (output : list R) :
  let tx := d_x blockIdx * d_x blockDim + d_x threadIdx in
  let ty := d_y blockIdx * d_y blockDim + d_y threadIdx in
  let tz := d_z blockIdx * d_z blockDim + d_z threadIdx in
  0 < k -> 0 < NH -> 0 < NW ->
  B * (NH * k) * (NW * k) < 2 ^ 31 ->
  0 <= tx < 2 ^ 31 -> 0 <= ty < 2 ^ 31 -> 0 <= tz < B ->
  periodize_kernel B (NH * k) (NW * k) k input blockIdx blockDim threadIdx
    output =
  apply_store (periodize_cell B NH NW k input tx ty tz) output.
Proof.
  intros tx ty tz Hk HNH HNW Hfit Htx Hty Htz.
  unfold periodize_kernel, periodize_cell.
  fold tx ty tz. clearbody tx ty tz.
  set (H := NH * k) in *. set (W := NW * k) in *.
  assert (HH : H = NH * k) by reflexivity.
  assert (HW : W = NW * k) by reflexivity.
  clearbody H W.
  assert (HB : 0 < B) by lia.
  assert (HBs : B < 2 ^ 31).
  { destruct (periodize_dims NH NW k H W Hk HNH HNW HH HW) as (H1 & H2 & _).
    pose proof (le_mul3 B 1 1 B H W ltac:(lia) ltac:(lia) ltac:(lia)). lia. }
  rewrite !(int32_small tx), !(int32_small ty), !(int32_small tz) by lia.
  destruct (periodize_guard_dims B NH NW k H W Hk HNH HNW HH HW Hfit HB)
    as [-> ->].
  destruct ((tx >=? NW) || (ty >=? NH) || (tz >=? B)) eqn:Hguard;
    [reflexivity|].
  apply orb_false_elim in Hguard. destruct Hguard as [Hguard Hg3].
  apply orb_false_elim in Hguard. destruct Hguard as [Hg1 Hg2].
  rewrite Z.geb_leb in Hg1, Hg2, Hg3. apply Z.leb_gt in Hg1, Hg2, Hg3.
  rewrite (periodize_base B NH NW k H W Hk HNH HNW HH HW Hfit) by lia.
  rewrite (periodize_out_index B NH NW k H W Hk HNH HNW HH HW Hfit) by lia.
  rewrite (periodize_kk B NH NW k H W Hk HNH HNW HH HW Hfit HB).
  cbn [apply_store]. f_equal.
  rewrite (fold_left_ext_in _
    (fun res j =>
       ((fst res + Rsum (map (fun i => fst (load2 input
            (tz * H * W + ty * W + tx + (j * NH * W + i * NW)))) (range k)))%R,
        (snd res + Rsum (map (fun i => snd (load2 input
            (tz * H * W + ty * W + tx + (j * NH * W + i * NW)))) (range k)))%R))).
  - rewrite fold_left_pair_sum. cbn [fst snd]. rewrite !Rplus_0_l.
    reflexivity.
  - intros res j Hj. apply in_range in Hj.
    rewrite (fold_left_ext_in _
      (fun res i =>
         ((fst res + fst (load2 input
              (tz * H * W + ty * W + tx + (j * NH * W + i * NW))))%R,
          (snd res + snd (load2 input
              (tz * H * W + ty * W + tx + (j * NH * W + i * NW))))%R))).
    + apply fold_left_pair_sum.
    + intros res' i Hi. apply in_range in Hi.
      rewrite (periodize_offset B NH NW k H W Hk HNH HNW HH HW Hfit)
        by assumption.
      reflexivity.
Qed.

(** ** Periodize, kernel path *)

Lemma Periodize_fast_ok (junk : Z -> R) (input : Tensor) (Bt C NH NW k : Z) :
  size input = [Bt; C; NH * k; NW * k; 2] ->
  is_cuda input = true ->
  0 <= Bt -> 0 <= C -> 0 < NH -> 0 < NW -> 0 < k ->
  Periodize_call (Periodize_init true) junk input k =
    (let* written :=
       cuda_launch
         (mkDim3 (GET_BLOCKS NH 32) (GET_BLOCKS NW 32)
                 (GET_BLOCKS (Bt * C) 1))
         (mkDim3 32 32 1)
         (periodize_kernel (Bt * C) (NH * k) (NW * k) k (data input))
         (map junk (range (prodZ [Bt; C; NH; NW; 2]))) in
     Ok (mkTensor (ttype input) [Bt; C; NH; NW; 2] written true)).
Proof.
  intros Hsize Hcuda HB HC HNH HNW Hk.
  unfold Periodize_call. rewrite_size_5 Hsize. cbn [rbind].
  unfold py_floordiv at 1 2.
  destruct (Z.eqb_spec k 0) as [?|_]; [lia|]. cbn [rbind].
  rewrite !Z.div_mul by lia.
  unfold tensor_new. cbn [forallb]. nonneg_leb.
  cbn [andb rbind]. rewrite Hcuda. cbn [Periodize_init p_jit negb orb].
  unfold iscomplex. rewrite_size_5 Hsize. cbn [rbind Z.eqb Pos.eqb negb].
  assert (Hsize' : size (contiguous input) = [Bt; C; NH * k; NW * k; 2])
    by exact Hsize.
  rewrite_size_5 Hsize'. cbn [rbind].
  match goal with
  | |- context [size_at ?out (-2)] =>
      match out with
      | mkTensor _ _ _ _ =>
          destruct (size_at_5 out Bt C NH NW 2 eq_refl)
            as (_ & _ & _ & _ & _ & -> & ->)
      end
  end.
  cbn [rbind].
  assert (HHW : 0 < NW * k * (NH * k)) by nia.
  unfold py_floordiv, nelement. rewrite Hsize'. cbn [size].
  destruct (Z.eqb_spec (2 * (NW * k) * (NH * k)) 0) as [?|_]; [lia|].
  destruct (Z.eqb_spec NW 0) as [?|_]; [lia|].
  destruct (Z.eqb_spec (2 * NW * NH) 0) as [?|_]; [nia|].
  cbn [rbind].
  assert (E1 : prodZ [Bt; C; NH * k; NW * k; 2] / (2 * (NW * k) * (NH * k))
               = Bt * C).
  { replace (prodZ [Bt; C; NH * k; NW * k; 2])
      with (Bt * C * (2 * (NW * k) * (NH * k)))
      by (unfold prodZ; cbn [fold_right]; ring).
    apply Z.div_mul. lia. }
  assert (E2 : prodZ [Bt; C; NH; NW; 2] / (2 * NW * NH) = Bt * C).
  { replace (prodZ [Bt; C; NH; NW; 2]) with (Bt * C * (2 * NW * NH))
      by (unfold prodZ; cbn [fold_right]; ring).
    apply Z.div_mul. nia. }
  assert (E3 : NW * k / NW = k).
  { rewrite Z.mul_comm. apply Z.div_mul. lia. }
  rewrite E1, E2, E3.
  unfold getDtype, contiguous. cbn [ttype data size].
  unfold is_cuda in Hcuda.
  destruct (ttype input); try discriminate; reflexivity.
Qed.

Lemma radix3_inj (NH NW x y z x' y' z' : Z) :
  0 <= x < NW -> 0 <= x' < NW -> 0 <= y < NH -> 0 <= y' < NH ->
  z * NH * NW + y * NW + x = z' * NH * NW + y' * NW + x' ->
  x = x' /\ y = y' /\ z = z'.
Proof.
  intros Hx Hx' Hy Hy' Heq.
  destruct (div_mod_radix (z * NH + y) NW x Hx) as [Hd Hm].
  destruct (div_mod_radix (z' * NH + y') NW x' Hx') as [Hd' Hm'].
  replace ((z * NH + y) * NW + x) with (z * NH * NW + y * NW + x) in Hd, Hm
    by ring.
  replace ((z' * NH + y') * NW + x') with (z' * NH * NW + y' * NW + x')
    in Hd', Hm' by ring.
  rewrite Heq in Hd, Hm.
  assert (Hxx : x = x') by congruence.
  assert (Hzy : z * NH + y = z' * NH + y') by congruence.
  destruct (div_mod_radix z NH y Hy) as [Hd2 Hm2].
  destruct (div_mod_radix z' NH y' Hy') as [Hd2' Hm2'].
  rewrite Hzy in Hd2, Hm2.
  repeat split; congruence.
Qed.

Lemma periodize_cell_Some (B NH NW k : Z) (input : list R) (tx ty tz q : Z)
    (v : R * R) :
  periodize_cell B NH NW k input tx ty tz = Some (q, v) ->
  tx < NW /\ ty < NH /\ tz < B /\ q = tz * NH * NW + ty * NW + tx.
Proof.
  unfold periodize_cell.
  destruct ((tx >=? NW) || (ty >=? NH) || (tz >=? B)) eqn:Hguard;
    [discriminate|].
  apply orb_false_elim in Hguard. destruct Hguard as [Hguard Hg3].
  apply orb_false_elim in Hguard. destruct Hguard as [Hg1 Hg2].
  rewrite Z.geb_leb in Hg1, Hg2, Hg3. apply Z.leb_gt in Hg1, Hg2, Hg3.
  intros Heq. inversion Heq. auto.
Qed.

Lemma periodize_cell_guard (B NH NW k : Z) (input : list R) (tx ty tz : Z) :
  tx < NW -> ty < NH -> tz < B ->
  exists v,
    periodize_cell B NH NW k input tx ty tz
      = Some (tz * NH * NW + ty * NW + tx, v) /\
    forall comp, 0 <= comp < 2 ->
      (if comp =? 0 then fst v else snd v) =
      Rdiv (Rsum (map (fun a => Rsum (map (fun b =>
              rd input (2 * (tz * (NH * k) * (NW * k) + ty * (NW * k) + tx
                             + (a * NH * (NW * k) + b * NW)) + comp))
              (range k))) (range k))) (IZR (k * k)).
Proof.
  intros Hx Hy Hz. unfold periodize_cell.
  destruct (Z.geb_spec tx NW); [lia|].
  destruct (Z.geb_spec ty NH); [lia|].
  destruct (Z.geb_spec tz B); [lia|].
  cbn [orb]. eexists. split; [reflexivity|].
  intros comp Hcomp. assert (Hc : comp = 0 \/ comp = 1) by lia.
  destruct Hc as [-> | ->]; cbn [Z.eqb fst snd]; unfold load2; cbn [fst snd].
  - f_equal. apply Rsum_map_ext. intros a _. apply Rsum_map_ext. intros b _.
    f_equal. ring.
  - reflexivity.
Qed.

Lemma GET_BLOCKS_1 (N : Z) : GET_BLOCKS N 1 = N.
Proof. unfold GET_BLOCKS. replace (N + 1 - 1) with N by lia. apply Z.div_1_r. Qed.

Lemma GET_BLOCKS_32 (N : Z) :
  N <= 32 * GET_BLOCKS N 32 < N + 32.
Proof.
  unfold GET_BLOCKS.
  pose proof (Z.div_mod (N + 32 - 1) 32 ltac:(lia)).
  pose proof (Z.mod_pos_bound (N + 32 - 1) 32 ltac:(lia)).
  lia.
Qed.

Lemma periodize_launch (B NH NW k : Z) (input out0 : list R) :
  0 < k -> 0 < NH -> 0 < NW ->
  B * (NH * k) * (NW * k) < 2 ^ 31 ->
  let grid := mkDim3 (GET_BLOCKS NH 32) (GET_BLOCKS NW 32) (GET_BLOCKS B 1) in
  let block := mkDim3 32 32 1 in
  run_grid grid block (periodize_kernel B (NH * k) (NW * k) k input) out0 =
    run_stores (periodize_store B NH NW k input block)
               (launch_threads grid block) out0.
Proof.
  intros Hk HNH HNW Hfit grid block.
  apply run_grid_run_stores. intros [b t] m Hin.
  apply in_launch_threads in Hin. destruct Hin as [Hb Ht].
  apply in_dim3_range in Hb, Ht. unfold grid, block in Hb, Ht.
  cbn [d_x d_y d_z] in Hb, Ht. rewrite GET_BLOCKS_1 in Hb.
  cbn [fst snd]. unfold periodize_store. cbn [fst snd].
  pose proof (GET_BLOCKS_32 NH) as HgH. pose proof (GET_BLOCKS_32 NW) as HgW.
  assert (HB : 0 < B) by lia.
  destruct (periodize_dims NH NW k _ _ Hk HNH HNW eq_refl eq_refl)
    as (H1 & H2 & _).
  pose proof (le_mul3 1 (NH * k) 1 B (NH * k) (NW * k)
                ltac:(lia) ltac:(lia) ltac:(lia)).
  pose proof (le_mul3 1 1 (NW * k) B (NH * k) (NW * k)
                ltac:(lia) ltac:(lia) ltac:(lia)).
  assert (H31 : 2 ^ 31 = 2147483648) by reflexivity.
  apply periodize_kernel_thread; try assumption; unfold block;
    cbn [d_x d_y d_z]; lia.
Qed.

Lemma periodize_launch_config (B NH NW : Z) :
  0 < NH < 2 ^ 31 -> 0 < NW ->
  GET_BLOCKS NW 32 <= 65535 ->
  0 < B <= 65535 ->
  launch_config_ok
    (mkDim3 (GET_BLOCKS NH 32) (GET_BLOCKS NW 32) (GET_BLOCKS B 1))
    (mkDim3 32 32 1) = true.
Proof.
  intros HNH HNW Hy HB. unfold launch_config_ok. cbn [d_x d_y d_z].
  rewrite GET_BLOCKS_1.
  pose proof (GET_BLOCKS_32 NH) as HgH. pose proof (GET_BLOCKS_32 NW) as HgW.
  change (2 ^ 31) with 2147483648 in *.
  repeat (apply andb_true_intro; split);
    first [ apply Z.ltb_lt; lia | apply Z.leb_le; lia ].
Qed.

Lemma Periodize_fast_cells (junk : Z -> R) (input : Tensor)
    (Bt C H W k : Z) :
  size input = [Bt; C; H; W; 2] ->
  is_cuda input = true ->
  0 <= Bt -> 0 <= C -> 0 < H -> 0 < W -> 0 < k ->
  (k | H) -> (k | W) ->
  Bt * C * H * W < 2 ^ 31 ->
  0 < Bt * C <= 65535 ->
  GET_BLOCKS (W / k) 32 <= 65535 ->
  exists out,
    Periodize_call (Periodize_init true) junk input k = Ok out /\
    size out = [Bt; C; H / k; W / k; 2] /\
    forall bi ci i j comp,
      0 <= bi < Bt -> 0 <= ci < C -> 0 <= i < H / k -> 0 <= j < W / k ->
      0 <= comp < 2 ->
      elem out [bi; ci; i; j; comp] =
        if (j <? 32 * GET_BLOCKS (H / k) 32) && (i <? 32 * GET_BLOCKS (W / k) 32)
        then folded_mean input H W k bi ci i j comp
        else junk (flat_index [Bt; C; H / k; W / k; 2] [bi; ci; i; j; comp] 0).
Proof.
  intros Hsize Hcuda HB HC HH HW Hk [NH ->] [NW ->] Hfit Hgz Hgy.
  assert (HNH : 0 < NH) by nia. assert (HNW : 0 < NW) by nia.
  rewrite (Periodize_fast_ok junk input Bt C NH NW k) by assumption.
  rewrite !Z.div_mul in * by lia.
  assert (HNHfit : NH < 2 ^ 31).
  { assert (H1 : NH <= NH * k) by nia.
    assert (H2 : 1 <= NW * k) by nia.
    pose proof (le_mul3 1 NH 1 (Bt * C) (NH * k) (NW * k)
                  ltac:(lia) ltac:(lia) ltac:(lia)).
    lia. }
  unfold cuda_launch.
  rewrite periodize_launch_config by lia. cbn [rbind].
  eexists. split; [reflexivity|]. split; [reflexivity|].
  intros bi ci i j comp Hbi Hci Hi Hj Hcomp.
  unfold elem. cbn [size data flat_index].
  rewrite periodize_launch by assumption.
  set (tz := bi * C + ci).
  assert (Htz : 0 <= tz < Bt * C) by (apply radix_bound; lia).
  set (p := tz * NH * NW + i * NW + j).
  assert (Hp : 0 <= p < Bt * C * NH * NW) by (apply radix3_bound; lia).
  replace (((((0 * Bt + bi) * C + ci) * NH + i) * NW + j) * 2 + comp)
    with (2 * p + comp) by (unfold p, tz; ring).
  set (out0 := map junk (range (prodZ [Bt; C; NH; NW; 2]))).
  assert (Hlen : Z.of_nat (length out0) = 2 * (Bt * C * NH * NW)).
  { unfold out0. rewrite length_map, length_range.
    unfold prodZ. cbn [fold_right]. lia. }
  set (ths := launch_threads _ _).
  set (st := periodize_store _ _ _ _ _ _).
  assert (Hrd : rd (run_stores st ths out0) (2 * p + comp) =
                if comp =? 0 then fst (load2 (run_stores st ths out0) p)
                else snd (load2 (run_stores st ths out0) p)).
  { unfold load2. cbn [fst snd].
    assert (Hc : comp = 0 \/ comp = 1) by lia.
    destruct Hc as [-> | ->]; cbn [Z.eqb]; [f_equal; lia | reflexivity]. }
  rewrite Hrd. clear Hrd.
  assert (Hcoord : forall b t, In (b, t) ths ->
            0 <= d_x b * 32 + d_x t < 32 * GET_BLOCKS NH 32 /\
            0 <= d_y b * 32 + d_y t < 32 * GET_BLOCKS NW 32 /\
            0 <= d_z b * 1 + d_z t).
  { intros b t Hin. apply in_launch_threads in Hin. destruct Hin as [Hb Ht].
    apply in_dim3_range in Hb, Ht. cbn [d_x d_y d_z] in Hb, Ht. lia. }
  destruct ((j <? 32 * GET_BLOCKS NH 32) && (i <? 32 * GET_BLOCKS NW 32))
    eqn:Hcov.
  - apply andb_prop in Hcov. destruct Hcov as [Hcj Hci'].
    apply Z.ltb_lt in Hcj, Hci'.
    destruct (periodize_cell_guard (Bt * C) NH NW k (data input) j i tz)
      as [v [Hcell Hval]]; [lia | lia | lia |].
    rewrite (run_stores_written st ths out0 p v).
    + rewrite (Hval comp Hcomp). unfold folded_mean, elem.
      rewrite Hsize. cbn [flat_index]. rewrite !Z.div_mul by lia.
      f_equal. apply Rsum_map_ext. intros a _. apply Rsum_map_ext.
      intros b _. f_equal. unfold tz. ring.
    + lia.
    + lia.
    + exists (mkDim3 (j / 32) (i / 32) tz, mkDim3 (j mod 32) (i mod 32) 0).
      split.
      * apply in_launch_threads. split; apply in_dim3_range;
          cbn [d_x d_y d_z]; rewrite ?GET_BLOCKS_1.
        -- pose proof (Z.div_mod j 32 ltac:(lia)).
           pose proof (Z.mod_pos_bound j 32 ltac:(lia)).
           pose proof (Z.div_mod i 32 ltac:(lia)).
           pose proof (Z.mod_pos_bound i 32 ltac:(lia)).
           lia.
        -- pose proof (Z.mod_pos_bound j 32 ltac:(lia)).
           pose proof (Z.mod_pos_bound i 32 ltac:(lia)).
           lia.
      * unfold st, periodize_store. cbn [fst snd d_x d_y d_z].
        replace (j / 32 * 32 + j mod 32) with j
          by (pose proof (Z.div_mod j 32 ltac:(lia)); lia).
        replace (i / 32 * 32 + i mod 32) with i
          by (pose proof (Z.div_mod i 32 ltac:(lia)); lia).
        replace (tz * 1 + 0) with tz by lia.
        exact Hcell.
    + intros [b t] v' Hin Hst.
      destruct (Hcoord b t Hin) as (Hx & Hy & Hz).
      unfold st, periodize_store in Hst. cbn [fst snd d_x d_y d_z] in Hst.
      pose proof (periodize_cell_Some _ _ _ _ _ _ _ _ _ _ Hst)
        as (Hx' & Hy' & Hz' & Hq).
      unfold p in Hq.
      destruct (radix3_inj NH NW j i tz (d_x b * 32 + d_x t)
                  (d_y b * 32 + d_y t) (d_z b * 1 + d_z t)
                  ltac:(lia) ltac:(lia) ltac:(lia) ltac:(lia) Hq)
        as (Ex & Ey & Ez).
      rewrite <- Ex, <- Ey, <- Ez in Hst. fold p in Hst. congruence.
  - rewrite run_stores_untouched.
    + unfold load2, out0. cbn [fst snd].
      assert (HN : prodZ [Bt; C; NH; NW; 2] = 2 * (Bt * C * NH * NW))
        by (unfold prodZ; cbn [fold_right]; ring).
      rewrite HN. assert (Hc : comp = 0 \/ comp = 1) by lia.
      destruct Hc as [-> | ->]; cbn [Z.eqb].
      * rewrite rd_map_range by lia. f_equal. lia.
      * rewrite rd_map_range by lia. reflexivity.
    + intros [b t] q v Hin Hst Hq. subst q.
      destruct (Hcoord b t Hin) as (Hx & Hy & Hz).
      unfold st, periodize_store in Hst. cbn [fst snd d_x d_y d_z] in Hst.
      pose proof (periodize_cell_Some _ _ _ _ _ _ _ _ _ _ Hst)
        as (Hx' & Hy' & Hz' & Hq).
      unfold p in Hq.
      destruct (radix3_inj NH NW j i tz (d_x b * 32 + d_x t)
                  (d_y b * 32 + d_y t) (d_z b * 1 + d_z t)
                  ltac:(lia) ltac:(lia) ltac:(lia) ltac:(lia) Hq)
        as (Ex & Ey & Ez).
      apply andb_false_iff in Hcov.
      destruct Hcov as [Hcov|Hcov]; apply Z.ltb_ge in Hcov; lia.
Qed.

Lemma folded_mean_ones_1x33 :
  folded_mean ones_1x33 1 33 1 0 0 0 32 0 = 1%R.
Proof.
  unfold folded_mean, elem. cbn [size data ones_1x33].
  change (range 1) with [0]. cbn [map Rsum fold_right].
  change (flat_index [1; 1; 1; 33; 2] [0; 0; 0 + 0 * (1 / 1); 32 + 0 * (33 / 1); 0] 0)
    with 64.
  rewrite rd_map_range by lia.
  change (IZR (1 * 1)) with 1%R. field.
Qed.

(** C1. On the kernel path the launch grid is sized from the output height
    along x and from the output width along y, while the kernel reads x as
    the column index. For the input [ones_1x33] and [k = 1] the only block
    row along x covers the columns 0 to 31: the output element of column 32
    is never written and keeps the contents of the fresh output buffer,
    whereas its folded mean is 1. *)
Theorem Periodize_kernel_path_leaves_cell_unwritten (junk : Z -> R) :
  exists out,
    Periodize_call (Periodize_init true) junk ones_1x33 1 = Ok out /\
    size out = [1; 1; 1; 33; 2] /\
    elem out [0; 0; 0; 32; 0] = junk 64 /\
    elem out [0; 0; 0; 32; 1] = junk 65 /\
    folded_mean ones_1x33 1 33 1 0 0 0 32 0 = 1%R.
Proof.
  destruct (Periodize_fast_cells junk ones_1x33 1 1 1 33 1)
    as [out [Hcall [Hsize Hel]]];
    try reflexivity; try lia; try (exists 1; reflexivity);
    try (exists 33; reflexivity); try (vm_compute; discriminate).
  exists out. split; [exact Hcall|]. split; [exact Hsize|].
  split; [|split; [|exact folded_mean_ones_1x33]].
  - rewrite Hel by (vm_compute; intuition congruence). reflexivity.
  - rewrite Hel by (vm_compute; intuition congruence). reflexivity.
Qed.

(** C6. For the input [ones_1x33] and [k = 1], with the fresh output buffer
    holding zeros, the portable path returns 1 at column 32 and the kernel
    path returns 0 there: the two paths disagree. *)
Theorem Periodize_paths_disagree :
  exists portable fast,
    Periodize_call (Periodize_init false) (fun _ => 0%R) ones_1x33 1
      = Ok portable /\
    Periodize_call (Periodize_init true) (fun _ => 0%R) ones_1x33 1
      = Ok fast /\
    elem portable [0; 0; 0; 32; 0] = 1%R /\
    elem fast [0; 0; 0; 32; 0] = 0%R.
Proof.
  destruct (Periodize_portable_folded_mean (Periodize_init false)
              (fun _ => 0%R) ones_1x33 1 1 1 33 1)
    as [o1 [Hcall1 [_ Hel1]]];
    try reflexivity; try lia; try (exists 1; reflexivity);
    try (exists 33; reflexivity).
  destruct (Periodize_fast_cells (fun _ => 0%R) ones_1x33 1 1 1 33 1)
    as [o2 [Hcall2 [_ Hel2]]];
    try reflexivity; try lia; try (exists 1; reflexivity);
    try (exists 33; reflexivity); try (vm_compute; discriminate).
  exists o1, o2. split; [exact Hcall1|]. split; [exact Hcall2|]. split.
  - rewrite Hel1 by (vm_compute; intuition congruence).
    exact folded_mean_ones_1x33.
  - rewrite Hel2 by (vm_compute; intuition congruence). reflexivity.
Qed.


(** ** Modulus *)

Lemma size_at_last (t : Tensor) (lead : list Z) (L : Z) :
  size t = lead ++ [L] -> size_at t (-1) = Ok L.
Proof.
  intros Hs. unfold size_at, ndimension. rewrite Hs, length_app.
  cbn [length]. cbn [Z.ltb Z.compare].
  replace (-1 + Z.of_nat (length lead + 1)) with (Z.of_nat (length lead))
    by lia.
  destruct (Z.ltb_spec (Z.of_nat (length lead)) 0); [lia|].
  destruct (Z.leb_spec (Z.of_nat (length lead + 1)) (Z.of_nat (length lead)));
    [lia|].
  cbn [orb]. rewrite Nat2Z.id, app_nth2, Nat.sub_diag by lia. reflexivity.
Qed.

Lemma rd_app_l (l1 l2 : list R) (i : Z) :
  0 <= i < Z.of_nat (length l1) -> rd (l1 ++ l2) i = rd l1 i.
Proof.
  intros Hi. unfold rd. destruct (Z.ltb_spec i 0); [lia|].
  apply app_nth1. lia.
Qed.

Lemma rd_app_r (l1 l2 : list R) (i : Z) :
  Z.of_nat (length l1) <= i ->
  rd (l1 ++ l2) i = rd l2 (i - Z.of_nat (length l1)).
Proof.
  intros Hi. unfold rd. destruct (Z.ltb_spec i 0); [lia|].
  destruct (Z.ltb_spec (i - Z.of_nat (length l1)) 0); [lia|].
  rewrite app_nth2 by lia. f_equal. lia.
Qed.

Lemma length_flat_map_pairs (f g : Z -> R) (n : Z) :
  0 <= n ->
  Z.of_nat (length (flat_map (fun p => [f p; g p]) (range n))) = 2 * n.
Proof.
  intros Hn. pattern n. apply natlike_ind; [reflexivity| |assumption].
  intros m Hm IH. unfold Z.succ. rewrite range_succ by assumption.
  rewrite flat_map_app, length_app. cbn [flat_map length app]. lia.
Qed.

Lemma rd_flat_map_pairs (f g : Z -> R) (n q : Z) :
  0 <= q < n ->
  rd (flat_map (fun p => [f p; g p]) (range n)) (2 * q) = f q /\
  rd (flat_map (fun p => [f p; g p]) (range n)) (2 * q + 1) = g q.
Proof.
  intros Hq. assert (Hn : 0 <= n) by lia. revert q Hq. pattern n.
  apply natlike_ind; [intros q Hq; lia| |assumption].
  intros m Hm IH q Hq. unfold Z.succ. rewrite range_succ by assumption.
  rewrite flat_map_app. cbn [flat_map app].
  pose proof (length_flat_map_pairs f g m Hm) as Hlen.
  destruct (Z.eq_dec q m) as [->|Hne].
  - rewrite !rd_app_r by lia. rewrite Hlen.
    replace (2 * m - 2 * m) with 0 by lia.
    replace (2 * m + 1 - 2 * m) with 1 by lia. split; reflexivity.
  - rewrite !rd_app_l by lia. apply IH. lia.
Qed.

Lemma norm_at_2 (m : list R) (off : Z) :
  norm_at m off 2 =
    sqrt (rd m off * rd m off + rd m (off + 1) * rd m (off + 1)).
Proof.
  unfold norm_at. change (range 2) with [0; 1]. cbn [map Rsum fold_right].
  rewrite Z.add_0_r. f_equal. ring.
Qed.

Lemma flat_map_ext_in {A B : Type} (f g : A -> list B) (l : list A) :
  (forall a, In a l -> f a = g a) -> flat_map f l = flat_map g l.
Proof.
  induction l as [|x l IH]; intros Hfg; simpl; [reflexivity|].
  rewrite Hfg by now left. f_equal. apply IH. intros a Ha. apply Hfg.
  now right.
Qed.

Lemma rd_zeros {A : Type} (l : list A) (i : Z) :
  rd (map (fun _ => 0%R) l) i = 0%R.
Proof.
  unfold rd. destruct (i <? 0); [reflexivity|].
  generalize (Z.to_nat i) as n. induction l as [|x l IH]; intros [|n]; simpl;
    auto.
Qed.

Lemma Modulus_portable_ok (self : Modulus) (junk : Z -> R) (input : Tensor)
    (lead : list Z) (L : Z) :
  size input = lead ++ [L] ->
  Forall (fun d => 0 <= d) lead ->
  negb (m_jit self) || negb (is_cuda input) = true ->
  Modulus_call self junk input =
    Ok (mkTensor (ttype input) (lead ++ [2])
          (flat_map (fun p => [norm_at (data input) (p * L) L; 0%R])
                    (range (prodZ lead)))
          true).
Proof.
  intros Hsize Hlead Hpath. unfold Modulus_call. rewrite Hpath.
  unfold norm_last. rewrite (size_at_last input lead L Hsize). cbn [rbind].
  rewrite Hsize, removelast_last.
  unfold tensor_new. cbn [size].
  assert (Hnn : forallb (fun d => 0 <=? d) (lead ++ [1]) = true).
  { apply forallb_forall. intros d Hd. apply in_app_or in Hd.
    destruct Hd as [Hd|[<-|[]]]; [|reflexivity].
    apply Z.leb_le. rewrite Forall_forall in Hlead. apply Hlead.
    now apply list_elem_of_In. }
  rewrite Hnn. cbn [rbind].
  unfold cat_last.
  rewrite (size_at_last _ lead 1) by reflexivity. cbn [rbind].
  rewrite (size_at_last (zero_ _) lead 1) by reflexivity. cbn [rbind].
  cbn [size zero_]. rewrite removelast_last.
  unfold list_Z_eqb. rewrite bool_decide_eq_true_2 by reflexivity.
  cbn [negb ttype data]. change (1 + 1) with 2. change (range 1) with [0].
  cbn [map app]. f_equal. f_equal.
  apply flat_map_ext_in. intros p Hp. apply in_range in Hp.
  rewrite !Z.mul_1_r, !Z.add_0_r. rewrite rd_map_range by assumption.
  cbn [zero_ data]. rewrite rd_zeros. reflexivity.
Qed.

(** The out-of-bounds guard of the kernel [abs_complex_value] and its single
    store, for a thread index that fits in an [int]. *)
Lemma abs_complex_value_thread (x : list R) (n : Z)
    (blockIdx blockDim threadIdx : dim3) (z : list R) :
  let i := d_x blockIdx * d_x blockDim + d_x threadIdx in
  0 <= i < 2 ^ 31 -> 0 <= n < 2 ^ 30 ->
  abs_complex_value x n blockIdx blockDim threadIdx z =
    apply_store (if i >=? n then None
                 else Some (i, (norm_at x (2 * i) 2, 0%R))) z.
Proof.
  intros i Hi Hn. unfold abs_complex_value. fold i. clearbody i.
  rewrite (int32_small i) by lia.
  destruct (Z.geb_spec i n); [reflexivity|].
  rewrite imul_small by lia. reflexivity.
Qed.

Lemma prodZ_app (a b : list Z) : prodZ (a ++ b) = prodZ a * prodZ b.
Proof.
  unfold prodZ. induction a as [|x a IH]; simpl.
  - destruct (fold_right Z.mul 1 b); reflexivity.
  - rewrite IH. ring.
Qed.

Lemma prodZ_nonneg (s : list Z) :
  Forall (fun d => 0 <= d) s -> 0 <= prodZ s.
Proof.
  unfold prodZ. induction 1 as [|x s Hx Hs IH]; simpl; [lia|].
  apply Z.mul_nonneg_nonneg; assumption.
Qed.

Lemma forallb_nonneg (s : list Z) :
  Forall (fun d => 0 <= d) s -> forallb (fun d => 0 <=? d) s = true.
Proof.
  intros Hs. apply forallb_forall. intros d Hd. apply Z.leb_le.
  rewrite Forall_forall in Hs. apply Hs. now apply list_elem_of_In.
Qed.

Lemma Modulus_fast_ok (junk : Z -> R) (input : Tensor) (lead : list Z) :
  size input = lead ++ [2] ->
  Forall (fun d => 0 <= d) lead ->
  ttype input = CudaFloatTensor ->
  Modulus_call (Modulus_init true) junk input =
    (let* written :=
       cuda_launch
         (mkDim3 (Modulus_GET_BLOCKS (Modulus_init true) (prodZ lead)) 1 1)
         (mkDim3 1024 1 1)
         (abs_complex_value (data input) (int32 (prodZ lead)))
         (map junk (range (prodZ (lead ++ [2])))) in
     Ok (mkTensor (ttype input) (lead ++ [2]) written true)).
Proof.
  intros Hsize Hlead Hty.
  assert (Hcuda : is_cuda input = true) by (unfold is_cuda; now rewrite Hty).
  unfold Modulus_call. rewrite Hcuda.
  cbn [Modulus_init m_jit negb orb]. unfold tensor_new. rewrite Hsize.
  rewrite forallb_nonneg.
  2:{ apply Forall_app. split; [assumption|]. constructor; [lia|constructor]. }
  cbn [rbind]. unfold iscomplex.
  rewrite (size_at_last (contiguous input) lead 2) by exact Hsize.
  cbn [rbind Z.eqb Pos.eqb negb].
  unfold nelement. cbn [size ttype data CUDA_NUM_THREADS].
  replace (prodZ (lead ++ [2]) / 2) with (prodZ lead).
  2:{ rewrite prodZ_app. change (prodZ [2]) with 2.
      symmetry. apply Z.div_mul. lia. }
  unfold getDtype, contiguous. cbn [ttype data].
  rewrite Hty. reflexivity.
Qed.

Lemma Modulus_GET_BLOCKS_1024 (N : Z) :
  N <= 1024 * Modulus_GET_BLOCKS (Modulus_init true) N < N + 1024.
Proof.
  unfold Modulus_GET_BLOCKS. cbn [Modulus_init CUDA_NUM_THREADS].
  pose proof (Z.div_mod (N + 1024 - 1) 1024 ltac:(lia)).
  pose proof (Z.mod_pos_bound (N + 1024 - 1) 1024 ltac:(lia)).
  lia.
Qed.

Lemma modulus_launch (x out0 : list R) (n : Z) :
  0 <= n < 2 ^ 30 ->
  let grid := mkDim3 (Modulus_GET_BLOCKS (Modulus_init true) n) 1 1 in
  let block := mkDim3 1024 1 1 in
  run_grid grid block (abs_complex_value x (int32 n)) out0 =
    run_stores (modulus_store x n block) (launch_threads grid block) out0.
Proof.
  intros Hn grid block.
  apply run_grid_run_stores. intros [b t] m Hin.
  apply in_launch_threads in Hin. destruct Hin as [Hb Ht].
  apply in_dim3_range in Hb, Ht. unfold grid, block in Hb, Ht.
  cbn [d_x d_y d_z] in Hb, Ht.
  pose proof (Modulus_GET_BLOCKS_1024 n) as Hg.
  assert (H30 : 2 ^ 30 = 1073741824) by reflexivity.
  assert (H31 : 2 ^ 31 = 2147483648) by reflexivity.
  rewrite (int32_small n) by lia.
  cbn [fst snd]. unfold modulus_store. cbn [fst snd].
  apply abs_complex_value_thread; unfold block; cbn [d_x]; lia.
Qed.

Lemma Modulus_fast_cells (x out0 : list R) (n q : Z) :
  0 <= n < 2 ^ 30 -> 0 <= q < n ->
  2 * n <= Z.of_nat (length out0) ->
  load2 (run_grid
           (mkDim3 (Modulus_GET_BLOCKS (Modulus_init true) n) 1 1)
           (mkDim3 1024 1 1)
           (abs_complex_value x (int32 n)) out0) q
    = (norm_at x (2 * q) 2, 0%R).
Proof.
  intros Hn Hq Hlen. rewrite modulus_launch by assumption.
  pose proof (Modulus_GET_BLOCKS_1024 n) as Hg.
  apply run_stores_written; [lia | lia | |].
  - exists (mkDim3 (q / 1024) 0 0, mkDim3 (q mod 1024) 0 0).
    pose proof (Z.div_mod q 1024 ltac:(lia)).
    pose proof (Z.mod_pos_bound q 1024 ltac:(lia)).
    split.
    + apply in_launch_threads. split; apply in_dim3_range;
        cbn [d_x d_y d_z]; lia.
    + unfold modulus_store. cbn [fst snd d_x].
      replace (q / 1024 * 1024 + q mod 1024) with q by lia.
      destruct (Z.geb_spec q n); [lia|reflexivity].
  - intros [b t] v' _ Hst. unfold modulus_store in Hst.
    cbn [fst snd d_x] in Hst.
    destruct (Z.geb_spec (d_x b * 1024 + d_x t) n); [discriminate|].
    inversion Hst. reflexivity.
Qed.

Lemma modulus_launch_config (n : Z) :
  0 < n < 2 ^ 30 ->
  launch_config_ok
    (mkDim3 (Modulus_GET_BLOCKS (Modulus_init true) n) 1 1)
    (mkDim3 1024 1 1) = true.
Proof.
  intros Hn. unfold launch_config_ok. cbn [d_x d_y d_z].
  pose proof (Modulus_GET_BLOCKS_1024 n) as Hg.
  change (2 ^ 30) with 1073741824 in *. change (2 ^ 31) with 2147483648.
  repeat (apply andb_true_intro; split);
    first [ apply Z.ltb_lt; lia | apply Z.leb_le; lia ].
Qed.

(** What [Modulus] returns where it returns: on the portable path for
    every class of tensors, on the kernel path for a device-resident float
    tensor that is not empty and whose scalars the kernel's [int] can
    index. *)
Lemma Modulus_call_cells (jit : bool) (junk : Z -> R) (input : Tensor)
    (lead : list Z) :
  size input = lead ++ [2] ->
  Forall (fun d => 0 <= d) lead ->
  (jit && is_cuda input = true ->
   ttype input = CudaFloatTensor /\ 0 < prodZ lead /\
   nelement input < 2 ^ 31) ->
  exists out,
    Modulus_call (Modulus_init jit) junk input = Ok out /\
    size out = lead ++ [2] /\
    ttype out = ttype input /\
    forall q, 0 <= q < prodZ lead ->
      rd (data out) (2 * q) =
        sqrt (rd (data input) (2 * q) * rd (data input) (2 * q)
              + rd (data input) (2 * q + 1) * rd (data input) (2 * q + 1)) /\
      rd (data out) (2 * q + 1) = 0%R.
Proof.
  intros Hsize Hlead Hfit.
  destruct (jit && is_cuda input) eqn:Hpath.
  - apply andb_prop in Hpath. destruct Hpath as [-> Hcuda].
    destruct (Hfit eq_refl) as (Hty & Hpos & Hfit').
    rewrite (Modulus_fast_ok junk input lead Hsize Hlead Hty).
    unfold nelement in Hfit'.
    rewrite Hsize, prodZ_app in Hfit'. change (prodZ [2]) with 2 in Hfit'.
    assert (H30 : 2 ^ 30 = 1073741824) by reflexivity.
    assert (H31 : 2 ^ 31 = 2147483648) by reflexivity.
    unfold cuda_launch. rewrite modulus_launch_config by lia. cbn [rbind].
    eexists. split; [reflexivity|]. split; [reflexivity|].
    split; [reflexivity|].
    intros q Hq. cbn [data].
    assert (Hlen : 2 * prodZ lead <=
              Z.of_nat (length (map junk (range (prodZ (lead ++ [2])))))).
    { rewrite length_map, length_range, prodZ_app.
      change (prodZ [2]) with 2. lia. }
    pose proof (Modulus_fast_cells (data input)
                  (map junk (range (prodZ (lead ++ [2])))) (prodZ lead) q
                  ltac:(lia) Hq Hlen) as Hcell.
    unfold load2 in Hcell. inversion Hcell as [[Hre Him]].
    rewrite Hre, Him. split; [|reflexivity]. apply norm_at_2.
  - rewrite (Modulus_portable_ok (Modulus_init jit) junk input lead 2)
      by (try assumption; cbn [Modulus_init m_jit];
          destruct jit, (is_cuda input); try reflexivity; discriminate).
    eexists. split; [reflexivity|]. split; [reflexivity|].
    split; [reflexivity|].
    intros q Hq. cbn [data].
    destruct (rd_flat_map_pairs
                (fun p => norm_at (data input) (p * 2) 2) (fun _ => 0%R)
                (prodZ lead) q Hq) as [Hre Him].
    rewrite Hre, Him. split; [|reflexivity].
    rewrite norm_at_2. rewrite (Z.mul_comm q 2). reflexivity.
Qed.

(** C4. The kernel [abs_complex_value] takes its pointer types from
    [Dtype] and calls the single-precision [normf] whatever [Dtype] is. For
    the device-resident double tensor [cuda_double_3_4i], which is complex,
    the kernel path cannot compile its kernel and raises, whereas the
    portable path returns the modulus, [(5, 0)], for the same tensor. *)
Theorem Modulus_kernel_path_rejects_double (junk : Z -> R) :
  iscomplex cuda_double_3_4i = Ok true /\
  Modulus_call (Modulus_init true) junk cuda_double_3_4i
    = Raise (CompileException "kernel compilation failed") /\
  Modulus_call (Modulus_init false) junk cuda_double_3_4i
    = Ok (mkTensor CudaDoubleTensor [1; 2]
            [sqrt (3 * 3 + (4 * 4 + 0)); 0%R] true).
Proof.
  split; [reflexivity|]. split; [reflexivity|].
  rewrite (Modulus_portable_ok (Modulus_init false) junk cuda_double_3_4i
             [1] 2); reflexivity || (repeat constructor; lia).
Qed.

(** C5. [Modulus] tests [iscomplex] only on the kernel path. On the portable
    path the host tensor [triple_1x3], whose trailing axis has length 3, is
    accepted: the call raises nothing and returns a tensor of shape
    [(1, 2)] holding the norm of the three scalars and a zero. *)
Theorem Modulus_portable_accepts_non_complex (jit : bool) (junk : Z -> R) :
  size_at triple_1x3 (-1) = Ok 3 /\
  Modulus_call (Modulus_init jit) junk triple_1x3 =
    Ok (mkTensor FloatTensor [1; 2]
          [sqrt (3 * 3 + (4 * 4 + (0 * 0 + 0))); 0%R] true).
Proof.
  split; [reflexivity|].
  rewrite (Modulus_portable_ok (Modulus_init jit) junk triple_1x3 [1] 3).
  - reflexivity.
  - reflexivity.
  - repeat constructor; lia.
  - cbn [Modulus_init m_jit is_cuda triple_1x3 ttype negb].
    apply orb_true_r.
Qed.

(** On the portable path [Periodize] does not test [iscomplex] either: for a
    host tensor of shape [(1, 1, 1, 1, 3)] the error comes from the reshape
    and is a [RuntimeError]. *)
Lemma Periodize_portable_non_complex (jit : bool) (junk : Z -> R)
    (a b c : R) :
  Periodize_call (Periodize_init jit) junk
    (mkTensor FloatTensor [1; 1; 1; 1; 3] [a; b; c] true) 1
  = Raise (RuntimeError "size mismatch").
Proof. destruct jit; reflexivity. Qed.


(** ** Fft *)

Section FftProperties.

Variable torch_ifft : Tensor -> Z -> bool -> Result Tensor.
Variable torch_irfft : Tensor -> Z -> bool -> bool -> list Z -> Result Tensor.

(** C2. In ['C2C'] mode both branches of the test on [inverse] call
    [torch.ifft] with the same arguments: the forward mode issues the
    inverse transform, so a forward call followed by an inverse call
    applies the inverse transform twice. *)
Theorem Fft_C2C_forward_is_inverse (input : Tensor) :
  Fft_call torch_ifft torch_irfft input "C2C" false =
    Fft_call torch_ifft torch_irfft input "C2C" true.
Proof.
  unfold Fft_call. cbn [String.eqb Ascii.eqb Bool.eqb].
  destruct (iscomplex input) as [[|]|e]; try reflexivity.
Qed.

Lemma Fft_C2C_calls_ifft (input : Tensor) (inverse : bool) :
  iscomplex input = Ok true ->
  is_contiguous input = true ->
  Fft_call torch_ifft torch_irfft input "C2C" inverse =
    ([call_ifft input 2 false], rmap OutTensor (torch_ifft input 2 false)).
Proof.
  intros Hc Hk. unfold Fft_call. rewrite Hc, Hk.
  cbn [String.eqb Ascii.eqb Bool.eqb negb]. destruct inverse; reflexivity.
Qed.

(** C10. For a complex, contiguous input and a direction that is neither
    ['C2C'] nor ['C2R'], the wrapper raises nothing, calls no transform
    of the runtime and returns the empty list. *)
Theorem Fft_unknown_direction (input : Tensor) (direction : string)
    (inverse : bool) :
  iscomplex input = Ok true ->
  is_contiguous input = true ->
  direction <> "C2C"%string ->
  direction <> "C2R"%string ->
  Fft_call torch_ifft torch_irfft input direction inverse =
    ([], Ok EmptyList).
Proof.
  intros Hc Hk H1 H2. unfold Fft_call. rewrite Hc, Hk. cbn [negb].
  destruct (String.eqb_spec direction "C2R"); [contradiction|].
  destruct (String.eqb_spec direction "C2C"); [contradiction|].
  reflexivity.
Qed.

End FftProperties.

Lemma Fft_unknown_direction_witness :
  iscomplex complex_3_4i = Ok true /\
  is_contiguous complex_3_4i = true /\
  "R2C"%string <> "C2C"%string /\
  "R2C"%string <> "C2R"%string /\
  Fft_call (fun t _ _ => Ok t) (fun t _ _ _ _ => Ok t) complex_3_4i "R2C" false
    = ([], Ok EmptyList).
Proof.
  split; [reflexivity|]. split; [reflexivity|].
  split; [discriminate|]. split; [discriminate|].
  apply (Fft_unknown_direction (fun t _ _ => Ok t) (fun t _ _ _ _ => Ok t)
           complex_3_4i "R2C" false).
  - reflexivity.
  - reflexivity.
  - discriminate.
  - discriminate.
Defined.

(** ** cdgmm *)

Lemma lastn_app_3 {A : Type} (l : list A) (a b c : A) :
  lastn 3 (l ++ [a; b; c]) = [a; b; c].
Proof.
  unfold lastn. rewrite length_app. cbn [length].
  replace (length l + 3 - 3)%nat with (length l + 0)%nat by lia.
  rewrite skipn_app, Nat.add_0_r, skipn_all, Nat.sub_diag. reflexivity.
Qed.

Lemma size_at_last3 (t : Tensor) (lead : list Z) (a b c : Z) :
  size t = lead ++ [a; b; c] ->
  size_at t (-1) = Ok c /\ size_at t (-2) = Ok b /\ size_at t (-3) = Ok a.
Proof.
  intros Hs. unfold size_at, ndimension. rewrite Hs, length_app.
  cbn [length]. cbn [Z.ltb Z.compare].
  repeat split.
  - replace (-1 + Z.of_nat (length lead + 3))
      with (Z.of_nat (length lead + 2)) by lia.
    destruct (Z.ltb_spec (Z.of_nat (length lead + 2)) 0); [lia|].
    destruct (Z.leb_spec (Z.of_nat (length lead + 3))
                         (Z.of_nat (length lead + 2))); [lia|].
    cbn [orb]. rewrite Nat2Z.id, app_nth2 by lia.
    replace (length lead + 2 - length lead)%nat with 2%nat by lia.
    reflexivity.
  - replace (-2 + Z.of_nat (length lead + 3))
      with (Z.of_nat (length lead + 1)) by lia.
    destruct (Z.ltb_spec (Z.of_nat (length lead + 1)) 0); [lia|].
    destruct (Z.leb_spec (Z.of_nat (length lead + 3))
                         (Z.of_nat (length lead + 1))); [lia|].
    cbn [orb]. rewrite Nat2Z.id, app_nth2 by lia.
    replace (length lead + 1 - length lead)%nat with 1%nat by lia.
    reflexivity.
  - replace (-3 + Z.of_nat (length lead + 3))
      with (Z.of_nat (length lead + 0)) by lia.
    destruct (Z.ltb_spec (Z.of_nat (length lead + 0)) 0); [lia|].
    destruct (Z.leb_spec (Z.of_nat (length lead + 3))
                         (Z.of_nat (length lead + 0))); [lia|].
    cbn [orb]. rewrite Nat2Z.id, app_nth2 by lia.
    replace (length lead + 0 - length lead)%nat with 0%nat by lia.
    reflexivity.
Qed.

Lemma select_last_ok (t : Tensor) (lead : list Z) (L c : Z) :
  size t = lead ++ [L] -> 0 <= c < L ->
  select_last t c =
    Ok (mkTensor (ttype t) lead
          (map (fun p => rd (data t) (p * L + c)) (range (prodZ lead)))
          (L =? 1)).
Proof.
  intros Hs Hc. unfold select_last. rewrite (size_at_last t lead L Hs).
  cbn [rbind]. destruct (Z.ltb_spec c 0); [lia|].
  destruct (Z.leb_spec L c); [lia|]. cbn [orb].
  rewrite Hs, removelast_last. reflexivity.
Qed.

Lemma view_rows_ok (t : Tensor) (n m : Z) :
  is_contiguous t = true -> 0 < m -> nelement t = n * m ->
  view_rows t m = Ok (mkTensor (ttype t) [n; m] (data t) true).
Proof.
  intros Hc Hm Hn. unfold view_rows. rewrite Hc, Hn. cbn [negb].
  destruct (Z.leb_spec m 0); [lia|]. rewrite Z.mod_mul by lia.
  cbn [orb Z.eqb negb]. rewrite Z.div_mul by lia. reflexivity.
Qed.

Lemma view_ok (t : Tensor) (sizes : list Z) :
  is_contiguous t = true ->
  Forall (fun d => 0 <= d) sizes ->
  prodZ sizes = nelement t ->
  view t sizes = Ok (mkTensor (ttype t) sizes (data t) true).
Proof.
  intros Hc Hs Hn. unfold view. rewrite Hc, (forallb_nonneg _ Hs), Hn.
  rewrite Z.eqb_refl. reflexivity.
Qed.

Lemma TensorType_eqb_spec (a b : TensorType) :
  TensorType_eqb a b = true <-> a = b.
Proof. destruct a, b; simpl; split; congruence. Qed.

Lemma pointwise_ok (f : R -> R -> R) (a b : Tensor) :
  ttype a = ttype b ->
  size a = size b ->
  pointwise f a b =
    Ok (mkTensor (ttype a) (size a)
          (map (fun p => f (rd (data a) p) (rd (data b) p))
               (range (nelement a)))
          true).
Proof.
  intros Ht Hs. unfold pointwise, list_Z_eqb.
  rewrite (proj2 (TensorType_eqb_spec _ _) Ht). cbn [negb].
  now rewrite bool_decide_eq_true_2 by assumption.
Qed.

Lemma expand_as_ok (t target : Tensor) (m n : Z) :
  size t = [1; m] -> size target = [n; m] ->
  expand_as t target =
    Ok (mkTensor (ttype t) [n; m] (flat_map (fun _ => data t) (range n))
          (n =? 1)).
Proof.
  intros Ht Hg. unfold expand_as. rewrite Ht, Hg, Z.eqb_refl. reflexivity.
Qed.

Lemma copy_into_last_refused (C src : Tensor) (slice : list Z) (L c : Z) :
  size C = slice ++ [L] -> 0 <= c < L ->
  broadcastable (size src) slice = false ->
  copy_into_last C c src =
    Raise (RuntimeError
             "The expanded size of the tensor must match the existing size").
Proof.
  intros Hs Hc Hb. unfold copy_into_last.
  rewrite (size_at_last C slice L Hs). cbn [rbind].
  destruct (Z.ltb_spec c 0); [lia|]. destruct (Z.leb_spec L c); [lia|].
  cbn [orb]. rewrite Hs, removelast_last, Hb. reflexivity.
Qed.

(** A matrix of [n] rows of [h * w] scalars can be expanded to the shape
    [(..., h, w)] of a batch of [n] maps only when [h = 1] and [n = 1]. *)
Lemma rows_not_broadcastable (lead : list Z) (n h w : Z) :
  0 < h -> 0 < w ->
  h <> 1 \/ n <> 1 ->
  broadcastable [n; w * h] (lead ++ [h; w]) = false.
Proof.
  intros Hh Hw Hne. unfold broadcastable. rewrite length_app.
  cbn [length].
  replace (length lead + 2 - 2)%nat with (length lead + 0)%nat by lia.
  rewrite skipn_app, Nat.add_0_r, skipn_all, Nat.sub_diag.
  cbn [app skipn axes_expand].
  apply andb_false_intro2.
  destruct (Z.eqb_spec (w * h) w) as [E1|N1].
  - assert (h = 1) by nia. subst h.
    destruct Hne as [Hne|Hne]; [contradiction|].
    destruct (Z.eqb_spec n 1) as [?|_]; [contradiction|].
    destruct (Z.eqb_spec n 1) as [?|_]; [contradiction|]. reflexivity.
  - destruct (Z.eqb_spec (w * h) 1) as [E2|N2].
    + assert (h = 1) by nia. subst h. lia.
    + cbn [orb andb]. apply andb_false_r.
Qed.

Ltac name_result x :=
  match goal with
  | |- context [rbind (Ok ?t) ?k] =>
      set (x := t); change (rbind (Ok x) k) with (k x); cbv beta
  end.

Section CdgmmProperties.

Variable cublasCdgmm :
  Z -> Z -> list R -> Z -> list R -> Z -> list R -> Z -> list R.

(** The portable path computes the real and the imaginary part of the
    product as matrices of [n] rows of [h * w] scalars and copies each
    into the slice of shape [(..., h, w)] of the result: a copy that the
    runtime refuses unless [h = 1] and [n = 1]. *)
Lemma cdgmm_portable_refused (junk : Z -> R) (A B : Tensor)
    (jit inplace : bool) (lead : list Z) (h w : Z) :
  size A = lead ++ [h; w; 2] ->
  size B = [h; w; 2] ->
  ttype A = ttype B ->
  Forall (fun d => 0 <= d) lead ->
  0 < h -> 0 < w ->
  negb jit || negb (is_cuda A) = true ->
  h <> 1 \/ prodZ lead <> 1 ->
  cdgmm cublasCdgmm junk A B jit inplace =
    Raise (RuntimeError
             "The expanded size of the tensor must match the existing size").
Proof using Type.
  intros HsA HsB Hty Hlead Hh Hw Hpath Hne.
  pose proof (prodZ_nonneg lead Hlead) as Hn.
  set (n := prodZ lead) in *.
  assert (HsA' : size (contiguous A) = lead ++ [h; w; 2]) by exact HsA.
  assert (HsB' : size (contiguous B) = [] ++ [h; w; 2]) by exact HsB.
  assert (HsA2 : size (contiguous A) = (lead ++ [h; w]) ++ [2])
    by (rewrite <- app_assoc; exact HsA).
  assert (HsB2 : size (contiguous B) = [h; w] ++ [2]) by exact HsB.
  assert (HNA : prodZ (lead ++ [h; w]) = n * (w * h)).
  { rewrite prodZ_app. unfold prodZ at 2. cbn [fold_right]. fold n. ring. }
  unfold cdgmm.
  fold (contiguous A). fold (contiguous B).
  rewrite HsA', lastn_app_3. change (size (contiguous B)) with (size B).
  rewrite HsB. unfold list_Z_eqb at 1.
  rewrite bool_decide_eq_true_2 by reflexivity. cbn [negb].
  unfold iscomplex.
  rewrite (size_at_last _ _ _ HsA2), (size_at_last _ _ _ HsB2).
  cbn [rbind Z.eqb Pos.eqb negb].
  unfold ndimension. change (size (contiguous B)) with (size B).
  rewrite HsB. cbn [length Z.of_nat Pos.of_succ_nat Pos.succ Z.eqb Pos.eqb negb].
  unfold py_type. cbn [PyClass_is negb].
  change (is_cuda (contiguous A)) with (is_cuda A).
  rewrite Hpath.
  unfold tensor_new.
  rewrite forallb_nonneg.
  2:{ apply Forall_app. split; [assumption|].
      repeat constructor; lia. }
  cbn [rbind].
  destruct (size_at_last3 _ _ _ _ _ HsA') as (_ & -> & ->).
  destruct (size_at_last3 _ _ _ _ _ HsB') as (_ & -> & ->).
  cbn [rbind].
  rewrite !(select_last_ok _ _ 2 _ HsA2) by lia.
  rewrite !(select_last_ok _ _ 2 _ HsB2) by lia.
  cbn [rbind Z.eqb Pos.eqb].
  change (Z.of_nat 3 =? 3) with true. cbn [negb].
  change (data (contiguous A)) with (data A).
  change (data (contiguous B)) with (data B).
  change (ttype (contiguous A)) with (ttype A).
  change (ttype (contiguous B)) with (ttype B).
  assert (Hwh : 0 < w * h) by nia.
  rewrite (view_rows_ok _ n (w * h)) by (try reflexivity; assumption).
  name_result A_r.
  rewrite (view_rows_ok _ n (w * h)) by (try reflexivity; assumption).
  name_result A_i.
  assert (HNB : prodZ [h; w] = w * h) by (unfold prodZ; cbn; ring).
  rewrite (view_ok _ [w * h])
    by first [ reflexivity
             | repeat constructor; lia
             | unfold nelement, prodZ; cbn; ring ].
  name_result B0v.
  rewrite (expand_as_ok _ A_i (w * h) n) by reflexivity.
  name_result B_r.
  rewrite (view_ok _ [w * h])
    by first [ reflexivity
             | repeat constructor; lia
             | unfold nelement, prodZ; cbn; ring ].
  name_result B1v.
  rewrite (expand_as_ok _ A_r (w * h) n) by reflexivity.
  name_result B_i.
  rewrite (pointwise_ok Rmult A_r B_r) by first [exact Hty | reflexivity]. name_result rr.
  rewrite (pointwise_ok Rmult A_i B_i) by first [exact Hty | reflexivity]. name_result ii.
  rewrite (pointwise_ok Rminus rr ii) by reflexivity. name_result re.
  rewrite (copy_into_last_refused _ re (lead ++ [h; w]) 2 0).
  - reflexivity.
  - cbn [size]. now rewrite <- app_assoc.
  - lia.
  - change (size re) with [n; w * h].
    apply rows_not_broadcastable; assumption.
Qed.

(** C3. The portable path does not return the product for a batch. For the
    host batch [batch_2x1x1] of two 1 x 1 maps and the host filter
    [filter_one], both complex, of the same class and of matching shapes,
    [cdgmm] raises: the products are computed as a matrix of shape
    [(2, 1)], which the copy into the slice of shape [(2, 1, 1)] of the
    result refuses. *)
Theorem cdgmm_portable_raises_on_batch (junk : Z -> R)
    (jit inplace : bool) :
  lastn 3 (size batch_2x1x1) = size filter_one /\
  iscomplex batch_2x1x1 = Ok true /\
  iscomplex filter_one = Ok true /\
  ttype batch_2x1x1 = ttype filter_one /\
  cdgmm cublasCdgmm junk batch_2x1x1 filter_one jit inplace =
    Raise (RuntimeError
             "The expanded size of the tensor must match the existing size").
Proof using Type.
  repeat (split; [reflexivity|]).
  apply (cdgmm_portable_refused junk batch_2x1x1 filter_one jit inplace
           [2] 1 1); try reflexivity; try lia.
  - repeat constructor; lia.
  - cbn [is_cuda batch_2x1x1 ttype negb]. apply orb_true_r.
  - right. unfold prodZ. cbn [fold_right]. lia.
Qed.

(** A single map of height 1 is the shape that the copy accepts: there
    the portable path returns the products. *)
Example cdgmm_portable_single_row (junk : Z -> R) (jit inplace : bool)
    (a0 a1 a2 a3 b0 b1 b2 b3 : R) :
  cdgmm cublasCdgmm junk
        (mkTensor FloatTensor [1; 1; 2; 2] [a0; a1; a2; a3] true)
        (mkTensor FloatTensor [1; 2; 2] [b0; b1; b2; b3] true)
        jit inplace =
    Ok (mkTensor FloatTensor [1; 1; 2; 2]
          [(a0 * b0 - a1 * b1)%R; (a0 * b1 + a1 * b0)%R;
           (a2 * b2 - a3 * b3)%R; (a2 * b3 + a3 * b2)%R] true).
Proof using Type. destruct jit, inplace; vm_compute; reflexivity. Qed.

End CdgmmProperties.

Lemma size_at_m1 (t : Tensor) : size_at t (-1) = size_last (size t).
Proof.
  unfold size_last. destruct (size t) as [|d s] eqn:Hs.
  - unfold size_at, ndimension. rewrite Hs. reflexivity.
  - destruct (exists_last (l := d :: s) ltac:(discriminate)) as [l [x Hl]].
    rewrite <- Hs in Hl |- *. rewrite (size_at_last t l x Hl).
    rewrite Hl, List.last_last. reflexivity.
Qed.

Lemma lastn_split {A : Type} (l : list A) (n : nat) :
  l = firstn (length l - n) l ++ lastn n l.
Proof. unfold lastn. symmetry. apply firstn_skipn. Qed.

Section CdgmmChecks.

Variable cublasCdgmm :
  Z -> Z -> list R -> Z -> list R -> Z -> list R -> Z -> list R.

Lemma nelement_batch (A : Tensor) (lead : list Z) (h w : Z) :
  size A = lead ++ [h; w; 2] ->
  nelement A = 2 * (prodZ lead * (h * w)).
Proof using Type.
  intros Hs. unfold nelement. rewrite Hs, prodZ_app. unfold prodZ.
  cbn [fold_right]. ring.
Qed.

(** The call that the kernel path makes, whatever the classes of the
    operands are. *)
Lemma cdgmm_kernel_call_eq (junk : Z -> R) (A B : Tensor) (inplace : bool)
    (lead : list Z) (h w : Z) :
  size A = lead ++ [h; w; 2] ->
  size B = [h; w; 2] ->
  Forall (fun d => 0 <= d) lead ->
  0 < h -> 0 < w ->
  is_cuda A = true ->
  cdgmm cublasCdgmm junk A B true inplace =
    Ok (mkTensor (ttype A) (size A)
          (cublasCdgmm (h * w) (prodZ lead) (data A) (h * w) (data B) 1
             (if inplace then data A
              else map junk (range (nelement A)))
             (h * w))
          true).
Proof using Type.
  intros HsA HsB Hlead Hh Hw Hcuda.
  assert (HsA2 : size (contiguous A) = (lead ++ [h; w]) ++ [2])
    by (rewrite <- app_assoc; exact HsA).
  assert (HsB2 : size (contiguous B) = [h; w] ++ [2]) by exact HsB.
  pose proof (prodZ_nonneg lead Hlead) as Hn.
  unfold cdgmm. fold (contiguous A). fold (contiguous B).
  change (size (contiguous A)) with (size A).
  change (size (contiguous B)) with (size B).
  rewrite HsA at 1. rewrite lastn_app_3, HsB. unfold list_Z_eqb.
  rewrite bool_decide_eq_true_2 by reflexivity. cbn [negb].
  unfold iscomplex.
  rewrite (size_at_last _ _ _ HsA2), (size_at_last _ _ _ HsB2).
  cbn [rbind Z.eqb Pos.eqb negb].
  unfold ndimension. change (size (contiguous B)) with (size B).
  rewrite HsB. change (Z.of_nat (length [h; w; 2]) =? 3) with true.
  cbn [negb]. unfold py_type. cbn [PyClass_is negb].
  change (is_cuda (contiguous A)) with (is_cuda A).
  rewrite Hcuda. cbn [negb orb].
  unfold py_floordiv.
  assert (HnB : nelement (contiguous B) = (h * w) * 2).
  { unfold nelement. change (size (contiguous B)) with (size B).
    rewrite HsB. unfold prodZ. cbn [fold_right]. ring. }
  assert (HnA : nelement (contiguous A) = prodZ lead * ((h * w) * 2)).
  { change (nelement (contiguous A)) with (nelement A).
    rewrite (nelement_batch A lead h w HsA). ring. }
  rewrite HnA, HnB. cbn [Z.eqb].
  assert (Hhw : 0 < h * w) by nia.
  destruct (Z.eqb_spec (h * w * 2) 0) as [?|_]; [lia|].
  rewrite !Z.div_mul by lia.
  change (data (contiguous A)) with (data A).
  change (data (contiguous B)) with (data B).
  destruct inplace; cbn [negb rbind].
  - reflexivity.
  - unfold tensor_new. rewrite forallb_nonneg.
    + cbn [rbind]. cbn [ttype size contig data contiguous].
      unfold nelement. reflexivity.
    + rewrite HsA. apply Forall_app. split; [assumption|].
      repeat constructor; lia.
Qed.

Lemma cdgmm_precheck_raises (junk : Z -> R) (A B : Tensor)
    (jit inplace : bool) (e : PyError) :
  cdgmm_precheck (size A) (size B) = Some e ->
  cdgmm cublasCdgmm junk A B jit inplace = Raise e.
Proof using Type.
  unfold cdgmm_precheck, cdgmm. cbv zeta. unfold iscomplex.
  rewrite !size_at_m1.
  change (size (contiguous A)) with (size A).
  change (size (contiguous B)) with (size B).
  change (ndimension (contiguous B)) with (Z.of_nat (length (size B))).
  destruct (negb (list_Z_eqb (lastn 3 (size A)) (size B)));
    [intros H; now inversion H|].
  destruct (size_last (size A)) as [la|ea]; cbn [rbind];
    [|intros H; now inversion H].
  destruct (negb (la =? 2)); cbn [rbind]; [intros H; now inversion H|].
  destruct (size_last (size B)) as [lb|eb]; cbn [rbind];
    [|intros H; now inversion H].
  destruct (lb =? 2); cbn [negb rbind]; [|intros H; now inversion H].
  destruct (negb (Z.of_nat (length (size B)) =? 3));
    [intros H; now inversion H|].
  discriminate.
Qed.

Lemma cdgmm_precheck_None (sA sB : list Z) :
  cdgmm_precheck sA sB = None <->
  (lastn 3 sA = sB /\ Z.of_nat (length sB) = 3 /\
   List.last sA 0 = 2 /\ List.last sB 0 = 2).
Proof using Type.
  unfold cdgmm_precheck, list_Z_eqb, size_last.
  destruct (decide (lastn 3 sA = sB)) as [E1|N1].
  2:{ rewrite bool_decide_eq_false_2 by assumption. cbn [negb].
      split; [discriminate|]. intros (H & _). contradiction. }
  rewrite bool_decide_eq_true_2 by assumption. cbn [negb].
  destruct sA as [|a sA'] eqn:HsA.
  { split; [discriminate|]. intros (_ & _ & H & _). cbn in H. lia. }
  rewrite <- HsA in *. clear HsA.
  destruct (Z.eqb_spec (List.last sA 0) 2) as [E4|N4]; cbn [negb].
  2:{ split; [discriminate|]. intros (_ & _ & H & _). contradiction. }
  destruct sB as [|b sB'] eqn:HsB.
  { split; [discriminate|]. intros (_ & H & _). cbn in H. lia. }
  rewrite <- HsB in *. clear HsB.
  destruct (Z.eqb_spec (List.last sB 0) 2) as [E5|N5]; cbn [negb].
  2:{ split; [discriminate|]. intros (_ & _ & _ & H). contradiction. }
  destruct (Z.eqb_spec (Z.of_nat (length sB)) 3) as [E2|N2]; cbn [negb].
  2:{ split; [discriminate|]. intros (_ & H & _). contradiction. }
  split; [|reflexivity]. intros _. repeat split; assumption.
Qed.

Lemma cdgmm_kernel_passes (junk : Z -> R) (A B : Tensor) (inplace : bool) :
  Forall (fun d => 0 < d) (size A) ->
  Forall (fun d => 0 < d) (size B) ->
  is_cuda A = true ->
  cdgmm_precheck (size A) (size B) = None ->
  exists C, cdgmm cublasCdgmm junk A B true inplace = Ok C.
Proof using Type.
  intros HpA HpB Hcu Hpre. apply cdgmm_precheck_None in Hpre.
  destruct Hpre as (E1 & E2 & E4 & E5).
  assert (HB3 : exists h w, size B = [h; w; 2]).
  { destruct (size B) as [|h [|w [|c [|? ?]]]];
      cbn [length] in E2; try lia.
    cbn in E5. subst c. now exists h, w. }
  destruct HB3 as [h [w HsB]].
  assert (HsA : size A = firstn (length (size A) - 3) (size A) ++ [h; w; 2]).
  { rewrite <- HsB, <- E1. apply lastn_split. }
  set (lead := firstn (length (size A) - 3) (size A)) in HsA.
  assert (Hlead : Forall (fun d => 0 <= d) lead).
  { rewrite HsA in HpA. apply Forall_app in HpA. destruct HpA as [Hl _].
    eapply List.Forall_impl; [|exact Hl]. intros d Hd. cbn in Hd. lia. }
  assert (Hh : 0 < h /\ 0 < w).
  { rewrite HsB in HpB. inversion HpB as [|? ? Hh' Hrest]. subst.
    inversion Hrest. subst. split; assumption. }
  destruct Hh as [Hh Hw].
  eexists.
  exact (cdgmm_kernel_call_eq junk A B inplace lead h w HsA HsB Hlead
           Hh Hw Hcu).
Qed.

(** C7. The test [type(A) is not type(B)] compares two classes that are
    both [torch.Tensor]: it never fails. For the device-resident float
    batch [cuda_batch_1x1] and the device-resident double filter
    [cuda_double_filter], of matching shapes and both complex, [cdgmm]
    raises nothing on the kernel path: it calls the library routine on
    the two buffers and returns a tensor of the class and shape of the
    batch. *)
Theorem cdgmm_accepts_mixed_scalar_types (junk : Z -> R) (inplace : bool) :
  scalar_type (ttype cuda_batch_1x1) = float /\
  scalar_type (ttype cuda_double_filter) = double /\
  exists C,
    cdgmm cublasCdgmm junk cuda_batch_1x1 cuda_double_filter true inplace
      = Ok C /\
    ttype C = ttype cuda_batch_1x1 /\
    size C = size cuda_batch_1x1.
Proof using Type.
  split; [reflexivity|]. split; [reflexivity|].
  eexists. split.
  - apply (cdgmm_kernel_call_eq junk cuda_batch_1x1 cuda_double_filter
             inplace [] 1 1);
      reflexivity || lia || constructor.
  - split; reflexivity.
Qed.

End CdgmmChecks.

(** ** Periodize and extents that the factor does not divide *)

Lemma mul_eq_full (a b H W : Z) :
  0 < a <= H -> 0 < b <= W -> a * b = H * W -> a = H /\ b = W.
Proof.
  intros Ha Hb Heq.
  destruct (Z.eq_dec a H) as [->|Hne].
  - split; [reflexivity|]. apply (Z.mul_cancel_l _ _ H); lia.
  - exfalso. assert (a * b < H * W); [|lia].
    apply Z.le_lt_trans with (a * W).
    + apply Z.mul_le_mono_nonneg_l; lia.
    + apply Z.mul_lt_mono_pos_r; lia.
Qed.

Lemma prod_view_eq (B C H W qh oh qw ow : Z) :
  0 < B -> 0 < C ->
  (prodZ [B; C; qh; oh; qw; ow; 2] = prodZ [B; C; H; W; 2] <->
   (qh * oh) * (qw * ow) = H * W).
Proof.
  intros HB HC. unfold prodZ. cbn [fold_right]. split.
  - intros Heq. apply (Z.mul_cancel_l _ _ (B * C * 2)); [nia|].
    transitivity (B * (C * (qh * (oh * (qw * (ow * (2 * 1)))))));
      [ring | rewrite Heq; ring].
  - intros Heq.
    replace (B * (C * (qh * (oh * (qw * (ow * (2 * 1)))))))
      with (B * C * 2 * (qh * oh * (qw * ow))) by ring.
    rewrite Heq. ring.
Qed.

Lemma Periodize_portable_eval (self : Periodize) (junk : Z -> R)
    (input : Tensor) (B C H W k : Z) :
  size input = [B; C; H; W; 2] ->
  is_contiguous input = true ->
  0 < B -> 0 < C -> 0 < H -> 0 < W -> 0 < k ->
  negb (p_jit self) || negb (is_cuda input) = true ->
  Periodize_call self junk input k =
    if H / k =? 0 then Raise ZeroDivisionError
    else if W / k =? 0 then Raise ZeroDivisionError
    else if prodZ [B; C; H / (H / k); H / k; W / (W / k); W / k; 2]
            =? prodZ [B; C; H; W; 2]
    then
      let* m := mean (mkTensor (ttype input)
                        [B; C; H / (H / k); H / k; W / (W / k); W / k; 2]
                        (data input) true) 4 in
      mean m 2
    else Raise (RuntimeError "size mismatch").
Proof.
  intros Hsize Hc HB HC HH HW Hk Hpath.
  pose proof (Z.div_pos H k ltac:(lia) Hk) as Hoh.
  pose proof (Z.div_pos W k ltac:(lia) Hk) as How.
  unfold Periodize_call. rewrite_size_5 Hsize. cbn [rbind].
  unfold py_floordiv at 1 2.
  destruct (Z.eqb_spec k 0) as [?|_]; [lia|]. cbn [rbind].
  unfold tensor_new. cbn [forallb]. nonneg_leb.
  cbn [andb rbind]. rewrite Hpath.
  unfold py_floordiv.
  destruct (Z.eqb_spec (H / k) 0) as [E1|N1]; [reflexivity|].
  cbn [rbind].
  destruct (Z.eqb_spec (W / k) 0) as [E2|N2]; [reflexivity|].
  cbn [rbind].
  pose proof (Z.div_pos H (H / k) ltac:(lia) ltac:(lia)) as Hqh.
  pose proof (Z.div_pos W (W / k) ltac:(lia) ltac:(lia)) as Hqw.
  unfold view. rewrite Hc. cbn [negb forallb]. nonneg_leb. cbn [andb].
  unfold nelement. rewrite Hsize.
  destruct (prodZ [B; C; H / (H / k); H / k; W / (W / k); W / k; 2]
            =? prodZ [B; C; H; W; 2]); reflexivity.
Qed.

(** C8 (amended). [Periodize] makes no divisibility test of its own. On the
    portable path, for a contiguous input of shape [(B, C, H, W, 2)] with
    positive extents and a positive factor [k], an error is raised (by the
    integer division when [H // k] or [W // k] is zero, by the reshape
    otherwise, in both cases before any mean is taken) exactly when
    [H // k] does not divide [H] or [W // k] does not divide [W]; the error
    is the [ZeroDivisionError] of the division or the error of the
    reshape. *)
Theorem Periodize_portable_raises_iff (self : Periodize) (junk : Z -> R)
    (input : Tensor) (B C H W k : Z) :
  size input = [B; C; H; W; 2] ->
  is_contiguous input = true ->
  0 < B -> 0 < C -> 0 < H -> 0 < W -> 0 < k ->
  negb (p_jit self) || negb (is_cuda input) = true ->
  (raises (Periodize_call self junk input k) <->
     (H / k = 0 \/ W / k = 0 \/
      H mod (H / k) <> 0 \/ W mod (W / k) <> 0)) /\
  (forall e, Periodize_call self junk input k = Raise e ->
     e = ZeroDivisionError \/ e = RuntimeError "size mismatch").
Proof.
  intros Hsize Hc HB HC HH HW Hk Hpath.
  rewrite (Periodize_portable_eval self junk input B C H W k) by assumption.
  pose proof (Z.div_pos H k ltac:(lia) Hk) as Hoh.
  pose proof (Z.div_pos W k ltac:(lia) Hk) as How.
  destruct (Z.eqb_spec (H / k) 0) as [E1|N1].
  { cbn [raises]. split.
    - split; [intros _; now left | intros _; exact I].
    - intros e He. inversion He. now left. }
  destruct (Z.eqb_spec (W / k) 0) as [E2|N2].
  { cbn [raises]. split.
    - split; [intros _; right; now left | intros _; exact I].
    - intros e He. inversion He. now left. }
  set (oh := H / k) in *. set (ow := W / k) in *.
  pose proof (Z.div_mod H oh N1) as HdH.
  pose proof (Z.mod_pos_bound H oh ltac:(lia)) as HmH.
  pose proof (Z.div_mod W ow N2) as HdW.
  pose proof (Z.mod_pos_bound W ow ltac:(lia)) as HmW.
  assert (HohH : oh <= H).
  { unfold oh. apply Z.div_le_upper_bound; [lia|]. nia. }
  assert (HowW : ow <= W).
  { unfold ow. apply Z.div_le_upper_bound; [lia|]. nia. }
  destruct (Z.eqb_spec (prodZ [B; C; H / oh; oh; W / ow; ow; 2])
                       (prodZ [B; C; H; W; 2])) as [Eq|Ne].
  - match goal with
    | |- context [mean ?t 4] =>
        pose proof (mean_split t [B; C; H / oh; oh] [ow; 2] (W / ow) eq_refl)
          as Hm1
    end.
    change (Z.of_nat (length [B; C; H / oh; oh])) with 4 in Hm1.
    rewrite Hm1. clear Hm1. cbn [rbind].
    match goal with
    | |- context [mean ?t 2] =>
        pose proof (mean_split t [B; C] [oh; ow; 2] (H / oh) eq_refl) as Hm2
    end.
    change (Z.of_nat (length [B; C])) with 2 in Hm2.
    rewrite Hm2. clear Hm2. cbn [raises].
    split; [|intros e He; discriminate].
    split; [intros []|].
    apply prod_view_eq in Eq; [|assumption|assumption].
    destruct (mul_eq_full (H / oh * oh) (W / ow * ow) H W) as [Ea Eb];
      [nia | nia | exact Eq |].
    intros [?|[?|[?|?]]]; lia.
  - cbn [raises].
    split; [|intros e He; inversion He; now right].
    split; [intros _|intros _; exact I].
    destruct (Z.eq_dec (H mod oh) 0) as [Z1|?]; [|right; right; now left].
    destruct (Z.eq_dec (W mod ow) 0) as [Z2|?]; [|right; right; now right].
    exfalso. apply Ne. apply prod_view_eq; [assumption|assumption|].
    replace (H / oh * oh) with H by lia.
    replace (W / ow * ow) with W by lia. reflexivity.
Qed.

Lemma Periodize_portable_raises_iff_witness :
  size host_3x3 = [1; 1; 3; 3; 2] /\
  is_contiguous host_3x3 = true /\
  0 < 1 /\ 0 < 1 /\ 0 < 3 /\ 0 < 3 /\ 0 < 2 /\
  negb (p_jit (Periodize_init true)) || negb (is_cuda host_3x3) = true /\
  ((raises (Periodize_call (Periodize_init true) (fun _ => 0%R) host_3x3 2) <->
      (3 / 2 = 0 \/ 3 / 2 = 0 \/
       3 mod (3 / 2) <> 0 \/ 3 mod (3 / 2) <> 0)) /\
   (forall e,
      Periodize_call (Periodize_init true) (fun _ => 0%R) host_3x3 2 = Raise e ->
      e = ZeroDivisionError \/ e = RuntimeError "size mismatch")).
Proof.
  split; [reflexivity|]. split; [reflexivity|].
  split; [lia|]. split; [lia|]. split; [lia|]. split; [lia|]. split; [lia|].
  split; [reflexivity|].
  apply (Periodize_portable_raises_iff (Periodize_init true) (fun _ => 0%R)
           host_3x3 1 1 3 3 2).
  - reflexivity.
  - reflexivity.
  - lia.
  - lia.
  - lia.
  - lia.
  - lia.
  - reflexivity.
Defined.

(** C8 as stated fails: the factor 2 does not divide the extents of
    [host_3x3], yet the call raises nothing; the output extent [3 // 2 = 1]
    divides 3, so the reshape succeeds and the whole map is averaged. *)
Lemma Periodize_accepts_indivisible_extent :
  ~ (~ (2 | 3) ->
     raises (Periodize_call (Periodize_init true) (fun _ => 0%R) host_3x3 2)).
Proof.
  intros Hclaim.
  assert (Hnd : ~ (2 | 3)) by (intros [z Hz]; lia).
  specialize (Hclaim Hnd). vm_compute in Hclaim. exact Hclaim.
Qed.

Lemma Periodize_indivisible_shape :
  exists out,
    Periodize_call (Periodize_init true) (fun _ => 0%R) host_3x3 2 = Ok out /\
    size out = [1; 1; 1; 1; 2].
Proof. eexists. split; reflexivity. Qed.

(** ** load_kernel *)

Section LoadKernelProperties.

Variable substitute : string -> gmap string string -> Result string.
Variable compiler_accepts : string -> bool.
Variable module_defines : string -> string -> bool.

Abbreviation load :=
  (load_kernel substitute compiler_accepts module_defines).
Abbreviation compile := (compile_with_cache compiler_accepts).

Lemma cache_inv_init : cache_inv substitute initial_state.
Proof using Type.
  constructor; cbn.
  - constructor.
  - intros key. rewrite lookup_empty. split.
    + intros H. inversion H.
    + intros [x H]. discriminate.
  - intros key m H. rewrite lookup_empty in H. discriminate.
  - intros dev name code kw h H. rewrite lookup_empty in H. discriminate.
Qed.

Lemma compile_with_cache_spec (st st' : CupyState) (dev : nat)
    (code : string) (r : Result CudaModule) :
  cache_inv substitute st ->
  compile st dev code = (r, st') ->
  cache_inv substitute st' /\
  memo st' = memo st /\
  (forall key m, compiled st !! key = Some m -> compiled st' !! key = Some m) /\
  match r with
  | Ok m => m = mkModule dev code /\
            compiled st' !! (dev, code) = Some m /\
            (is_Some (compiled st !! (dev, code)) -> st' = st)
  | Raise _ => st' = st
  end.
Proof using Type.
  intros Hinv. unfold compile_with_cache.
  destruct (compiled st !! (dev, code)) as [m|] eqn:Hlk.
  - intros Heq. inversion Heq. subst r st'.
    split; [assumption|]. split; [reflexivity|]. split; [auto|].
    split; [exact (inv_module _ _ Hinv _ _ Hlk)|]. split; [assumption|].
    reflexivity.
  - destruct (compiler_accepts code).
    + intros Heq. inversion Heq. subst r st'. cbn.
      split; [|split; [reflexivity|split]].
      * constructor; cbn.
        -- apply NoDup_app. split; [exact (inv_nodup _ _ Hinv)|].
           split; [|apply NoDup_singleton].
           intros x Hx Hx'. apply list_elem_of_singleton in Hx'. subst x.
           apply (inv_log _ _ Hinv) in Hx. rewrite Hlk in Hx.
           destruct Hx as [? ?]. discriminate.
        -- intros key. rewrite elem_of_app, list_elem_of_singleton.
           destruct (decide (key = (dev, code))) as [->|Hne].
           ++ rewrite lookup_insert_eq. split; [eauto|now right].
           ++ rewrite lookup_insert_ne by congruence.
              rewrite (inv_log _ _ Hinv). split; [|now left].
              intros [H|H]; [assumption|contradiction].
        -- intros key m.
           destruct (decide (key = (dev, code))) as [->|Hne].
           ++ rewrite lookup_insert_eq. intros H. inversion H. reflexivity.
           ++ rewrite lookup_insert_ne by congruence.
              apply (inv_module _ _ Hinv).
        -- intros dev' name code' kw h Hm.
           destruct (inv_memo _ _ Hinv _ _ _ _ _ Hm) as [src (Hs & Hh & Hc)].
           exists src. split; [assumption|]. split; [assumption|].
           destruct (decide ((dev', src) = (dev, code))) as [Heq'|Hne].
           ++ rewrite Heq' in Hc. congruence.
           ++ now rewrite lookup_insert_ne by congruence.
      * intros key m Hk.
        destruct (decide (key = (dev, code))) as [->|Hne]; [congruence|].
        now rewrite lookup_insert_ne by congruence.
      * split; [reflexivity|]. split; [apply lookup_insert_eq|].
        intros [? ?]. discriminate.
    + intros Heq. inversion Heq. subst r st'.
      split; [assumption|]. split; [reflexivity|]. split; [auto|].
      reflexivity.
Qed.

Lemma load_kernel_spec (st st' : CupyState) (dev : nat)
    (name code : string) (kw : gmap string string)
    (r : Result KernelHandle) :
  cache_inv substitute st ->
  load st dev name code kw = (r, st') ->
  cache_inv substitute st' /\
  match r with
  | Ok h =>
      exists src,
        substitute code kw = Ok src /\
        h = mkHandle (mkModule dev src) name /\
        memo st' !! (dev, (name, code, kw)) = Some h /\
        compiled st' !! (dev, src) = Some (mkModule dev src) /\
        (is_Some (compiled st !! (dev, src)) ->
         compile_log st' = compile_log st)
  | Raise e =>
      memo st' = memo st /\
      memo st !! (dev, (name, code, kw)) = None /\
      ((substitute code kw = Raise e /\ st' = st) \/
       (exists src, substitute code kw = Ok src /\
                    compiled st !! (dev, src) = None /\
                    compiler_accepts src = false /\ st' = st) \/
       (exists src, substitute code kw = Ok src /\
                    module_defines src name = false /\
                    compiled st' !! (dev, src) = Some (mkModule dev src) /\
                    get_function module_defines (mkModule dev src) name
                      = Raise e))
  end.
Proof using Type.
  intros Hinv. unfold load_kernel.
  destruct (memo st !! (dev, (name, code, kw))) as [h|] eqn:Hm.
  - intros Heq. inversion Heq. subst r st'. split; [assumption|].
    destruct (inv_memo _ _ Hinv _ _ _ _ _ Hm) as [src (Hs & Hh & Hc)].
    exists src. repeat split; auto.
  - destruct (substitute code kw) as [src|e] eqn:Hs.
    2:{ intros Heq. inversion Heq. subst r st'. split; [assumption|].
        split; [reflexivity|]. split; [reflexivity|]. left. now split. }
    destruct (compile st dev src) as [[m|e] st1] eqn:Hcomp.
    + destruct (compile_with_cache_spec st st1 dev src (Ok m) Hinv Hcomp)
        as (Hinv1 & Hmemo & Hmono & Hmod & Hlk & Hsame).
      subst m.
      destruct (get_function module_defines (mkModule dev src) name)
        as [h|e] eqn:Hget.
      * intros Heq. inversion Heq. subst r st'. clear Heq.
        assert (Hh : h = mkHandle (mkModule dev src) name).
        { revert Hget. unfold get_function. cbn [mod_source].
          destruct (module_defines src name); [|discriminate].
          intros H. now inversion H. }
        subst h. split.
        -- constructor; cbn.
           ++ exact (inv_nodup _ _ Hinv1).
           ++ exact (inv_log _ _ Hinv1).
           ++ exact (inv_module _ _ Hinv1).
           ++ intros dev' name' code' kw' h.
              destruct (decide ((dev', (name', code', kw'))
                                = (dev, (name, code, kw)))) as [Heq|Hne].
              ** inversion Heq. subst. rewrite lookup_insert_eq.
                 intros H. inversion H. subst h. exists src.
                 repeat split; auto.
              ** rewrite lookup_insert_ne by congruence.
                 apply (inv_memo _ _ Hinv1).
        -- exists src. cbn. split; [reflexivity|]. split; [reflexivity|].
           split; [apply lookup_insert_eq|]. split; [assumption|].
           intros Hc. now rewrite (Hsame Hc).
      * intros Heq. inversion Heq. subst r st'. clear Heq.
        split; [assumption|]. split; [assumption|].
        split; [reflexivity|]. right. right. exists src.
        split; [reflexivity|]. split; [|split; [assumption|exact Hget]].
        revert Hget. unfold get_function. cbn [mod_source].
        destruct (module_defines src name); [discriminate|reflexivity].
    + intros Heq. inversion Heq. subst r st'. clear Heq.
      destruct (compile_with_cache_spec st st1 dev src (Raise e) Hinv Hcomp)
        as (Hinv1 & _ & _ & Hst). subst st1. split; [assumption|].
      split; [reflexivity|]. split; [reflexivity|]. right. left.
      exists src. split; [reflexivity|].
      revert Hcomp. unfold compile_with_cache.
      destruct (compiled st !! (dev, src)); [discriminate|].
      destruct (compiler_accepts src); [discriminate|].
      intros _. repeat split; reflexivity.
Qed.

Lemma reachable_inv (st : CupyState) :
  reachable substitute compiler_accepts module_defines st ->
  cache_inv substitute st.
Proof using Type.
  induction 1 as [|st st' dev name code kw r Hreach IH Hload].
  - apply cache_inv_init.
  - exact (proj1 (load_kernel_spec _ _ _ _ _ _ _ IH Hload)).
Qed.



End LoadKernelProperties.


(** Two requests for the kernels ["f"] and ["g"] of one source text: the
    text is compiled once and both handles share the module. *)
Example load_kernel_two_names :
  let sub := fun code (_ : gmap string string) => Ok code in
  let acc := fun _ : string => true in
  let def := fun _ _ : string => true in
  let '(r1, st1) := load_kernel sub acc def initial_state 0 "f" "src" ∅ in
  let '(r2, st2) := load_kernel sub acc def st1 0 "g" "src" ∅ in
  r1 = Ok (mkHandle (mkModule 0 "src") "f") /\
  r2 = Ok (mkHandle (mkModule 0 "src") "g") /\
  compile_log st2 = [(0%nat, "src"%string)].
Proof. vm_compute. repeat split. Qed.

(** * Further properties of the module *)

(** ** Grid sizing *)

(** X5. [Periodize.GET_BLOCKS] is the ceiling of [N / threads]: the least number
    of blocks of [threads] threads that cover [N] elements. *)
Theorem GET_BLOCKS_least_cover (N threads : Z) :
  0 < threads ->
  N <= GET_BLOCKS N threads * threads /\
  forall g, N <= g * threads -> GET_BLOCKS N threads <= g.
Proof.
  intros Ht. unfold GET_BLOCKS.
  pose proof (Z.div_mod (N + threads - 1) threads ltac:(lia)) as Hd.
  pose proof (Z.mod_pos_bound (N + threads - 1) threads Ht) as Hm.
  split; [nia|].
  intros g Hg.
  assert (Hlt : (N + threads - 1) / threads < g + 1); [|lia].
  apply Z.div_lt_upper_bound; [assumption|]. nia.
Qed.

Lemma GET_BLOCKS_least_cover_witness :
  0 < 32 /\
  (33 <= GET_BLOCKS 33 32 * 32 /\
   forall g, 33 <= g * 32 -> GET_BLOCKS 33 32 <= g).
Proof.
  split; [lia|]. apply (GET_BLOCKS_least_cover 33 32). lia.
Defined.

(** X14. [Modulus.GET_BLOCKS] with the block size set by [__init__]: every
    element index below [N] is the index of exactly one thread of the
    launch, given by its block and its place in the block. *)
Theorem Modulus_launch_covers_once (jit : bool) (N i : Z) :
  0 <= i < N ->
  exists b t,
    0 <= b < Modulus_GET_BLOCKS (Modulus_init jit) N /\
    0 <= t < CUDA_NUM_THREADS (Modulus_init jit) /\
    b * CUDA_NUM_THREADS (Modulus_init jit) + t = i /\
    forall b' t',
      0 <= t' < CUDA_NUM_THREADS (Modulus_init jit) ->
      b' * CUDA_NUM_THREADS (Modulus_init jit) + t' = i ->
      b' = b /\ t' = t.
Proof.
  intros Hi. unfold Modulus_GET_BLOCKS. cbn [Modulus_init CUDA_NUM_THREADS].
  exists (i / 1024), (i mod 1024).
  pose proof (Z.div_mod i 1024 ltac:(lia)).
  pose proof (Z.mod_pos_bound i 1024 ltac:(lia)).
  pose proof (Z.div_mod (N + 1024 - 1) 1024 ltac:(lia)).
  pose proof (Z.mod_pos_bound (N + 1024 - 1) 1024 ltac:(lia)).
  repeat split; lia.
Qed.

Lemma Modulus_launch_covers_once_witness :
  0 <= 2000 < 2049 /\
  exists b t,
    0 <= b < Modulus_GET_BLOCKS (Modulus_init true) 2049 /\
    0 <= t < CUDA_NUM_THREADS (Modulus_init true) /\
    b * CUDA_NUM_THREADS (Modulus_init true) + t = 2000 /\
    forall b' t',
      0 <= t' < CUDA_NUM_THREADS (Modulus_init true) ->
      b' * CUDA_NUM_THREADS (Modulus_init true) + t' = 2000 ->
      b' = b /\ t' = t.
Proof.
  split; [lia|]. apply (Modulus_launch_covers_once true 2049 2000). lia.
Defined.

(** ** Periodize: errors *)

Lemma size_at_ok (t : Tensor) (d : Z) :
  0 <= d < ndimension t ->
  size_at t d = Ok (nth (Z.to_nat d) (size t) 0).
Proof.
  intros Hd. unfold size_at.
  destruct (Z.ltb_spec d 0); [lia|].
  destruct (Z.ltb_spec d 0); [lia|].
  destruct (Z.leb_spec (ndimension t) d); [lia|]. reflexivity.
Qed.

Lemma size_at_out (t : Tensor) (d : Z) :
  0 <= d -> ndimension t <= d -> size_at t d = Raise IndexError.
Proof.
  intros Hd Hn. unfold size_at.
  destruct (Z.ltb_spec d 0); [lia|].
  destruct (Z.ltb_spec d 0); [lia|].
  destruct (Z.leb_spec (ndimension t) d); [|lia]. reflexivity.
Qed.

(** X6. A zero factor raises [ZeroDivisionError] on every path, for every input
    of rank at least 3: the output extents are computed before the paths
    part. *)
Theorem Periodize_zero_factor (self : Periodize) (junk : Z -> R)
    (input : Tensor) :
  3 <= ndimension input ->
  Periodize_call self junk input 0 = Raise ZeroDivisionError.
Proof.
  intros Hn. unfold Periodize_call.
  rewrite !size_at_ok by lia. reflexivity.
Qed.

Lemma Periodize_zero_factor_witness :
  3 <= ndimension host_3x3 /\
  Periodize_call (Periodize_init true) (fun _ => 0%R) host_3x3 0
    = Raise ZeroDivisionError.
Proof.
  split; [vm_compute; discriminate|].
  apply (Periodize_zero_factor (Periodize_init true) (fun _ => 0%R) host_3x3).
  vm_compute. discriminate.
Defined.

(** X7. An input of rank below 4 raises [IndexError] on every path, whatever
    the nonzero factor: the four leading extents are read first. *)
Theorem Periodize_low_rank (self : Periodize) (junk : Z -> R)
    (input : Tensor) (k : Z) :
  ndimension input < 4 -> k <> 0 ->
  Periodize_call self junk input k = Raise IndexError.
Proof.
  intros Hn Hk. unfold Periodize_call.
  assert (H0 : 0 <= ndimension input) by (unfold ndimension; lia).
  destruct (Z.le_gt_cases (ndimension input) 0).
  { rewrite (size_at_out input 0) by lia. reflexivity. }
  rewrite (size_at_ok input 0) by lia. cbn [rbind].
  destruct (Z.le_gt_cases (ndimension input) 1).
  { rewrite (size_at_out input 1) by lia. reflexivity. }
  rewrite (size_at_ok input 1) by lia. cbn [rbind].
  destruct (Z.le_gt_cases (ndimension input) 2).
  { rewrite (size_at_out input 2) by lia. reflexivity. }
  rewrite (size_at_ok input 2) by lia. cbn [rbind].
  unfold py_floordiv at 1. destruct (Z.eqb_spec k 0); [contradiction|].
  cbn [rbind]. rewrite (size_at_out input 3) by lia. reflexivity.
Qed.

Lemma Periodize_low_rank_witness :
  ndimension host_rank3 < 4 /\ 2 <> 0 /\
  Periodize_call (Periodize_init true) (fun _ => 0%R) host_rank3 2
    = Raise IndexError.
Proof.
  split; [vm_compute; reflexivity|]. split; [lia|].
  apply (Periodize_low_rank (Periodize_init true) (fun _ => 0%R) host_rank3 2).
  - vm_compute. reflexivity.
  - lia.
Defined.

(** X8. On the kernel path (device-resident input, [jit] set) an input of shape
    [(B, C, H, W, L)] with [L] other than 2 raises the [TypeError] of the
    [iscomplex] test: no kernel is launched. *)
Theorem Periodize_kernel_path_type_error (junk : Z -> R) (input : Tensor)
    (B C H W L k : Z) :
  size input = [B; C; H; W; L] ->
  is_cuda input = true ->
  0 <= B -> 0 <= C -> 0 <= H -> 0 <= W -> 0 < k ->
  L <> 2 ->
  Periodize_call (Periodize_init true) junk input k =
    Raise (TypeError "The input and outputs should be complex").
Proof.
  intros Hsize Hcuda HB HC HH HW Hk HL.
  pose proof (Z.div_pos H k HH Hk). pose proof (Z.div_pos W k HW Hk).
  unfold Periodize_call. rewrite_size_5 Hsize. cbn [rbind].
  unfold py_floordiv at 1 2.
  destruct (Z.eqb_spec k 0) as [?|_]; [lia|]. cbn [rbind].
  unfold tensor_new. cbn [forallb]. nonneg_leb.
  cbn [andb rbind]. rewrite Hcuda. cbn [Periodize_init p_jit negb orb].
  unfold iscomplex. rewrite_size_5 Hsize. cbn [rbind].
  destruct (Z.eqb_spec L 2); [contradiction|]. reflexivity.
Qed.

Lemma Periodize_kernel_path_type_error_witness :
  size cuda_2x2_triples = [1; 1; 2; 2; 3] /\
  is_cuda cuda_2x2_triples = true /\
  0 <= 1 /\ 0 <= 1 /\ 0 <= 2 /\ 0 <= 2 /\ 0 < 2 /\ 3 <> 2 /\
  Periodize_call (Periodize_init true) (fun _ => 0%R) cuda_2x2_triples 2 =
    Raise (TypeError "The input and outputs should be complex").
Proof.
  split; [reflexivity|]. split; [reflexivity|].
  split; [lia|]. split; [lia|]. split; [lia|]. split; [lia|].
  split; [lia|]. split; [lia|].
  apply (Periodize_kernel_path_type_error (fun _ => 0%R) cuda_2x2_triples
           1 1 2 2 3 2); try reflexivity; lia.
Defined.

(** ** Modulus *)

(** X15. On the kernel path a device-resident input whose trailing axis is not a
    pair raises the [TypeError] of the [iscomplex] test: no kernel is
    launched. *)
Theorem Modulus_kernel_path_type_error (junk : Z -> R) (input : Tensor)
    (lead : list Z) (L : Z) :
  size input = lead ++ [L] ->
  Forall (fun d => 0 <= d) lead -> 0 <= L ->
  is_cuda input = true ->
  L <> 2 ->
  Modulus_call (Modulus_init true) junk input =
    Raise (TypeError "The input and outputs should be complex").
Proof.
  intros Hsize Hlead HL0 Hcuda HL. unfold Modulus_call. rewrite Hcuda.
  cbn [Modulus_init m_jit negb orb]. unfold tensor_new. rewrite Hsize.
  rewrite forallb_nonneg.
  2:{ apply Forall_app. split; [assumption|]. constructor; [lia|constructor]. }
  cbn [rbind]. unfold iscomplex.
  rewrite (size_at_last (contiguous input) lead L) by exact Hsize.
  cbn [rbind]. destruct (Z.eqb_spec L 2); [contradiction|]. reflexivity.
Qed.

Lemma Modulus_kernel_path_type_error_witness :
  size cuda_triple_1x3 = [1] ++ [3] /\
  Forall (fun d => 0 <= d) [1] /\ 0 <= 3 /\
  is_cuda cuda_triple_1x3 = true /\
  3 <> 2 /\
  Modulus_call (Modulus_init true) (fun _ => 0%R) cuda_triple_1x3 =
    Raise (TypeError "The input and outputs should be complex").
Proof.
  split; [reflexivity|]. split; [repeat constructor; lia|]. split; [lia|].
  split; [reflexivity|]. split; [lia|].
  apply (Modulus_kernel_path_type_error (fun _ => 0%R) cuda_triple_1x3 [1] 3);
    try reflexivity; try lia.
  repeat constructor; lia.
Defined.

Lemma Modulus_portable_cells (self : Modulus) (junk : Z -> R)
    (input : Tensor) (lead : list Z) (L : Z) :
  size input = lead ++ [L] ->
  Forall (fun d => 0 <= d) lead ->
  negb (m_jit self) || negb (is_cuda input) = true ->
  exists out,
    Modulus_call self junk input = Ok out /\
    size out = lead ++ [2] /\
    ttype out = ttype input /\
    forall q, 0 <= q < prodZ lead ->
      rd (data out) (2 * q) = norm_at (data input) (q * L) L /\
      rd (data out) (2 * q + 1) = 0%R.
Proof.
  intros Hsize Hlead Hpath.
  rewrite (Modulus_portable_ok self junk input lead L Hsize Hlead Hpath).
  eexists. split; [reflexivity|]. split; [reflexivity|].
  split; [reflexivity|]. intros q Hq. cbn [data].
  exact (rd_flat_map_pairs (fun p => norm_at (data input) (p * L) L)
           (fun _ => 0%R) (prodZ lead) q Hq).
Qed.

(** X16. On the portable path the trailing axis may have any length [L]: the
    result has the leading extents of the input and a trailing pair, whose
    first component is the Euclidean norm of the [L] scalars of the
    corresponding row and whose second component is zero. *)
Theorem Modulus_portable_any_trailing_axis (self : Modulus) (junk : Z -> R)
    (input : Tensor) (lead : list Z) (L : Z) :
  size input = lead ++ [L] ->
  Forall (fun d => 0 <= d) lead ->
  negb (m_jit self) || negb (is_cuda input) = true ->
  exists out,
    Modulus_call self junk input = Ok out /\
    size out = lead ++ [2] /\
    ttype out = ttype input /\
    forall q, 0 <= q < prodZ lead ->
      rd (data out) (2 * q) = norm_at (data input) (q * L) L /\
      rd (data out) (2 * q + 1) = 0%R.
Proof. exact (Modulus_portable_cells self junk input lead L). Qed.

Lemma Modulus_portable_any_trailing_axis_witness :
  size triple_1x3 = [1] ++ [3] /\
  Forall (fun d => 0 <= d) [1] /\
  negb (m_jit (Modulus_init true)) || negb (is_cuda triple_1x3) = true /\
  exists out,
    Modulus_call (Modulus_init true) (fun _ => 0%R) triple_1x3 = Ok out /\
    size out = [1] ++ [2] /\
    ttype out = ttype triple_1x3 /\
    forall q, 0 <= q < prodZ [1] ->
      rd (data out) (2 * q) = norm_at (data triple_1x3) (q * 3) 3 /\
      rd (data out) (2 * q + 1) = 0%R.
Proof.
  split; [reflexivity|]. split; [repeat constructor; lia|].
  split; [reflexivity|].
  apply (Modulus_portable_any_trailing_axis (Modulus_init true)
           (fun _ => 0%R) triple_1x3 [1] 3); try reflexivity.
  repeat constructor; lia.
Defined.

(** X17. [Modulus] is idempotent: applied to its own result, on either
    path, it returns the same pairs. Where a call takes the kernel path the
    input is a device-resident float tensor that is not empty and that the
    kernel's [int] can index. *)
Theorem Modulus_idempotent (jit jit' : bool) (junk junk' : Z -> R)
    (input : Tensor) (lead : list Z) :
  size input = lead ++ [2] ->
  Forall (fun d => 0 <= d) lead ->
  ((jit || jit') && is_cuda input = true ->
   ttype input = CudaFloatTensor /\ 0 < prodZ lead /\
   nelement input < 2 ^ 31) ->
  exists out out',
    Modulus_call (Modulus_init jit) junk input = Ok out /\
    Modulus_call (Modulus_init jit') junk' out = Ok out' /\
    size out' = size out /\
    forall q, 0 <= q < prodZ lead ->
      rd (data out') (2 * q) = rd (data out) (2 * q) /\
      rd (data out') (2 * q + 1) = rd (data out) (2 * q + 1).
Proof.
  intros Hsize Hlead Hfit.
  destruct (Modulus_call_cells jit junk input lead Hsize Hlead)
    as [out (Hcall & Hs & Ht & Hc)].
  { intros Hb. apply andb_prop in Hb. destruct Hb as [-> Hcu].
    apply Hfit. now rewrite Hcu. }
  destruct (Modulus_call_cells jit' junk' out lead Hs Hlead)
    as [out' (Hcall' & Hs' & Ht' & Hc')].
  { intros Hb. apply andb_prop in Hb. destruct Hb as [-> Hcu].
    assert (Hcu' : is_cuda input = true)
      by (unfold is_cuda in *; now rewrite <- Ht).
    destruct Hfit as (Hty & Hpos & Hn);
      [rewrite Hcu'; now destruct jit|].
    split; [now rewrite Ht|]. split; [assumption|].
    unfold nelement in *. now rewrite Hs, <- Hsize. }
  exists out, out'. split; [exact Hcall|]. split; [exact Hcall'|].
  split; [now rewrite Hs, Hs'|].
  intros q Hq. destruct (Hc q Hq) as [Hre Him].
  destruct (Hc' q Hq) as [Hre' Him'].
  rewrite Hre', Him', Him. split; [|reflexivity].
  rewrite Rmult_0_l, Rplus_0_r, Hre. apply sqrt_square. apply sqrt_pos.
Qed.

Lemma Modulus_idempotent_witness :
  size cuda_batch_1x1 = [1; 1] ++ [2] /\
  Forall (fun d => 0 <= d) [1; 1] /\
  ((true || true) && is_cuda cuda_batch_1x1 = true ->
   ttype cuda_batch_1x1 = CudaFloatTensor /\ 0 < prodZ [1; 1] /\
   nelement cuda_batch_1x1 < 2 ^ 31) /\
  exists out out',
    Modulus_call (Modulus_init true) (fun _ => 0%R) cuda_batch_1x1 = Ok out /\
    Modulus_call (Modulus_init true) (fun _ => 1%R) out = Ok out' /\
    size out' = size out /\
    forall q, 0 <= q < prodZ [1; 1] ->
      rd (data out') (2 * q) = rd (data out) (2 * q) /\
      rd (data out') (2 * q + 1) = rd (data out) (2 * q + 1).
Proof.
  assert (Hk : (true || true) && is_cuda cuda_batch_1x1 = true ->
               ttype cuda_batch_1x1 = CudaFloatTensor /\ 0 < prodZ [1; 1] /\
               nelement cuda_batch_1x1 < 2 ^ 31).
  { intros _. split; [reflexivity|]. split; reflexivity. }
  split; [reflexivity|]. split; [repeat constructor; lia|].
  split; [exact Hk|].
  apply (Modulus_idempotent true true (fun _ => 0%R) (fun _ => 1%R)
           cuda_batch_1x1 [1; 1]).
  - reflexivity.
  - repeat constructor; lia.
  - exact Hk.
Defined.

(** X25. For a complex input, [Modulus] returns a tensor of the shape of
    the input whose pair number [q] is [(sqrt (re * re + im * im), 0)] for
    the pair [(re, im)] number [q] of the input: on the portable path for
    every class of tensors, and on the kernel path for a device-resident
    float tensor that is not empty and whose scalars the kernel's [int] can
    index. *)
Theorem Modulus_returns_modulus (jit : bool) (junk : Z -> R) (input : Tensor)
    (lead : list Z) :
  size input = lead ++ [2] ->
  Forall (fun d => 0 <= d) lead ->
  (jit && is_cuda input = true ->
   ttype input = CudaFloatTensor /\ 0 < prodZ lead /\
   nelement input < 2 ^ 31) ->
  exists out,
    Modulus_call (Modulus_init jit) junk input = Ok out /\
    size out = size input /\
    forall q, 0 <= q < prodZ lead ->
      rd (data out) (2 * q) =
        sqrt (rd (data input) (2 * q) * rd (data input) (2 * q)
              + rd (data input) (2 * q + 1) * rd (data input) (2 * q + 1)) /\
      rd (data out) (2 * q + 1) = 0%R.
Proof.
  intros Hsize Hlead Hfit.
  destruct (Modulus_call_cells jit junk input lead Hsize Hlead Hfit)
    as [out (Hcall & Hs & _ & Hc)].
  exists out. split; [exact Hcall|]. split; [now rewrite Hs, Hsize|exact Hc].
Qed.

Lemma Modulus_returns_modulus_witness :
  size cuda_batch_1x1 = [1; 1] ++ [2] /\
  Forall (fun d => 0 <= d) [1; 1] /\
  (true && is_cuda cuda_batch_1x1 = true ->
   ttype cuda_batch_1x1 = CudaFloatTensor /\ 0 < prodZ [1; 1] /\
   nelement cuda_batch_1x1 < 2 ^ 31) /\
  exists out,
    Modulus_call (Modulus_init true) (fun _ => 0%R) cuda_batch_1x1 = Ok out /\
    size out = size cuda_batch_1x1 /\
    forall q, 0 <= q < prodZ [1; 1] ->
      rd (data out) (2 * q) =
        sqrt (rd (data cuda_batch_1x1) (2 * q)
              * rd (data cuda_batch_1x1) (2 * q)
              + rd (data cuda_batch_1x1) (2 * q + 1)
                * rd (data cuda_batch_1x1) (2 * q + 1)) /\
      rd (data out) (2 * q + 1) = 0%R.
Proof.
  assert (Hk : true && is_cuda cuda_batch_1x1 = true ->
               ttype cuda_batch_1x1 = CudaFloatTensor /\ 0 < prodZ [1; 1] /\
               nelement cuda_batch_1x1 < 2 ^ 31).
  { intros _. split; [reflexivity|]. split; reflexivity. }
  split; [reflexivity|]. split; [repeat constructor; lia|].
  split; [exact Hk|].
  apply (Modulus_returns_modulus true (fun _ => 0%R) cuda_batch_1x1 [1; 1]).
  - reflexivity.
  - repeat constructor; lia.
  - exact Hk.
Defined.

(** ** Fft *)

Section FftExtras.

Variable torch_ifft : Tensor -> Z -> bool -> Result Tensor.
Variable torch_irfft : Tensor -> Z -> bool -> bool -> list Z -> Result Tensor.

(** X18. [Fft.__call__] reaches the tensor runtime exactly when the input is
    complex and contiguous and the direction is ['C2R'] or ['C2C']; it then
    issues one call, on the input itself, over 2 signal dimensions and not
    normalized: [irfft] (two-sided, with the full shape of the input as
    signal sizes) for ['C2R'] and [ifft] for ['C2C']. *)
Theorem Fft_runtime_calls (input : Tensor) (direction : string)
    (inverse : bool) :
  let calls := fst (Fft_call torch_ifft torch_irfft input direction inverse) in
  (length calls <= 1)%nat /\
  (calls <> [] <->
   iscomplex input = Ok true /\ is_contiguous input = true /\
   (direction = "C2R"%string \/ direction = "C2C"%string)) /\
  forall c, In c calls ->
    match c with
    | call_ifft t n nz =>
        t = input /\ n = 2 /\ nz = false /\ direction = "C2C"%string
    | call_irfft t n nz os ss =>
        t = input /\ n = 2 /\ nz = false /\ os = false /\
        ss = size input /\ direction = "C2R"%string
    end.
Proof using Type.
  unfold Fft_call.
  destruct (iscomplex input) as [[|]|e] eqn:Hc; cbn;
    try (split; [lia|]; split;
         [split; [congruence|intros (H & _); congruence]|
          intros c []]).
  destruct (is_contiguous input) eqn:Hk; cbn.
  2:{ split; [lia|]. split.
      - split; [congruence|intros (_ & H & _); congruence].
      - intros c []. }
  destruct (String.eqb direction "C2R") eqn:Hr.
  { apply String.eqb_eq in Hr. cbn. split; [lia|]. split.
    - split; [auto|discriminate].
    - intros c [<-|[]]. repeat split; auto. }
  apply String.eqb_neq in Hr.
  destruct (String.eqb direction "C2C") eqn:Hcc.
  { apply String.eqb_eq in Hcc.
    assert (Hcalls : fst (if inverse
              then ([call_ifft input 2 false],
                    rmap OutTensor (torch_ifft input 2 false))
              else ([call_ifft input 2 false],
                    rmap OutTensor (torch_ifft input 2 false)))
            = [call_ifft input 2 false]) by (destruct inverse; reflexivity).
    rewrite Hcalls. cbn. split; [lia|]. split.
    - split; [auto|discriminate].
    - intros c [<-|[]]. repeat split; auto. }
  apply String.eqb_neq in Hcc. cbn. split; [lia|]. split.
  - split; [congruence|]. intros (_ & _ & [H|H]); contradiction.
  - intros c [].
Qed.

(** X19. The tests on the input come before the dispatch on the direction: an
    input that is not complex or not contiguous makes [Fft.__call__] raise
    whatever the direction, known or not, without any runtime call; the
    complex test comes first, so that a non-complex input gives the
    [TypeError] even when it is not contiguous either. *)
Theorem Fft_rejects_invalid_input (input : Tensor) (direction : string)
    (inverse : bool) :
  iscomplex input <> Ok true \/ is_contiguous input = false ->
  exists e,
    Fft_call torch_ifft torch_irfft input direction inverse = ([], Raise e) /\
    (iscomplex input = Ok false ->
     e = TypeError
           "The input should be complex (e.g. last dimension is 2)") /\
    (iscomplex input = Ok true ->
     e = RuntimeError "Tensors must be contiguous!").
Proof using Type.
  intros Hbad. unfold Fft_call.
  destruct (iscomplex input) as [[|]|e] eqn:Hc.
  - destruct Hbad as [Hbad|Hbad]; [congruence|]. rewrite Hbad. cbn.
    eexists. split; [reflexivity|]. split; [discriminate|reflexivity].
  - eexists. split; [reflexivity|]. split; [reflexivity|discriminate].
  - exists e. split; [reflexivity|]. split; discriminate.
Qed.

End FftExtras.

Lemma Fft_rejects_invalid_input_witness :
  (iscomplex strided_triple <> Ok true \/
   is_contiguous strided_triple = false) /\
  exists e,
    Fft_call (fun t _ _ => Ok t) (fun t _ _ _ _ => Ok t)
             strided_triple "fft" false = ([], Raise e) /\
    (iscomplex strided_triple = Ok false ->
     e = TypeError
           "The input should be complex (e.g. last dimension is 2)") /\
    (iscomplex strided_triple = Ok true ->
     e = RuntimeError "Tensors must be contiguous!").
Proof.
  split; [right; reflexivity|].
  apply (Fft_rejects_invalid_input (fun t _ _ => Ok t) (fun t _ _ _ _ => Ok t)
           strided_triple "fft" false).
  right. reflexivity.
Defined.

(** ** load_kernel *)

Section LoadKernelExtras.

Variable substitute : string -> gmap string string -> Result string.
Variable compiler_accepts : string -> bool.
Variable module_defines : string -> string -> bool.

Abbreviation load' :=
  (load_kernel substitute compiler_accepts module_defines).

(** X2. A request that raises leaves no entry in the memo table. Either
    the substitution raised that error, or the substituted text was not
    compiled yet on the device and the compiler refused it (in both cases
    the caches are unchanged), or the module compiled from the text, which
    stays in the module cache, holds no function of the requested name.
    Repeating the request raises the same error and changes nothing
    more. *)
Theorem load_kernel_failure (st st' : CupyState) (dev : nat)
    (name code : string) (kw : gmap string string) (e : PyError) :
  reachable substitute compiler_accepts module_defines st ->
  load' st dev name code kw = (Raise e, st') ->
  memo st' = memo st /\
  memo st !! (dev, (name, code, kw)) = None /\
  ((substitute code kw = Raise e /\ st' = st) \/
   (exists src, substitute code kw = Ok src /\
                compiled st !! (dev, src) = None /\
                compiler_accepts src = false /\ st' = st) \/
   (exists src, substitute code kw = Ok src /\
                module_defines src name = false /\
                compiled st' !! (dev, src) = Some (mkModule dev src))) /\
  load' st' dev name code kw = (Raise e, st').
Proof using Type.
  intros Hreach Hload.
  pose proof (reachable_inv substitute compiler_accepts module_defines st
                Hreach) as Hinv.
  destruct (load_kernel_spec _ _ _ _ _ _ _ _ _ _ Hinv Hload)
    as (_ & Hmemo & Hmiss & Hwhy).
  split; [exact Hmemo|]. split; [exact Hmiss|].
  destruct Hwhy as [(Hs & ->)|[(src & Hs & Hc & Ha & ->)
                              |(src & Hs & Hd & Hc & Hget)]].
  - split; [now left|exact Hload].
  - split; [right; left; eauto|exact Hload].
  - split; [right; right; eauto|].
    unfold load_kernel, compile_with_cache.
    rewrite Hmemo, Hmiss, Hs, Hc, Hget. reflexivity.
Qed.

(** X1. In every state that requests can produce from the empty caches, a
    request that succeeds returns a handle for the requested kernel name,
    in a module of the current device whose source is the substituted
    text; this holds also when the handle comes from the memo table. *)
Theorem load_kernel_handle (st st' : CupyState) (dev : nat)
    (name code : string) (kw : gmap string string) (h : KernelHandle) :
  reachable substitute compiler_accepts module_defines st ->
  load' st dev name code kw = (Ok h, st') ->
  exists src,
    substitute code kw = Ok src /\
    kh_name h = name /\
    mod_device (kh_module h) = dev /\
    mod_source (kh_module h) = src.
Proof using Type.
  intros Hreach Hload.
  pose proof (reachable_inv substitute compiler_accepts module_defines st
                Hreach) as Hinv.
  destruct (load_kernel_spec _ _ _ _ _ _ _ _ _ _ Hinv Hload)
    as (_ & src & Hs & -> & _).
  exists src. repeat split; auto.
Qed.

(** X3. The caches never evict: a request, whatever its outcome, keeps
    every entry of the memo table and of the module cache, and only
    appends to the log of compilations, by at most one entry. *)
Theorem load_kernel_caches_grow (st st' : CupyState) (dev : nat)
    (name code : string) (kw : gmap string string)
    (r : Result KernelHandle) :
  load' st dev name code kw = (r, st') ->
  memo st ⊆ memo st' /\
  compiled st ⊆ compiled st' /\
  exists new, compile_log st' = compile_log st ++ new /\
              (length new <= 1)%nat.
Proof using Type.
  unfold load_kernel, compile_with_cache.
  destruct (memo st !! (dev, (name, code, kw))) as [h|] eqn:Hm.
  { intros Heq. inversion Heq. subst.
    split; [reflexivity|]. split; [reflexivity|].
    exists []. rewrite app_nil_r. split; [reflexivity|cbn; lia]. }
  destruct (substitute code kw) as [src|e] eqn:Hs.
  2:{ intros Heq. inversion Heq. subst.
      split; [reflexivity|]. split; [reflexivity|].
      exists []. rewrite app_nil_r. split; [reflexivity|cbn; lia]. }
  destruct (compiled st !! (dev, src)) as [m|] eqn:Hc.
  { destruct (get_function module_defines m name) as [h|e];
      intros Heq; inversion Heq; subst; cbn.
    - split; [now apply insert_subseteq|]. split; [reflexivity|].
      exists []. rewrite app_nil_r. split; [reflexivity|cbn; lia].
    - split; [reflexivity|]. split; [reflexivity|].
      exists []. rewrite app_nil_r. split; [reflexivity|cbn; lia]. }
  destruct (compiler_accepts src).
  - destruct (get_function module_defines (mkModule dev src) name)
      as [h|e]; intros Heq; inversion Heq; subst; cbn.
    + split; [now apply insert_subseteq|].
      split; [now apply insert_subseteq|].
      exists [(dev, src)]. split; [reflexivity|cbn; lia].
    + split; [reflexivity|].
      split; [now apply insert_subseteq|].
      exists [(dev, src)]. split; [reflexivity|cbn; lia].
  - intros Heq. inversion Heq. subst.
    split; [reflexivity|]. split; [reflexivity|].
    exists []. rewrite app_nil_r. split; [reflexivity|cbn; lia].
Qed.

(** X4. The caches are kept per device: a request on one device leaves the
    entries of every other device as they were, so that the handle a
    device obtained is never served to another one. *)
Theorem load_kernel_other_devices (st st' : CupyState) (dev dev' : nat)
    (name code : string) (kw : gmap string string)
    (r : Result KernelHandle) :
  dev' <> dev ->
  load' st dev name code kw = (r, st') ->
  (forall key, memo st' !! (dev', key) = memo st !! (dev', key)) /\
  (forall src, compiled st' !! (dev', src) = compiled st !! (dev', src)) /\
  (forall src, (dev', src) ∈ compile_log st' <->
               (dev', src) ∈ compile_log st).
Proof using Type.
  intros Hne. unfold load_kernel, compile_with_cache.
  destruct (memo st !! (dev, (name, code, kw))) as [h|] eqn:Hm.
  { intros Heq. inversion Heq. subst. repeat split; auto. }
  destruct (substitute code kw) as [src|e] eqn:Hs.
  2:{ intros Heq. inversion Heq. subst. repeat split; auto. }
  destruct (compiled st !! (dev, src)) as [m|] eqn:Hc.
  { destruct (get_function module_defines m name) as [h|e];
      intros Heq; inversion Heq; subst; cbn.
    - split; [|split; [reflexivity|reflexivity]].
      intros key. apply lookup_insert_ne. congruence.
    - repeat split; auto. }
  destruct (compiler_accepts src).
  - assert (Hlog : forall src', (dev', src') ∈ compile_log st ++ [(dev, src)]
                     <-> (dev', src') ∈ compile_log st).
    { intros src'. rewrite elem_of_app, list_elem_of_singleton.
      split; [|now left]. intros [H|H]; [assumption|congruence]. }
    destruct (get_function module_defines (mkModule dev src) name)
      as [h|e]; intros Heq; inversion Heq; subst; cbn.
    + split; [|split; [|exact Hlog]].
      * intros key. apply lookup_insert_ne. congruence.
      * intros src'. apply lookup_insert_ne. congruence.
    + split; [reflexivity|]. split; [|exact Hlog].
      intros src'. apply lookup_insert_ne. congruence.
  - intros Heq. inversion Heq. subst. repeat split; auto.
Qed.

End LoadKernelExtras.

Lemma load_kernel_failure_witness :
  reachable (fun code _ => Ok code) (fun _ => true) (fun _ _ => false)
            initial_state /\
  load_kernel (fun code _ => Ok code) (fun _ => true) (fun _ _ => false)
              initial_state 0 "periodize" "src" ∅
    = (Raise (CUDADriverError "CUDA_ERROR_NOT_FOUND: named symbol not found"),
       state_after_compile) /\
  (memo state_after_compile = memo initial_state /\
   memo initial_state !! (0%nat, ("periodize"%string, "src"%string,
                                  (∅ : gmap string string))) = None /\
   (((fun code (_ : gmap string string) => Ok code) "src"%string ∅
       = Raise (CUDADriverError
                  "CUDA_ERROR_NOT_FOUND: named symbol not found") /\
     state_after_compile = initial_state) \/
    (exists src,
       (fun code (_ : gmap string string) => Ok code) "src"%string ∅
         = Ok src /\
       compiled initial_state !! (0%nat, src) = None /\
       (fun _ : string => true) src = false /\
       state_after_compile = initial_state) \/
    (exists src,
       (fun code (_ : gmap string string) => Ok code) "src"%string ∅
         = Ok src /\
       (fun _ _ : string => false) src "periodize"%string = false /\
       compiled state_after_compile !! (0%nat, src)
         = Some (mkModule 0 src))) /\
   load_kernel (fun code _ => Ok code) (fun _ => true) (fun _ _ => false)
               state_after_compile 0 "periodize" "src" ∅
     = (Raise (CUDADriverError "CUDA_ERROR_NOT_FOUND: named symbol not found"),
        state_after_compile)).
Proof.
  split; [apply reach_init|]. split; [reflexivity|].
  apply (load_kernel_failure (fun code _ => Ok code) (fun _ => true)
           (fun _ _ => false) initial_state state_after_compile
           0 "periodize" "src" ∅ _ (reach_init _ _ _)).
  reflexivity.
Defined.

Lemma load_kernel_handle_witness :
  reachable (fun code _ => Ok code) (fun _ => true) (fun _ _ => true)
            initial_state /\
  load_kernel (fun code _ => Ok code) (fun _ => true) (fun _ _ => true)
              initial_state 0 "periodize" "src" ∅
    = (Ok periodize_handle, state_after_periodize) /\
  exists src,
    (fun code (_ : gmap string string) => Ok code) "src"%string ∅ = Ok src /\
    kh_name periodize_handle = "periodize"%string /\
    mod_device (kh_module periodize_handle) = 0%nat /\
    mod_source (kh_module periodize_handle) = src.
Proof.
  split; [apply reach_init|]. split; [reflexivity|].
  apply (load_kernel_handle (fun code _ => Ok code) (fun _ => true)
           (fun _ _ => true) initial_state state_after_periodize
           0 "periodize" "src" ∅ periodize_handle (reach_init _ _ _)).
  reflexivity.
Defined.

Lemma load_kernel_caches_grow_witness :
  load_kernel (fun code _ => Ok code) (fun _ => true) (fun _ _ => true)
              initial_state 0 "periodize" "src" ∅
    = (Ok periodize_handle, state_after_periodize) /\
  (memo initial_state ⊆ memo state_after_periodize /\
   compiled initial_state ⊆ compiled state_after_periodize /\
   exists new,
     compile_log state_after_periodize = compile_log initial_state ++ new /\
     (length new <= 1)%nat).
Proof.
  split; [reflexivity|].
  apply (load_kernel_caches_grow (fun code _ => Ok code) (fun _ => true)
           (fun _ _ => true) initial_state state_after_periodize
           0 "periodize" "src" ∅ (Ok periodize_handle)).
  reflexivity.
Defined.

Lemma load_kernel_other_devices_witness :
  1%nat <> 0%nat /\
  load_kernel (fun code _ => Ok code) (fun _ => true) (fun _ _ => true)
              initial_state 0 "periodize" "src" ∅
    = (Ok periodize_handle, state_after_periodize) /\
  ((forall key, memo state_after_periodize !! (1%nat, key)
                = memo initial_state !! (1%nat, key)) /\
   (forall src, compiled state_after_periodize !! (1%nat, src)
                = compiled initial_state !! (1%nat, src)) /\
   (forall src, (1%nat, src) ∈ compile_log state_after_periodize <->
                (1%nat, src) ∈ compile_log initial_state)).
Proof.
  split; [discriminate|]. split; [reflexivity|].
  apply (load_kernel_other_devices (fun code _ => Ok code) (fun _ => true)
           (fun _ _ => true) initial_state state_after_periodize 0 1
           "periodize" "src" ∅ (Ok periodize_handle)).
  - discriminate.
  - reflexivity.
Defined.

(** ** Periodize: the two paths, and the factor 1 *)

(** X12. For a contiguous device-resident complex input of shape
    [(B, C, H, W, 2)] with [k] dividing [H] and [W], whose element count the
    kernel's [int] can index, whose launch the device accepts (between 1 and
    65535 images, at most 65535 blocks along y) and whose folded extents
    [H / k] and [W / k] need the same number of blocks of 32 threads (square
    inputs among them), the kernel writes every cell of the output: the
    kernel path returns the shape and the cells of the portable path,
    whatever the uninitialised memory held. *)
Theorem Periodize_paths_agree (junk junk' : Z -> R) (input : Tensor)
    (Bt C H W k : Z) :
  size input = [Bt; C; H; W; 2] ->
  is_cuda input = true ->
  is_contiguous input = true ->
  0 <= Bt -> 0 <= C -> 0 < H -> 0 < W -> 0 < k ->
  (k | H) -> (k | W) ->
  Bt * C * H * W < 2 ^ 31 ->
  0 < Bt * C <= 65535 ->
  GET_BLOCKS (W / k) 32 <= 65535 ->
  GET_BLOCKS (H / k) 32 = GET_BLOCKS (W / k) 32 ->
  exists out out',
    Periodize_call (Periodize_init true) junk input k = Ok out /\
    Periodize_call (Periodize_init false) junk' input k = Ok out' /\
    size out = size out' /\
    forall bi ci i j comp,
      0 <= bi < Bt -> 0 <= ci < C -> 0 <= i < H / k -> 0 <= j < W / k ->
      0 <= comp < 2 ->
      elem out [bi; ci; i; j; comp] = elem out' [bi; ci; i; j; comp].
Proof.
  intros Hs Hcu Hct HB HC HH HW Hk HkH HkW Hfit Hgz Hgy Hgb.
  destruct (Periodize_fast_cells junk input Bt C H W k Hs Hcu HB HC HH HW Hk
              HkH HkW Hfit Hgz Hgy) as [out (Hcall & Hso & Hcells)].
  destruct (Periodize_portable_folded_mean (Periodize_init false) junk' input
              Bt C H W k Hs Hct HB HC HH HW Hk HkH HkW eq_refl)
    as [out' (Hcall' & Hso' & Hcells')].
  exists out, out'. split; [exact Hcall|]. split; [exact Hcall'|].
  split; [now rewrite Hso, Hso'|].
  intros bi ci i j comp Hbi Hci Hi Hj Hcomp.
  rewrite (Hcells bi ci i j comp Hbi Hci Hi Hj Hcomp),
          (Hcells' bi ci i j comp Hbi Hci Hi Hj Hcomp).
  pose proof (GET_BLOCKS_32 (H / k)) as HgH.
  pose proof (GET_BLOCKS_32 (W / k)) as HgW.
  destruct (Z.ltb_spec j (32 * GET_BLOCKS (H / k) 32)); [|lia].
  destruct (Z.ltb_spec i (32 * GET_BLOCKS (W / k) 32)); [|lia].
  reflexivity.
Qed.

Lemma Periodize_paths_agree_witness :
  size cuda_2x2 = [1; 1; 2; 2; 2] /\
  is_cuda cuda_2x2 = true /\
  is_contiguous cuda_2x2 = true /\
  0 <= 1 /\ 0 < 2 /\ (2 | 2) /\ 1 * 1 * 2 * 2 < 2 ^ 31 /\
  0 < 1 * 1 <= 65535 /\
  GET_BLOCKS (2 / 2) 32 <= 65535 /\
  GET_BLOCKS (2 / 2) 32 = GET_BLOCKS (2 / 2) 32 /\
  exists out out',
    Periodize_call (Periodize_init true) (fun _ => 7%R) cuda_2x2 2 = Ok out /\
    Periodize_call (Periodize_init false) (fun _ => 0%R) cuda_2x2 2
      = Ok out' /\
    size out = size out' /\
    forall bi ci i j comp,
      0 <= bi < 1 -> 0 <= ci < 1 -> 0 <= i < 2 / 2 -> 0 <= j < 2 / 2 ->
      0 <= comp < 2 ->
      elem out [bi; ci; i; j; comp] = elem out' [bi; ci; i; j; comp].
Proof.
  assert (Hd : (2 | 2)) by (exists 1; reflexivity).
  assert (Hg : GET_BLOCKS (2 / 2) 32 <= 65535) by (vm_compute; discriminate).
  repeat (split; [first [reflexivity | lia | exact Hd | exact Hg]|]).
  apply (Periodize_paths_agree (fun _ => 7%R) (fun _ => 0%R) cuda_2x2
           1 1 2 2 2);
    first [reflexivity | lia | exact Hd | exact Hg].
Defined.

(** X9. Folding by the factor 1 on the portable path is the identity: the
    result has the shape and the cells of the input. *)
Theorem Periodize_factor_one (self : Periodize) (junk : Z -> R)
    (input : Tensor) (Bt C H W : Z) :
  size input = [Bt; C; H; W; 2] ->
  is_contiguous input = true ->
  0 <= Bt -> 0 <= C -> 0 < H -> 0 < W ->
  negb (p_jit self) || negb (is_cuda input) = true ->
  exists out,
    Periodize_call self junk input 1 = Ok out /\
    size out = size input /\
    forall bi ci i j comp,
      0 <= bi < Bt -> 0 <= ci < C -> 0 <= i < H -> 0 <= j < W ->
      0 <= comp < 2 ->
      elem out [bi; ci; i; j; comp] = elem input [bi; ci; i; j; comp].
Proof.
  intros Hs Hct HB HC HH HW Hpath.
  destruct (Periodize_portable_folded_mean self junk input Bt C H W 1 Hs Hct
              HB HC HH HW ltac:(lia) (Z.divide_1_l H) (Z.divide_1_l W) Hpath)
    as [out (Hcall & Hso & Hcells)].
  rewrite !Z.div_1_r in *.
  exists out. split; [exact Hcall|]. split; [now rewrite Hso, Hs|].
  intros bi ci i j comp Hbi Hci Hi Hj Hcomp.
  rewrite (Hcells bi ci i j comp Hbi Hci Hi Hj Hcomp).
  unfold folded_mean. rewrite !Z.div_1_r.
  change (range 1) with [0]. cbn [map Rsum fold_right].
  rewrite !Z.mul_0_l, !Z.add_0_r. change (1 * 1) with 1. lra.
Qed.

Lemma Periodize_factor_one_witness :
  size host_3x3 = [1; 1; 3; 3; 2] /\
  is_contiguous host_3x3 = true /\
  0 <= 1 /\ 0 < 3 /\
  negb (p_jit (Periodize_init true)) || negb (is_cuda host_3x3) = true /\
  exists out,
    Periodize_call (Periodize_init true) (fun _ => 0%R) host_3x3 1 = Ok out /\
    size out = size host_3x3 /\
    forall bi ci i j comp,
      0 <= bi < 1 -> 0 <= ci < 1 -> 0 <= i < 3 -> 0 <= j < 3 ->
      0 <= comp < 2 ->
      elem out [bi; ci; i; j; comp] = elem host_3x3 [bi; ci; i; j; comp].
Proof.
  repeat (split; [first [reflexivity | lia]|]).
  apply (Periodize_factor_one (Periodize_init true) (fun _ => 0%R) host_3x3
           1 1 3 3); first [reflexivity | lia].
Defined.

(** ** cdgmm *)

Section CdgmmExtras.

Variable cublasCdgmm :
  Z -> Z -> list R -> Z -> list R -> Z -> list R -> Z -> list R.

(** X20. On the portable path, for operands of one class, a batch [A] of
    shape [(..., h, w, 2)] and a filter [B] of shape [(h, w, 2)] with
    positive [h] and [w], [cdgmm] raises the [RuntimeError] of the copy
    into the result as soon as [h] is not 1 or the batch holds a number of
    maps other than 1: the products are laid out as [n] rows of [h * w]
    scalars, which cannot be expanded to the shape [(..., h, w)]. *)
Theorem cdgmm_portable_copy_refused (junk : Z -> R) (A B : Tensor)
    (jit inplace : bool) (lead : list Z) (h w : Z) :
  size A = lead ++ [h; w; 2] ->
  size B = [h; w; 2] ->
  ttype A = ttype B ->
  Forall (fun d => 0 <= d) lead ->
  0 < h -> 0 < w ->
  negb jit || negb (is_cuda A) = true ->
  h <> 1 \/ prodZ lead <> 1 ->
  cdgmm cublasCdgmm junk A B jit inplace =
    Raise (RuntimeError
             "The expanded size of the tensor must match the existing size").
Proof using Type.
  exact (cdgmm_portable_refused cublasCdgmm junk A B jit inplace lead h w).
Qed.

(** X21. On the kernel path [cdgmm] hands the library routine the buffers
    of [A] and [B] with [m = h * w] (the complex entries of the filter),
    [n] the number of images of the batch, [lda = ldc = m] and
    [incx = 1]; the output buffer is that of [A] when [inplace] is set and
    a fresh, uninitialised one otherwise; the result has the class and
    shape of [A]. *)
Theorem cdgmm_kernel_call (junk : Z -> R) (A B : Tensor) (inplace : bool)
    (lead : list Z) (h w : Z) :
  size A = lead ++ [h; w; 2] ->
  size B = [h; w; 2] ->
  ttype A = ttype B ->
  Forall (fun d => 0 <= d) lead ->
  0 < h -> 0 < w ->
  is_cuda A = true ->
  cdgmm cublasCdgmm junk A B true inplace =
    Ok (mkTensor (ttype A) (size A)
          (cublasCdgmm (h * w) (prodZ lead) (data A) (h * w) (data B) 1
             (if inplace then data A
              else map junk (range (nelement A)))
             (h * w))
          true).
Proof using Type.
  intros HsA HsB _ Hlead Hh Hw Hcuda.
  exact (cdgmm_kernel_call_eq cublasCdgmm junk A B inplace lead h w
           HsA HsB Hlead Hh Hw Hcuda).
Qed.

Lemma cdgmm_kernel_product (junk : Z -> R) (A B : Tensor) (inplace : bool)
    (lead : list Z) (h w : Z) :
  cublasCdgmm_left_contract cublasCdgmm ->
  size A = lead ++ [h; w; 2] ->
  size B = [h; w; 2] ->
  ttype A = CudaFloatTensor ->
  Forall (fun d => 0 <= d) lead ->
  0 < h -> 0 < w ->
  (inplace = true -> Z.of_nat (length (data A)) = nelement A) ->
  exists d,
    cdgmm cublasCdgmm junk A B true inplace
      = Ok (mkTensor (ttype A) (size A) d true) /\
    forall q, 0 <= q < prodZ lead * (h * w) ->
      rd d (2 * q) =
        (rd (data A) (2 * q) * rd (data B) (2 * (q mod (h * w)))
         - rd (data A) (2 * q + 1) * rd (data B) (2 * (q mod (h * w)) + 1))%R
      /\
      rd d (2 * q + 1) =
        (rd (data A) (2 * q) * rd (data B) (2 * (q mod (h * w)) + 1)
         + rd (data A) (2 * q + 1) * rd (data B) (2 * (q mod (h * w))))%R.
Proof using Type.
  intros Hlib HsA HsB Hty Hlead Hh Hw Hlen.
  pose proof (prodZ_nonneg lead Hlead) as Hn.
  assert (Hcuda : is_cuda A = true) by (unfold is_cuda; now rewrite Hty).
  eexists. split.
  { apply (cdgmm_kernel_call_eq cublasCdgmm junk A B inplace lead h w);
      assumption. }
  intros q Hq.
  assert (Hbuf : Z.of_nat (length (if inplace then data A
                                   else map junk (range (nelement A))))
                 = 2 * (h * w * prodZ lead)).
  { destruct inplace.
    - rewrite (Hlen eq_refl), (nelement_batch A lead h w HsA). ring.
    - rewrite length_map, length_range,
              (nelement_batch A lead h w HsA). nia. }
  apply (Hlib (h * w) (prodZ lead) (data A) (data B) _ ltac:(nia) Hn Hbuf).
  nia.
Qed.

(** X22. Provided the library routine meets its contract for the left
    mode (it writes the product of each entry of the [m x n] column-major
    matrix by the entry of the vector of its row), the kernel path of
    [cdgmm] returns, for device-resident float operands, a tensor of the
    shape of [A] holding at every position of every map the complex
    product of the entry of [A] by the entry of [B] at that position. *)
Theorem cdgmm_kernel_cells (junk : Z -> R) (A B : Tensor) (inplace : bool)
    (lead : list Z) (h w : Z) :
  cublasCdgmm_left_contract cublasCdgmm ->
  size A = lead ++ [h; w; 2] ->
  size B = [h; w; 2] ->
  ttype A = CudaFloatTensor ->
  ttype B = CudaFloatTensor ->
  Forall (fun d => 0 <= d) lead ->
  0 < h -> 0 < w ->
  (inplace = true -> Z.of_nat (length (data A)) = nelement A) ->
  exists C,
    cdgmm cublasCdgmm junk A B true inplace = Ok C /\
    size C = size A /\
    forall q, 0 <= q < prodZ lead * (h * w) ->
      rd (data C) (2 * q) =
        (rd (data A) (2 * q) * rd (data B) (2 * (q mod (h * w)))
         - rd (data A) (2 * q + 1) * rd (data B) (2 * (q mod (h * w)) + 1))%R
      /\
      rd (data C) (2 * q + 1) =
        (rd (data A) (2 * q) * rd (data B) (2 * (q mod (h * w)) + 1)
         + rd (data A) (2 * q + 1) * rd (data B) (2 * (q mod (h * w))))%R.
Proof using Type.
  intros Hlib HsA HsB HtA _ Hlead Hh Hw Hlen.
  destruct (cdgmm_kernel_product junk A B inplace lead h w Hlib HsA HsB HtA
              Hlead Hh Hw Hlen) as [d (Hcall & Hcells)].
  eexists. split; [exact Hcall|]. split; [reflexivity|exact Hcells].
Qed.

(** X23. On the kernel path, for device-resident operands with positive
    extents, [cdgmm] raises exactly when the trailing three axes of [A]
    differ from the shape of [B], or [B] is not of rank 3, or the trailing
    axis of [A] or of [B] is not of length 2: the scalar types of the
    operands play no part. Every error raised is the one of the
    precondition tests, which read only the shapes of the operands. *)
Theorem cdgmm_kernel_raises_iff (junk : Z -> R) (A B : Tensor)
    (inplace : bool) :
  Forall (fun d => 0 < d) (size A) ->
  Forall (fun d => 0 < d) (size B) ->
  is_cuda A = true ->
  is_cuda B = true ->
  (raises (cdgmm cublasCdgmm junk A B true inplace) <->
     (lastn 3 (size A) <> size B \/
      ndimension B <> 3 \/
      List.last (size A) 0 <> 2 \/
      List.last (size B) 0 <> 2)) /\
  (forall e,
     cdgmm cublasCdgmm junk A B true inplace = Raise e ->
     cdgmm_precheck (size A) (size B) = Some e).
Proof using Type.
  intros HpA HpB HcA _.
  destruct (cdgmm_precheck (size A) (size B)) as [e0|] eqn:Hpre.
  - rewrite (cdgmm_precheck_raises cublasCdgmm junk A B true inplace e0
               Hpre).
    cbn [raises]. split.
    + split; [intros _|intros _; exact I].
      destruct (decide (lastn 3 (size A) = size B)) as [E1|N1];
        [|now left].
      destruct (decide (ndimension B = 3)) as [E2|N2];
        [|right; now left].
      destruct (decide (List.last (size A) 0 = 2)) as [E4|N4];
        [|right; right; now left].
      destruct (decide (List.last (size B) 0 = 2)) as [E5|N5];
        [|right; right; now right].
      exfalso.
      assert (Hnone : cdgmm_precheck (size A) (size B) = None)
        by (apply cdgmm_precheck_None; auto).
      congruence.
    + intros e He. congruence.
  - destruct (cdgmm_kernel_passes cublasCdgmm junk A B inplace HpA HpB HcA
                Hpre) as [C HC].
    rewrite HC. cbn [raises]. split.
    + split; [intros []|].
      apply cdgmm_precheck_None in Hpre.
      destruct Hpre as (E1 & E2 & E4 & E5).
      unfold ndimension.
      intros [H|[H|[H|H]]]; contradiction.
    + intros e He. discriminate.
Qed.

(** X24. The modulus of a filtered batch is the product of the moduli.
    For device-resident float operands, a batch that is not empty and that
    the kernel's [int] can index, and a library routine that meets its
    contract, [Modulus] of the result of [cdgmm], both on their kernel
    paths, holds at every position the modulus of the batch times the
    modulus of the filter at that position. *)
Theorem Modulus_cdgmm_multiplicative (junk : Z -> R) (A B : Tensor)
    (lead : list Z) (h w : Z) :
  cublasCdgmm_left_contract cublasCdgmm ->
  size A = lead ++ [h; w; 2] ->
  size B = [h; w; 2] ->
  ttype A = CudaFloatTensor ->
  ttype B = CudaFloatTensor ->
  Forall (fun d => 0 <= d) lead ->
  0 < h -> 0 < w ->
  0 < prodZ lead ->
  nelement A < 2 ^ 31 ->
  exists C MA MB MC,
    cdgmm cublasCdgmm junk A B true false = Ok C /\
    Modulus_call (Modulus_init true) junk A = Ok MA /\
    Modulus_call (Modulus_init true) junk B = Ok MB /\
    Modulus_call (Modulus_init true) junk C = Ok MC /\
    forall q, 0 <= q < prodZ lead * (h * w) ->
      rd (data MC) (2 * q) =
        (rd (data MA) (2 * q) * rd (data MB) (2 * (q mod (h * w))))%R /\
      rd (data MC) (2 * q + 1) = 0%R.
Proof using Type.
  intros Hlib HsA HsB HtA HtB Hlead Hh Hw Hpos HfitA.
  destruct (cdgmm_kernel_product junk A B false lead h w Hlib HsA HsB HtA
              Hlead Hh Hw ltac:(discriminate)) as [d (Hcall & Hcells)].
  assert (HsA2 : size A = (lead ++ [h; w]) ++ [2])
    by (rewrite <- app_assoc; exact HsA).
  assert (HsB2 : size B = [h; w] ++ [2]) by exact HsB.
  assert (Hlead2 : Forall (fun d => 0 <= d) (lead ++ [h; w])).
  { apply Forall_app. split; [assumption|]. repeat constructor; lia. }
  assert (HleadB : Forall (fun d => 0 <= d) [h; w])
    by (repeat constructor; lia).
  assert (HN : prodZ (lead ++ [h; w]) = prodZ lead * (h * w)).
  { rewrite prodZ_app. unfold prodZ at 2. cbn [fold_right]. ring. }
  assert (HNB : prodZ [h; w] = h * w)
    by (unfold prodZ; cbn [fold_right]; ring).
  assert (Hhw : 0 < h * w) by nia.
  assert (HnA : nelement A = 2 * (prodZ lead * (h * w)))
    by exact (nelement_batch A lead h w HsA).
  assert (HnB : nelement B = 2 * (h * w)).
  { unfold nelement. rewrite HsB. unfold prodZ. cbn [fold_right]. ring. }
  assert (Hle : h * w <= prodZ lead * (h * w)) by nia.
  destruct (Modulus_call_cells true junk A (lead ++ [h; w]) HsA2 Hlead2)
    as [MA (HMA & _ & _ & HcA)].
  { intros _. split; [exact HtA|]. rewrite HN. split; [nia|exact HfitA]. }
  destruct (Modulus_call_cells true junk B [h; w] HsB2 HleadB)
    as [MB (HMB & _ & _ & HcB)].
  { intros _. split; [exact HtB|]. rewrite HNB. split; [exact Hhw|lia]. }
  destruct (Modulus_call_cells true junk
              (mkTensor (ttype A) (size A) d true) (lead ++ [h; w])
              HsA2 Hlead2)
    as [MC (HMC & _ & _ & HcC)].
  { intros _. split; [exact HtA|]. rewrite HN. split; [nia|exact HfitA]. }
  cbn [data] in HcC. rewrite HN in HcA, HcC. rewrite HNB in HcB.
  eexists. exists MA, MB, MC.
  split; [exact Hcall|]. split; [exact HMA|]. split; [exact HMB|].
  split; [exact HMC|].
  intros q Hq.
  assert (Hm : 0 <= q mod (h * w) < h * w)
    by (apply Z.mod_pos_bound; exact Hhw).
  destruct (HcC q Hq) as [-> ->]. destruct (HcA q Hq) as [-> _].
  destruct (HcB _ Hm) as [-> _]. destruct (Hcells q Hq) as [-> ->].
  split; [|reflexivity].
  rewrite <- sqrt_mult by nra. f_equal. ring.
Qed.

End CdgmmExtras.

Lemma cublasCdgmm_left_meets_contract :
  cublasCdgmm_left_contract cublasCdgmm_left.
Proof.
  intros m n a x c Hm Hn Hlen q Hq. unfold cublasCdgmm_left.
  rewrite !rd_map_range by lia.
  replace (2 * q) with (q * 2) by lia.
  rewrite Z.div_mul, Z.mod_mul by lia.
  destruct (div_mod_radix q 2 1 ltac:(lia)) as [Hd1 Hm1].
  rewrite Hd1, Hm1. cbn [Z.eqb Pos.eqb].
  pose proof (Z.mod_pos_bound q m Hm) as Hi.
  pose proof (Z.div_mod q m ltac:(lia)) as Hdm.
  assert (Hj : 0 <= q / m < n).
  { split; [apply Z.div_pos; lia|]. apply Z.div_lt_upper_bound; lia. }
  destruct (Z.ltb_spec (q mod m) m); [|lia].
  destruct (Z.ltb_spec (q / m) n); [|lia]. cbn [andb].
  replace (q mod m + q / m * m) with q by lia.
  rewrite Z.mul_1_r. replace (q * 2) with (2 * q) by lia.
  split; reflexivity.
Qed.

Lemma cdgmm_portable_copy_refused_witness :
  size batch_2x1x1 = [2] ++ [1; 1; 2] /\
  size filter_one = [1; 1; 2] /\
  ttype batch_2x1x1 = ttype filter_one /\
  negb false || negb (is_cuda batch_2x1x1) = true /\
  (1 <> 1 \/ prodZ [2] <> 1) /\
  cdgmm cublasCdgmm_left (fun _ => 0%R) batch_2x1x1 filter_one false false =
    Raise (RuntimeError
             "The expanded size of the tensor must match the existing size").
Proof.
  assert (Hne : 1 <> 1 \/ prodZ [2] <> 1)
    by (right; vm_compute; discriminate).
  repeat (split; [first [reflexivity | exact Hne]|]).
  apply (cdgmm_portable_copy_refused cublasCdgmm_left (fun _ => 0%R)
           batch_2x1x1 filter_one false false [2] 1 1);
    first [reflexivity | lia | exact Hne | repeat constructor; lia].
Defined.

Lemma cdgmm_kernel_call_witness :
  size cuda_batch_1x1 = [] ++ [1; 1; 2] /\
  ttype cuda_batch_1x1 = ttype cuda_batch_1x1 /\
  is_cuda cuda_batch_1x1 = true /\
  cdgmm cublasCdgmm_left (fun _ => 0%R) cuda_batch_1x1 cuda_batch_1x1
        true false =
    Ok (mkTensor (ttype cuda_batch_1x1) (size cuda_batch_1x1)
          (cublasCdgmm_left (1 * 1) (prodZ []) (data cuda_batch_1x1) (1 * 1)
             (data cuda_batch_1x1) 1
             (if false then data cuda_batch_1x1
              else map (fun _ => 0%R) (range (nelement cuda_batch_1x1)))
             (1 * 1))
          true).
Proof.
  repeat (split; [reflexivity|]).
  apply (cdgmm_kernel_call cublasCdgmm_left (fun _ => 0%R) cuda_batch_1x1
           cuda_batch_1x1 false [] 1 1);
    first [reflexivity | lia | repeat constructor; lia].
Defined.

Lemma cdgmm_kernel_cells_witness :
  cublasCdgmm_left_contract cublasCdgmm_left /\
  size cuda_batch_1x1 = [] ++ [1; 1; 2] /\
  ttype cuda_batch_1x1 = CudaFloatTensor /\
  (true = true ->
   Z.of_nat (length (data cuda_batch_1x1)) = nelement cuda_batch_1x1) /\
  exists C,
    cdgmm cublasCdgmm_left (fun _ => 0%R) cuda_batch_1x1 cuda_batch_1x1
          true true = Ok C /\
    size C = size cuda_batch_1x1 /\
    forall q, 0 <= q < prodZ [] * (1 * 1) ->
      rd (data C) (2 * q) =
        (rd (data cuda_batch_1x1) (2 * q)
         * rd (data cuda_batch_1x1) (2 * (q mod (1 * 1)))
         - rd (data cuda_batch_1x1) (2 * q + 1)
           * rd (data cuda_batch_1x1) (2 * (q mod (1 * 1)) + 1))%R /\
      rd (data C) (2 * q + 1) =
        (rd (data cuda_batch_1x1) (2 * q)
         * rd (data cuda_batch_1x1) (2 * (q mod (1 * 1)) + 1)
         + rd (data cuda_batch_1x1) (2 * q + 1)
           * rd (data cuda_batch_1x1) (2 * (q mod (1 * 1))))%R.
Proof.
  split; [exact cublasCdgmm_left_meets_contract|].
  split; [reflexivity|]. split; [reflexivity|].
  split; [intros _; reflexivity|].
  apply (cdgmm_kernel_cells cublasCdgmm_left (fun _ => 0%R)
           cuda_batch_1x1 cuda_batch_1x1 true [] 1 1
           cublasCdgmm_left_meets_contract);
    first [reflexivity | lia | (repeat constructor; lia)
          | intros _; reflexivity].
Defined.

Lemma cdgmm_kernel_raises_iff_witness :
  Forall (fun d => 0 < d) (size cuda_batch_1x1) /\
  Forall (fun d => 0 < d) (size cuda_double_filter) /\
  is_cuda cuda_batch_1x1 = true /\
  is_cuda cuda_double_filter = true /\
  (raises (cdgmm cublasCdgmm_left (fun _ => 0%R)
                 cuda_batch_1x1 cuda_double_filter true false) <->
     (lastn 3 (size cuda_batch_1x1) <> size cuda_double_filter \/
      ndimension cuda_double_filter <> 3 \/
      List.last (size cuda_batch_1x1) 0 <> 2 \/
      List.last (size cuda_double_filter) 0 <> 2)) /\
  (forall e,
     cdgmm cublasCdgmm_left (fun _ => 0%R)
           cuda_batch_1x1 cuda_double_filter true false = Raise e ->
     cdgmm_precheck (size cuda_batch_1x1) (size cuda_double_filter) = Some e).
Proof.
  split; [repeat constructor; lia|]. split; [repeat constructor; lia|].
  split; [reflexivity|]. split; [reflexivity|].
  apply (cdgmm_kernel_raises_iff cublasCdgmm_left (fun _ => 0%R)
           cuda_batch_1x1 cuda_double_filter false).
  - repeat constructor; lia.
  - repeat constructor; lia.
  - reflexivity.
  - reflexivity.
Defined.

Lemma Modulus_cdgmm_multiplicative_witness :
  cublasCdgmm_left_contract cublasCdgmm_left /\
  size cuda_batch_1x1 = [] ++ [1; 1; 2] /\
  ttype cuda_batch_1x1 = CudaFloatTensor /\
  0 < prodZ [] /\
  nelement cuda_batch_1x1 < 2 ^ 31 /\
  exists C MA MB MC,
    cdgmm cublasCdgmm_left (fun _ => 0%R) cuda_batch_1x1 cuda_batch_1x1
          true false = Ok C /\
    Modulus_call (Modulus_init true) (fun _ => 0%R) cuda_batch_1x1 = Ok MA /\
    Modulus_call (Modulus_init true) (fun _ => 0%R) cuda_batch_1x1 = Ok MB /\
    Modulus_call (Modulus_init true) (fun _ => 0%R) C = Ok MC /\
    forall q, 0 <= q < prodZ [] * (1 * 1) ->
      rd (data MC) (2 * q) =
        (rd (data MA) (2 * q) * rd (data MB) (2 * (q mod (1 * 1))))%R /\
      rd (data MC) (2 * q + 1) = 0%R.
Proof.
  split; [exact cublasCdgmm_left_meets_contract|].
  split; [reflexivity|]. split; [reflexivity|].
  split; [reflexivity|]. split; [reflexivity|].
  apply (Modulus_cdgmm_multiplicative cublasCdgmm_left (fun _ => 0%R)
           cuda_batch_1x1 cuda_batch_1x1 [] 1 1
           cublasCdgmm_left_meets_contract);
    first [reflexivity | lia | repeat constructor; lia].
Defined.

(** ** Periodize: folding twice *)

Lemma range_add (n m : Z) :
  0 <= n -> 0 <= m -> range (n + m) = range n ++ map (Z.add n) (range m).
Proof.
  intros Hn Hm. pattern m. apply natlike_ind; [| |assumption].
  - rewrite Z.add_0_r. change (range 0) with (@nil Z). cbn [map].
    now rewrite app_nil_r.
  - intros k Hk IH. unfold Z.succ. rewrite Z.add_assoc.
    rewrite !range_succ by lia. rewrite IH, map_app, app_assoc.
    reflexivity.
Qed.

Lemma Rsum_app (l1 l2 : list R) : Rsum (l1 ++ l2) = (Rsum l1 + Rsum l2)%R.
Proof.
  unfold Rsum. induction l1 as [|x l1 IH]; cbn [app fold_right]; [lra|].
  rewrite IH. lra.
Qed.

Lemma Rsum_map_plus {A : Type} (f g : A -> R) (l : list A) :
  Rsum (map (fun a => (f a + g a)%R) l)
    = (Rsum (map f l) + Rsum (map g l))%R.
Proof.
  unfold Rsum. induction l as [|x l IH]; cbn [map fold_right]; [lra|].
  rewrite IH. lra.
Qed.

Lemma Rsum_map_zero {A : Type} (l : list A) :
  Rsum (map (fun _ => 0%R) l) = 0%R.
Proof.
  unfold Rsum. induction l as [|x l IH]; cbn [map fold_right]; [reflexivity|].
  rewrite IH. lra.
Qed.

Lemma Rsum_swap {A B : Type} (g : A -> B -> R) (l1 : list A) (l2 : list B) :
  Rsum (map (fun x => Rsum (map (fun y => g x y) l2)) l1)
    = Rsum (map (fun y => Rsum (map (fun x => g x y) l1)) l2).
Proof.
  induction l1 as [|x l1 IH].
  - symmetry. exact (Rsum_map_zero l2).
  - change (Rsum (map (fun x0 => Rsum (map (fun y => g x0 y) l2)) (x :: l1)))
      with (Rsum (map (fun y => g x y) l2)
            + Rsum (map (fun x0 => Rsum (map (fun y => g x0 y) l2)) l1))%R.
    rewrite IH.
    rewrite <- (Rsum_map_plus (fun y => g x y)
                  (fun y => Rsum (map (fun x0 => g x0 y) l1)) l2).
    apply Rsum_map_ext. intros y _. reflexivity.
Qed.

Lemma Rsum_range_mul (g : Z -> R) (k1 k2 : Z) :
  0 <= k1 -> 0 <= k2 ->
  Rsum (map g (range (k1 * k2)))
    = Rsum (map (fun a1 => Rsum (map (fun a2 => g (a2 + a1 * k2)) (range k2)))
                (range k1)).
Proof.
  intros H1 H2. pattern k1. apply natlike_ind; [| |assumption].
  - reflexivity.
  - intros k Hk IH. unfold Z.succ.
    replace ((k + 1) * k2) with (k * k2 + k2) by ring.
    rewrite range_add by nia. rewrite map_app, Rsum_app, IH.
    rewrite range_succ by assumption. rewrite map_app, Rsum_app.
    f_equal. rewrite map_map. cbn [map].
    unfold Rsum at 2. cbn [fold_right].
    rewrite Rplus_0_r. apply Rsum_map_ext.
    intros a _. f_equal. lia.
Qed.

Lemma Periodize_portable_full (self : Periodize) (junk : Z -> R)
    (input : Tensor) (B C H W k : Z) :
  size input = [B; C; H; W; 2] ->
  is_contiguous input = true ->
  0 <= B -> 0 <= C -> 0 < H -> 0 < W -> 0 < k ->
  (k | H) -> (k | W) ->
  negb (p_jit self) || negb (is_cuda input) = true ->
  exists d,
    Periodize_call self junk input k
      = Ok (mkTensor (ttype input) [B; C; H / k; W / k; 2] d true) /\
    forall bi ci i j comp,
      0 <= bi < B -> 0 <= ci < C -> 0 <= i < H / k -> 0 <= j < W / k ->
      0 <= comp < 2 ->
      elem (mkTensor (ttype input) [B; C; H / k; W / k; 2] d true)
           [bi; ci; i; j; comp]
        = folded_mean input H W k bi ci i j comp.
Proof.
  intros Hsize Hc HB HC HH HW Hk HkH HkW Hpath.
  destruct (Periodize_portable_folded_mean self junk input B C H W k Hsize Hc
              HB HC HH HW Hk HkH HkW Hpath) as [out (Hcall & Hso & Hcells)].
  assert (Hshape : ttype out = ttype input /\ contig out = true).
  { destruct HkH as [NH ->]. destruct HkW as [NW ->].
    assert (HNH : 0 < NH) by nia. assert (HNW : 0 < NW) by nia.
    rewrite (Periodize_portable_ok self junk input B C NH NW k) in Hcall
      by assumption.
    pose proof (mean_split (mkTensor (ttype input) [B; C; k; NH; k; NW; 2]
                                     (data input) true)
                           [B; C; k; NH] [NW; 2] k eq_refl) as Hm1.
    change (Z.of_nat (length [B; C; k; NH])) with 4 in Hm1.
    rewrite Hm1 in Hcall. clear Hm1. cbn [rbind] in Hcall.
    match type of Hcall with
    | mean ?t 2 = _ =>
        pose proof (mean_split t [B; C] [NH; NW; 2] k eq_refl) as Hm2
    end.
    change (Z.of_nat (length [B; C])) with 2 in Hm2.
    rewrite Hm2 in Hcall. inversion Hcall. split; reflexivity. }
  destruct Hshape as [Ht Hct].
  destruct out as [tO sO dO cO]. cbn in Hso, Ht, Hct. subst tO sO cO.
  exists dO. split; [exact Hcall|exact Hcells].
Qed.

Lemma folded_mean_twice (input out1 : Tensor) (NH NW k1 k2 bi ci i j comp : Z) :
  0 < NH -> 0 < NW -> 0 < k1 -> 0 < k2 ->
  0 <= i < NH -> 0 <= j < NW ->
  (forall i' j', 0 <= i' < NH * k2 -> 0 <= j' < NW * k2 ->
     elem out1 [bi; ci; i'; j'; comp]
       = folded_mean input (NH * k2 * k1) (NW * k2 * k1) k1 bi ci i' j' comp) ->
  folded_mean out1 (NH * k2) (NW * k2) k2 bi ci i j comp
    = folded_mean input (NH * k2 * k1) (NW * k2 * k1) (k1 * k2) bi ci i j comp.
Proof.
  intros HNH HNW Hk1 Hk2 Hi Hj Hout.
  unfold folded_mean.
  rewrite !Z.div_mul by lia.
  replace (NH * k2 * k1) with (NH * (k1 * k2)) by ring.
  replace (NW * k2 * k1) with (NW * (k1 * k2)) by ring.
  rewrite !Z.div_mul by lia.
  set (f := fun a b =>
         elem input [bi; ci; i + a * NH; j + b * NW; comp]).
  rewrite (Rsum_map_ext _
    (fun a2 => Rdiv (Rsum (map (fun b2 =>
       Rsum (map (fun a1 => Rsum (map (fun b1 =>
         f (a2 + a1 * k2) (b2 + b1 * k2)) (range k1))) (range k1)))
       (range k2))) (IZR (k1 * k1)))).
  2:{ intros a2 Ha2. apply in_range in Ha2.
      rewrite <- Rsum_map_div. apply Rsum_map_ext.
      intros b2 Hb2. apply in_range in Hb2.
      rewrite Hout.
      2:{ split; [nia|]. 
          apply Z.lt_le_trans with (NH + a2 * NH); [lia|].
          replace (NH + a2 * NH) with ((a2 + 1) * NH) by ring.
          rewrite (Z.mul_comm NH k2).
          apply Z.mul_le_mono_nonneg_r; lia. }
      2:{ split; [nia|].
          apply Z.lt_le_trans with (NW + b2 * NW); [lia|].
          replace (NW + b2 * NW) with ((b2 + 1) * NW) by ring.
          rewrite (Z.mul_comm NW k2).
          apply Z.mul_le_mono_nonneg_r; lia. }
      unfold folded_mean. rewrite !Z.div_mul by lia.
      f_equal. apply Rsum_map_ext. intros a1 _.
      apply Rsum_map_ext. intros b1 _. unfold f.
      replace (i + a2 * NH + a1 * (NH * k2)) with (i + (a2 + a1 * k2) * NH)
        by ring.
      replace (j + b2 * NW + b1 * (NW * k2)) with (j + (b2 + b1 * k2) * NW)
        by ring.
      reflexivity. }
  rewrite Rsum_map_div.
  change (Rsum (map (fun a =>
            Rsum (map (fun b =>
              elem input [bi; ci; i + a * NH; j + b * NW; comp])
              (range (k1 * k2)))) (range (k1 * k2))))
    with (Rsum (map (fun a => Rsum (map (fun b => f a b) (range (k1 * k2))))
                    (range (k1 * k2)))).
  rewrite (Rsum_range_mul
             (fun a => Rsum (map (fun b => f a b) (range (k1 * k2)))) k1 k2)
    by lia.
  assert (Hsums :
    Rsum (map (fun a2 => Rsum (map (fun b2 =>
       Rsum (map (fun a1 => Rsum (map (fun b1 =>
         f (a2 + a1 * k2) (b2 + b1 * k2)) (range k1))) (range k1)))
       (range k2))) (range k2))
    = Rsum (map (fun a1 => Rsum (map (fun a2 =>
        Rsum (map (fun b => f (a2 + a1 * k2) b) (range (k1 * k2))))
        (range k2))) (range k1))).
  { rewrite (Rsum_map_ext _
      (fun a2 => Rsum (map (fun a1 => Rsum (map (fun b2 =>
         Rsum (map (fun b1 => f (a2 + a1 * k2) (b2 + b1 * k2)) (range k1)))
         (range k2))) (range k1))))
      by (intros a2 _;
          exact (Rsum_swap (fun b2 a1 => Rsum (map (fun b1 =>
                   f (a2 + a1 * k2) (b2 + b1 * k2)) (range k1)))
                   (range k2) (range k1))).
    rewrite (Rsum_swap (fun a2 a1 => Rsum (map (fun b2 =>
               Rsum (map (fun b1 => f (a2 + a1 * k2) (b2 + b1 * k2))
                         (range k1))) (range k2)))
               (range k2) (range k1)).
    apply Rsum_map_ext. intros a1 _. apply Rsum_map_ext. intros a2 _.
    rewrite (Rsum_range_mul (fun b => f (a2 + a1 * k2) b) k1 k2) by lia.
    exact (Rsum_swap (fun b2 b1 => f (a2 + a1 * k2) (b2 + b1 * k2))
             (range k2) (range k1)). }
  rewrite Hsums. rewrite !mult_IZR. field.
  split; apply not_0_IZR; lia.
Qed.

(** X10. Folding by [k1] and then by [k2] on the portable path is folding by
    [k1 * k2]: both return the same shape and the same cells. *)
Theorem Periodize_compose (self : Periodize) (junk : Z -> R)
    (input : Tensor) (Bt C H W k1 k2 : Z) :
  size input = [Bt; C; H; W; 2] ->
  is_contiguous input = true ->
  0 <= Bt -> 0 <= C -> 0 < H -> 0 < W -> 0 < k1 -> 0 < k2 ->
  (k1 * k2 | H) -> (k1 * k2 | W) ->
  negb (p_jit self) || negb (is_cuda input) = true ->
  exists out1 out2 out12,
    Periodize_call self junk input k1 = Ok out1 /\
    Periodize_call self junk out1 k2 = Ok out2 /\
    Periodize_call self junk input (k1 * k2) = Ok out12 /\
    size out2 = size out12 /\
    forall bi ci i j comp,
      0 <= bi < Bt -> 0 <= ci < C ->
      0 <= i < H / (k1 * k2) -> 0 <= j < W / (k1 * k2) ->
      0 <= comp < 2 ->
      elem out2 [bi; ci; i; j; comp] = elem out12 [bi; ci; i; j; comp].
Proof.
  intros Hsize Hc HB HC HH HW Hk1 Hk2 [NH HeH] [NW HeW] Hpath.
  assert (Hk : 0 < k1 * k2) by nia.
  assert (HNH : 0 < NH) by nia. assert (HNW : 0 < NW) by nia.
  assert (HH1 : H = NH * k2 * k1) by (rewrite HeH; ring).
  assert (HW1 : W = NW * k2 * k1) by (rewrite HeW; ring).
  assert (HdH1 : H / k1 = NH * k2) by (rewrite HH1; apply Z.div_mul; lia).
  assert (HdW1 : W / k1 = NW * k2) by (rewrite HW1; apply Z.div_mul; lia).
  assert (HdH : H / (k1 * k2) = NH) by (rewrite HeH; apply Z.div_mul; lia).
  assert (HdW : W / (k1 * k2) = NW) by (rewrite HeW; apply Z.div_mul; lia).
  assert (HNHk : 0 < NH * k2) by nia. assert (HNWk : 0 < NW * k2) by nia.
  destruct (Periodize_portable_full self junk input Bt C H W k1 Hsize Hc
              HB HC HH HW Hk1)
    as [d1 (Hcall1 & Hcells1)];
    [exists (NH * k2); exact HH1 | exists (NW * k2); exact HW1 | exact Hpath |].
  rewrite HdH1, HdW1 in Hcall1, Hcells1.
  set (out1 := mkTensor (ttype input) [Bt; C; NH * k2; NW * k2; 2] d1 true)
    in *.
  destruct (Periodize_portable_full self junk out1 Bt C (NH * k2) (NW * k2) k2
              eq_refl eq_refl HB HC HNHk HNWk Hk2)
    as [d2 (Hcall2 & Hcells2)];
    [exists NH; reflexivity | exists NW; reflexivity | exact Hpath |].
  rewrite !Z.div_mul in Hcall2, Hcells2 by lia.
  destruct (Periodize_portable_full self junk input Bt C H W (k1 * k2) Hsize
              Hc HB HC HH HW Hk)
    as [d12 (Hcall12 & Hcells12)];
    [exists NH; exact HeH | exists NW; exact HeW | exact Hpath |].
  rewrite HdH, HdW in Hcall12, Hcells12 |- *.
  eexists. eexists. eexists.
  split; [exact Hcall1|]. split; [exact Hcall2|]. split; [exact Hcall12|].
  split; [reflexivity|].
  intros bi ci i j comp Hbi Hci Hi Hj Hcomp.
  rewrite (Hcells2 bi ci i j comp Hbi Hci Hi Hj Hcomp).
  change (ttype out1) with (ttype input).
  rewrite (Hcells12 bi ci i j comp Hbi Hci Hi Hj Hcomp).
  rewrite HH1, HW1.
  apply folded_mean_twice; try assumption.
  intros i' j' Hi' Hj'. rewrite <- HH1, <- HW1.
  exact (Hcells1 bi ci i' j' comp Hbi Hci Hi' Hj' Hcomp).
Qed.

Lemma Periodize_compose_witness :
  size host_4x4 = [1; 1; 4; 4; 2] /\
  is_contiguous host_4x4 = true /\
  0 < 2 /\ (2 * 2 | 4) /\
  negb (p_jit (Periodize_init true)) || negb (is_cuda host_4x4) = true /\
  exists out1 out2 out12,
    Periodize_call (Periodize_init true) (fun _ => 0%R) host_4x4 2
      = Ok out1 /\
    Periodize_call (Periodize_init true) (fun _ => 0%R) out1 2 = Ok out2 /\
    Periodize_call (Periodize_init true) (fun _ => 0%R) host_4x4 (2 * 2)
      = Ok out12 /\
    size out2 = size out12 /\
    forall bi ci i j comp,
      0 <= bi < 1 -> 0 <= ci < 1 ->
      0 <= i < 4 / (2 * 2) -> 0 <= j < 4 / (2 * 2) ->
      0 <= comp < 2 ->
      elem out2 [bi; ci; i; j; comp] = elem out12 [bi; ci; i; j; comp].
Proof.
  assert (Hd : (2 * 2 | 4)) by (exists 1; reflexivity).
  repeat (split; [first [reflexivity | lia | exact Hd]|]).
  apply (Periodize_compose (Periodize_init true) (fun _ => 0%R) host_4x4
           1 1 4 4 2 2);
    first [reflexivity | lia | exact Hd].
Defined.

(** ** Periodize: the cells the kernel writes, and contiguity *)

(** X11. On the kernel path, for a device-resident complex input of shape
    [(B, C, H, W, 2)] with [k] dividing [H] and [W], whose element count the
    kernel's [int] can index and whose launch the device accepts (between 1
    and 65535 images, at most 65535 blocks along y), the cell of row [i] and
    column [j] of the output is written, with the folded mean, exactly when
    [j] is below 32 times the number of blocks computed from the row extent
    [H / k] and [i] is below 32 times the number of blocks computed from the
    column extent [W / k]; every other cell keeps what the fresh buffer
    held. *)
Theorem Periodize_kernel_path_cells (junk : Z -> R) (input : Tensor)
    (Bt C H W k : Z) :
  size input = [Bt; C; H; W; 2] ->
  is_cuda input = true ->
  0 <= Bt -> 0 <= C -> 0 < H -> 0 < W -> 0 < k ->
  (k | H) -> (k | W) ->
  Bt * C * H * W < 2 ^ 31 ->
  0 < Bt * C <= 65535 ->
  GET_BLOCKS (W / k) 32 <= 65535 ->
  exists out,
    Periodize_call (Periodize_init true) junk input k = Ok out /\
    size out = [Bt; C; H / k; W / k; 2] /\
    forall bi ci i j comp,
      0 <= bi < Bt -> 0 <= ci < C -> 0 <= i < H / k -> 0 <= j < W / k ->
      0 <= comp < 2 ->
      elem out [bi; ci; i; j; comp] =
        if (j <? 32 * GET_BLOCKS (H / k) 32) && (i <? 32 * GET_BLOCKS (W / k) 32)
        then folded_mean input H W k bi ci i j comp
        else junk (flat_index [Bt; C; H / k; W / k; 2] [bi; ci; i; j; comp] 0).
Proof. exact (Periodize_fast_cells junk input Bt C H W k). Qed.

Lemma Periodize_kernel_path_cells_witness :
  size cuda_2x2 = [1; 1; 2; 2; 2] /\
  is_cuda cuda_2x2 = true /\
  0 < 2 /\ (2 | 2) /\ 1 * 1 * 2 * 2 < 2 ^ 31 /\
  0 < 1 * 1 <= 65535 /\
  GET_BLOCKS (2 / 2) 32 <= 65535 /\
  exists out,
    Periodize_call (Periodize_init true) (fun _ => 7%R) cuda_2x2 2 = Ok out /\
    size out = [1; 1; 2 / 2; 2 / 2; 2] /\
    forall bi ci i j comp,
      0 <= bi < 1 -> 0 <= ci < 1 -> 0 <= i < 2 / 2 -> 0 <= j < 2 / 2 ->
      0 <= comp < 2 ->
      elem out [bi; ci; i; j; comp] =
        if (j <? 32 * GET_BLOCKS (2 / 2) 32) && (i <? 32 * GET_BLOCKS (2 / 2) 32)
        then folded_mean cuda_2x2 2 2 2 bi ci i j comp
        else (fun _ => 7%R)
               (flat_index [1; 1; 2 / 2; 2 / 2; 2] [bi; ci; i; j; comp] 0).
Proof.
  assert (Hd : (2 | 2)) by (exists 1; reflexivity).
  assert (Hg : GET_BLOCKS (2 / 2) 32 <= 65535) by (vm_compute; discriminate).
  repeat (split; [first [reflexivity | lia | exact Hd | exact Hg]|]).
  apply (Periodize_kernel_path_cells (fun _ => 7%R) cuda_2x2 1 1 2 2 2);
    first [reflexivity | lia | exact Hd | exact Hg].
Defined.

Lemma split_spatial_axes (Bt C NH NW k : Z) :
  0 < NH -> 0 < NW -> 0 < k ->
  split_axes [Bt; C; NH * k; NW * k; 2] 1 [Bt; C; k; NH; k; NW; 2] = true.
Proof.
  intros HNH HNW Hk.
  repeat (cbn [split_axes];
          match goal with
          | |- context [?a =? ?b] => destruct (Z.eqb_spec a b)
          end);
    try reflexivity; exfalso; nia.
Qed.

Lemma mean_any_layout (ty : TensorType) (sizes : list Z) (d : list R)
    (c : bool) (axis : Z) :
  mean (mkTensor ty sizes d c) axis = mean (mkTensor ty sizes d true) axis.
Proof. reflexivity. Qed.

(** X13. The portable path does not need a contiguous input: its reshape
    only splits the two spatial axes, which every layout allows. For an
    input of shape [(B, C, H, W, 2)] with [k] dividing [H] and [W], the
    call returns, and returns what it returns for [input.contiguous()]. *)
Theorem Periodize_portable_any_layout (self : Periodize) (junk : Z -> R)
    (input : Tensor) (Bt C H W k : Z) :
  size input = [Bt; C; H; W; 2] ->
  0 <= Bt -> 0 <= C -> 0 < H -> 0 < W -> 0 < k ->
  (k | H) -> (k | W) ->
  negb (p_jit self) || negb (is_cuda input) = true ->
  exists out,
    Periodize_call self junk input k = Ok out /\
    Periodize_call self junk (contiguous input) k = Ok out.
Proof.
  intros Hsize HB HC HH HW Hk HkH HkW Hpath.
  destruct (Periodize_portable_folded_mean self junk (contiguous input)
              Bt C H W k Hsize eq_refl HB HC HH HW Hk HkH HkW Hpath)
    as [out (Hcall & _)].
  exists out. split; [|exact Hcall].
  rewrite <- Hcall. clear Hcall out.
  destruct HkH as [NH ->]. destruct HkW as [NW ->].
  assert (HNH : 0 < NH) by nia. assert (HNW : 0 < NW) by nia.
  rewrite (Periodize_portable_ok self junk (contiguous input) Bt C NH NW k)
    by first [assumption | reflexivity | exact Hsize].
  unfold Periodize_call. rewrite_size_5 Hsize. cbn [rbind].
  unfold py_floordiv.
  destruct (Z.eqb_spec k 0) as [?|_]; [lia|]. cbn [rbind].
  rewrite !Z.div_mul by lia.
  unfold tensor_new. cbn [forallb]. nonneg_leb.
  cbn [andb rbind]. rewrite Hpath.
  destruct (Z.eqb_spec NH 0) as [?|_]; [lia|].
  destruct (Z.eqb_spec NW 0) as [?|_]; [lia|]. cbn [rbind].
  rewrite (Z.mul_comm NH k), (Z.mul_comm NW k), !Z.div_mul by lia.
  unfold view. cbn [forallb]. nonneg_leb. cbn [andb].
  unfold nelement. rewrite Hsize.
  replace (prodZ [Bt; C; k; NH; k; NW; 2]
           =? prodZ [Bt; C; NH * k; NW * k; 2]) with true.
  2:{ symmetry. apply Z.eqb_eq. unfold prodZ. cbn [fold_right]. ring. }
  rewrite split_spatial_axes by assumption.
  destruct (is_contiguous input); cbn [negb rbind]; [reflexivity|].
  rewrite mean_any_layout. reflexivity.
Qed.

Lemma Periodize_portable_any_layout_witness :
  size cuda_2x2_strided = [1; 1; 2; 2; 2] /\
  is_contiguous cuda_2x2_strided = false /\
  0 < 2 /\ (2 | 2) /\
  negb (p_jit (Periodize_init false)) || negb (is_cuda cuda_2x2_strided)
    = true /\
  exists out,
    Periodize_call (Periodize_init false) (fun _ => 0%R) cuda_2x2_strided 2
      = Ok out /\
    Periodize_call (Periodize_init false) (fun _ => 0%R)
                   (contiguous cuda_2x2_strided) 2 = Ok out.
Proof.
  assert (Hd : (2 | 2)) by (exists 1; reflexivity).
  repeat (split; [first [reflexivity | lia | exact Hd]|]).
  apply (Periodize_portable_any_layout (Periodize_init false) (fun _ => 0%R)
           cuda_2x2_strided 1 1 2 2 2);
    first [reflexivity | lia | exact Hd].
Defined.
